(** * Pdf-Compare: the comparison core

    A shallow embedding of the pure comparison logic of the Pdf-Compare
    tools, with the properties its specification states:

    - [PyStr]: Python strings as lists of Unicode code points, with the
      [str] methods and character classes the sources use;
    - [Re]: the regular expressions of [PDdiff.is_placeholder_diff],
      matched with Brzozowski derivatives;
    - [Difflib]: [difflib.SequenceMatcher(None, a, b).ratio()];
    - [Aligner]: [compare_with_resync] of [pdf_text_compare_posid.py];
    - [Normalizer]: [is_meaningless_word], [normalize_korean_number],
      [split_by_comma] and [normalize_word] of the same file;
    - [TextComparator]: [insurance_compare/text_comparator.py];
    - [PDdiff]: the classifier and the block matcher of [PDdiff.py];
    - [Region]: the compared region of [compare_texts] in
      [pdf_text_compare_posid.py];
    - [Gui]: the list of differences and the inverted sync map of
      [insurance_compare/insurance_compare_gui.py]. *)

From Stdlib Require Import QArith Ascii String Lqa Sorted.
From stdpp Require Import gmap list strings.

Open Scope nat_scope.

(** [enumerate(l)], counting from [n]. *)
Fixpoint enumerate_from {A : Type} (n : nat) (l : list A) : list (nat * A) :=
  match l with
  | [] => []
  | x :: l' => (n, x) :: enumerate_from (S n) l'
  end.

Definition enumerate {A : Type} (l : list A) : list (nat * A) := enumerate_from 0 l.

(** * Python strings *)

Module PyStr.

(** A Python [str] is a sequence of code points. *)
Definition char := N.
Bind Scope N_scope with char.
Abbreviation str := (list char).

(** ** Literals

    Source literals are written as UTF-8 text and decoded to code
    points, so that the Korean words and the glyphs of the sources can
    be read in place. *)

Definition byte_val (a : ascii) : N := N_of_ascii a.

(** [cont acc b] appends the six payload bits of a continuation byte. *)
Definition cont (acc : N) (b : ascii) : N := (acc * 64 + (byte_val b - 128))%N.

Fixpoint utf8 (s : string) : str :=
  match s with
  | EmptyString => []
  | String a s1 =>
    let v := byte_val a in
    if (v <? 128)%N then v :: utf8 s1
    else if (v <? 224)%N then
      match s1 with
      | String b s2 => cont (v - 192) b :: utf8 s2
      | _ => []
      end
    else if (v <? 240)%N then
      match s1 with
      | String b (String c s3) => cont (cont (v - 224) b) c :: utf8 s3
      | _ => []
      end
    else
      match s1 with
      | String b (String c (String d s4)) =>
        cont (cont (cont (v - 240) b) c) d :: utf8 s4
      | _ => []
      end
  end.

(** ** Character classes

    The classes follow Python's Unicode database on the code points the
    sources mention: ASCII and Latin-1 (U+0000..U+00FF), the Hangul
    syllables and jamo, the circled numbers and the bullet glyphs.
    Every other code point is read as a caseless symbol (neither
    alphanumeric nor a digit). The white space set is the whole of
    [str.isspace]. *)

Definition in_range (lo hi c : N) : bool := ((lo <=? c) && (c <=? hi))%N.

Definition is_ascii_digit (c : char) : bool := in_range 0x30 0x39 c.
Definition is_ascii_upper (c : char) : bool := in_range 0x41 0x5A c.
Definition is_ascii_lower (c : char) : bool := in_range 0x61 0x7A c.

(** ['가' <= c <= '힣'], the class [가-힣] of the regular expressions. *)
Definition is_hangul_syllable (c : char) : bool := in_range 0xAC00 0xD7A3 c.

(** [str.isspace] on one character, also the class [\s]. *)
Definition isspace (c : char) : bool :=
  in_range 0x09 0x0D c || in_range 0x1C 0x20 c
  || (c =? 0x85)%N || (c =? 0xA0)%N || (c =? 0x1680)%N
  || in_range 0x2000 0x200A c || (c =? 0x2028)%N || (c =? 0x2029)%N
  || (c =? 0x202F)%N || (c =? 0x205F)%N || (c =? 0x3000)%N.

(** [str.isdigit] on one character. *)
Definition isdigit_char (c : char) : bool :=
  is_ascii_digit c || (c =? 0xB2)%N || (c =? 0xB3)%N || (c =? 0xB9)%N
  || in_range 0x2460 0x2468 c.

Definition isalpha_char (c : char) : bool :=
  is_ascii_upper c || is_ascii_lower c
  || (c =? 0xAA)%N || (c =? 0xB5)%N || (c =? 0xBA)%N
  || in_range 0xC0 0xD6 c || in_range 0xD8 0xF6 c || in_range 0xF8 0xFF c
  || in_range 0x1100 0x11FF c || in_range 0x3131 0x318E c
  || is_hangul_syllable c.

(** [str.isalnum] on one character: a letter, a digit or a numeric
    character (the fractions of Latin-1, the circled numbers). *)
Definition isalnum_char (c : char) : bool :=
  isalpha_char c || isdigit_char c
  || in_range 0xBC 0xBE c || in_range 0x2469 0x2473 c.

(** The class [\w]: alphanumeric or the underscore. *)
Definition is_word_char (c : char) : bool := isalnum_char c || (c =? 0x5F)%N.

(** The class [\d]: a decimal digit. *)
Definition is_decimal (c : char) : bool := is_ascii_digit c.

(** The characters that have a lower case form of their own: the
    capital letters of ASCII and of Latin-1. *)
Definition changes_case (c : char) : bool :=
  is_ascii_upper c || in_range 0xC0 0xD6 c || in_range 0xD8 0xDE c.

Definition lower_char (c : char) : char :=
  if changes_case c then (c + 32)%N else c.

(** The code points of Latin-1, to check a property of characters one
    by one. *)
Definition latin1 : list char := map N.of_nat (seq 0 256).

(** ** Methods of [str] *)

Definition lower (s : str) : str := map lower_char s.

Fixpoint lstrip (s : str) : str :=
  match s with
  | c :: s' => if isspace c then lstrip s' else s
  | [] => []
  end.

Fixpoint rstrip (s : str) : str :=
  match s with
  | [] => []
  | c :: s' =>
    match rstrip s' with
    | [] => if isspace c then [] else [c]
    | r => c :: r
    end
  end.

Definition strip (s : str) : str := rstrip (lstrip s).

(** [s.isdigit()]: every character is a digit and there is at least one. *)
Definition isdigit (s : str) : bool :=
  negb (bool_decide (s = [])) && forallb isdigit_char s.

Fixpoint startswith (p s : str) : bool :=
  match p, s with
  | [], _ => true
  | a :: p', b :: s' => (a =? b)%N && startswith p' s'
  | _ :: _, [] => false
  end.

(** [sub in s]. *)
Fixpoint contains (sub s : str) : bool :=
  startswith sub s ||
  match s with
  | _ :: s' => contains sub s'
  | [] => false
  end.

(** [s.replace(old, new)] for a non-empty [old]: the occurrences are
    replaced from left to right, without overlap. [skip] counts the
    characters of an occurrence still to drop. *)
Fixpoint replace_from (old new : str) (skip : nat) (s : str) : str :=
  match s with
  | [] => []
  | c :: s' =>
    match skip with
    | S k => replace_from old new k s'
    | O =>
      if startswith old s
      then new ++ replace_from old new (length old - 1) s'
      else c :: replace_from old new 0 s'
    end
  end.

Definition replace (old new s : str) : str := replace_from old new 0 s.

(** [s.split(sep)] for a one-character separator. *)
Fixpoint split (sep : char) (s : str) : list str :=
  match s with
  | [] => [[]]
  | c :: s' =>
    if (c =? sep)%N then [] :: split sep s'
    else match split sep s' with
         | h :: t => (c :: h) :: t
         | [] => [[c]]
         end
  end.

(** [''.join(ws)]. *)
Definition join (ws : list str) : str := concat ws.

(** [int(s)] for a string of ASCII digits; [None] stands for the
    [ValueError] raised on the empty string or on any other character. *)
Definition int (s : str) : option N :=
  if forallb is_ascii_digit s && negb (bool_decide (s = []))
  then Some (fold_left (fun acc c => (acc * 10 + (c - 0x30))%N) s 0%N)
  else None.

Fixpoint uint_digits (d : Decimal.uint) : str :=
  match d with
  | Decimal.Nil => []
  | Decimal.D0 d => 0x30%N :: uint_digits d
  | Decimal.D1 d => 0x31%N :: uint_digits d
  | Decimal.D2 d => 0x32%N :: uint_digits d
  | Decimal.D3 d => 0x33%N :: uint_digits d
  | Decimal.D4 d => 0x34%N :: uint_digits d
  | Decimal.D5 d => 0x35%N :: uint_digits d
  | Decimal.D6 d => 0x36%N :: uint_digits d
  | Decimal.D7 d => 0x37%N :: uint_digits d
  | Decimal.D8 d => 0x38%N :: uint_digits d
  | Decimal.D9 d => 0x39%N :: uint_digits d
  end.

(** [str(n)] for a non-negative integer. *)
Definition str_of_int (n : N) : str := uint_digits (N.to_uint n).

End PyStr.

(** * Regular expressions

    [re.search(pattern, text)] is used by the sources as a truth value:
    is there a substring of [text] in the language of [pattern]? The
    patterns use literals, classes, groups, [*] and bounded repetition
    only, so the answer is that of the regular language. *)

Module Re.
Import PyStr.

Inductive regex : Type :=
| Void : regex
| Eps : regex
| Class : (char -> bool) -> regex
| Seq : regex -> regex -> regex
| Alt : regex -> regex -> regex
| Star : regex -> regex.

(** One literal character, and a literal string. *)
Definition Chr (c : char) : regex := Class (N.eqb c).

Fixpoint Lit (s : str) : regex :=
  match s with
  | [] => Eps
  | c :: s' => Seq (Chr c) (Lit s')
  end.

(** [r{n}], [r{0,n}] and [r{m,n}]. *)
Fixpoint Times (n : nat) (r : regex) : regex :=
  match n with
  | O => Eps
  | S k => Seq r (Times k r)
  end.

Fixpoint UpTo (n : nat) (r : regex) : regex :=
  match n with
  | O => Eps
  | S k => Alt Eps (Seq r (UpTo k r))
  end.

Definition Rep (m n : nat) (r : regex) : regex := Seq (Times m r) (UpTo (n - m) r).

(** The concatenation of a list of expressions. *)
Definition Cat (rs : list regex) : regex := foldr Seq Eps rs.

(** The language of an expression. *)
Inductive lang : regex -> str -> Prop :=
| lang_eps : lang Eps []
| lang_class p c : p c = true -> lang (Class p) [c]
| lang_seq r1 r2 s1 s2 : lang r1 s1 -> lang r2 s2 -> lang (Seq r1 r2) (s1 ++ s2)
| lang_alt_l r1 r2 s : lang r1 s -> lang (Alt r1 r2) s
| lang_alt_r r1 r2 s : lang r2 s -> lang (Alt r1 r2) s
| lang_star_nil r : lang (Star r) []
| lang_star_cons r s1 s2 : lang r s1 -> lang (Star r) s2 -> lang (Star r) (s1 ++ s2).

Fixpoint nullable (r : regex) : bool :=
  match r with
  | Void => false
  | Eps => true
  | Class _ => false
  | Seq r1 r2 => nullable r1 && nullable r2
  | Alt r1 r2 => nullable r1 || nullable r2
  | Star _ => true
  end.

Fixpoint deriv (c : char) (r : regex) : regex :=
  match r with
  | Void => Void
  | Eps => Void
  | Class p => if p c then Eps else Void
  | Seq r1 r2 =>
    if nullable r1 then Alt (Seq (deriv c r1) r2) (deriv c r2)
    else Seq (deriv c r1) r2
  | Alt r1 r2 => Alt (deriv c r1) (deriv c r2)
  | Star r1 => Seq (deriv c r1) (Star r1)
  end.

(** [fullmatch r s]: the whole of [s] is in the language of [r]. *)
Fixpoint fullmatch (r : regex) (s : str) : bool :=
  match s with
  | [] => nullable r
  | c :: s' => fullmatch (deriv c r) s'
  end.

(** [match_prefix r s]: some prefix of [s] is in the language of [r]
    ([re.match] as a truth value). *)
Fixpoint match_prefix (r : regex) (s : str) : bool :=
  nullable r ||
  match s with
  | [] => false
  | c :: s' => match_prefix (deriv c r) s'
  end.

(** [search r s]: some substring of [s] is in the language of [r]
    ([re.search] as a truth value). *)
Fixpoint search (r : regex) (s : str) : bool :=
  match_prefix r s ||
  match s with
  | [] => false
  | _ :: s' => search r s'
  end.

End Re.

(** * The word aligner: [compare_with_resync] *)

Module Aligner.
Import PyStr.

(** An entry of [differences]: [('delete', i, None)],
    [('insert', None, j)] or [('replace', i, j)]. *)
Inductive diff : Type :=
| Delete (i : nat)
| Insert (j : nat)
| Replace (i j : nat).

#[export] Instance diff_eq_dec : EqDecision diff.
Proof. solve_decision. Defined.

(** The loop variables. *)
Record state : Type := State { pos_i : nat; pos_j : nat; differences : list diff }.

(** [range(lo, hi)] searched for the first [k] that satisfies [p]:
    a [for] loop left by [break] at its first hit. *)
Definition first_in_range (lo hi : nat) (p : nat -> bool) : option nat :=
  find p (seq lo (hi - lo)).

Section Loop.
Variables words_left words_right : list str.
Variable lookahead : nat.

(** [words_left[i] == words_right[j]] for indices inside both lists
    (every use below is guarded by the bounds of its loop). *)
Definition same_word (i j : nat) : bool :=
  match words_left !! i, words_right !! j with
  | Some a, Some b => bool_decide (a = b)
  | _, _ => false
  end.

Definition word_len (ws : list str) (i : nat) : nat :=
  match ws !! i with
  | Some w => length w
  | None => 0
  end.

(** [ws[i:i+n]]. *)
Definition slice (ws : list str) (i n : nat) : list str := take n (drop i ws).

(** [''.join(ws[i:i+n]) == other[j]]. *)
Definition joined_is (ws : list str) (i n : nat) (other : list str) (j : nat) : bool :=
  match other !! j with
  | Some w => bool_decide (join (slice ws i n) = w)
  | None => false
  end.

(** Step 0, the merge check: the shorter word may be the first piece
    of a word that the other side has in one piece. On success the
    pointers move past the whole group. *)
Definition merge_check (i j : nat) : option (nat * nat) :=
  if word_len words_left i <? word_len words_right j then
    match first_in_range 1 (min 5 (length words_left - i))
            (fun k => joined_is words_left i (k + 1) words_right j) with
    | Some k => Some (i + (k + 1), j + 1)
    | None => None
    end
  else if word_len words_right j <? word_len words_left i then
    match first_in_range 1 (min 5 (length words_right - j))
            (fun k => joined_is words_right j (k + 1) words_left i) with
    | Some k => Some (i + 1, j + (k + 1))
    | None => None
    end
  else None.

(** Step 1: the current right word is found ahead on the left. *)
Definition resync_delete (i j : nat) : option nat :=
  first_in_range 1 (min (lookahead + 1) (length words_left - i))
    (fun k => same_word (i + k) j).

(** Step 2: the current left word is found ahead on the right. *)
Definition resync_insert (i j : nat) : option nat :=
  first_in_range 1 (min (lookahead + 1) (length words_right - j))
    (fun k => same_word i (j + k)).

(** Step 3: the nearest common word ahead on both sides; of the pairs
    at the least distance [k1 + k2] the first in loop order is kept. *)
Definition resync_both (i j : nat) : option (nat * nat) :=
  fold_left
    (fun best k1 =>
       fold_left
         (fun best k2 =>
            if same_word (i + k1) (j + k2) then
              match best with
              | Some (b1, b2) => if k1 + k2 <? b1 + b2 then Some (k1, k2) else best
              | None => Some (k1, k2)
              end
            else best)
         (seq 1 (min (lookahead + 1) (length words_right - j) - 1)) best)
    (seq 1 (min (lookahead + 1) (length words_left - i) - 1)) None.

(** [for idx in range(lo, lo + n): differences.append(mk(idx))]. *)
Definition emit (mk : nat -> diff) (lo n : nat) (ds : list diff) : list diff :=
  ds ++ map mk (seq lo n).

(** One turn of the [while] loop, entered with [i < len(words_left)] or
    [j < len(words_right)]. *)
Definition step (st : state) : state :=
  let i := pos_i st in
  let j := pos_j st in
  let ds := differences st in
  let in_left := i <? length words_left in
  let in_right := j <? length words_right in
  if in_left && negb in_right then State (i + 1) j (ds ++ [Delete i])
  else if negb in_left && in_right then State i (j + 1) (ds ++ [Insert j])
  else if same_word i j then State (i + 1) (j + 1) ds
  else
    match merge_check i j with
    | Some (i', j') => State i' j' ds
    | None =>
      match resync_delete i j with
      | Some k => State (i + k) j (emit Delete i k ds)
      | None =>
        match resync_insert i j with
        | Some k => State i (j + k) (emit Insert j k ds)
        | None =>
          match resync_both i j with
          | Some (k1, k2) =>
            State (i + k1) (j + k2) (emit Insert j k2 (emit Delete i k1 ds))
          | None => State (i + 1) (j + 1) (ds ++ [Replace i j])
          end
        end
      end
    end.

(** [while i < len(words_left) or j < len(words_right)]. *)
Definition running (st : state) : bool :=
  (pos_i st <? length words_left) || (pos_j st <? length words_right).

(** The loop, with a bound on its turns. *)
Fixpoint run (fuel : nat) (st : state) : state :=
  match fuel with
  | O => st
  | S fuel' => if running st then run fuel' (step st) else st
  end.

(** The state of the loop after [n] turns. *)
Definition reached (n : nat) : state := run n (State 0 0 []).

End Loop.

(** Every turn moves a pointer forward, so the loop makes at most
    [len(words_left) + len(words_right)] turns (lemma [run_finishes]
    below shows the bound is enough). *)
Definition compare_with_resync_at (lookahead : nat) (words_left words_right : list str)
  : list diff :=
  differences
    (run words_left words_right lookahead
         (length words_left + length words_right) (State 0 0 [])).

(** [compare_with_resync(words_left, words_right)], with the default
    [lookahead=5]. *)
Definition compare_with_resync (words_left words_right : list str) : list diff :=
  compare_with_resync_at 5 words_left words_right.

(** ** What an entry refers to *)

Definition left_index (d : diff) : option nat :=
  match d with
  | Delete i => Some i
  | Insert _ => None
  | Replace i _ => Some i
  end.

Definition right_index (d : diff) : option nat :=
  match d with
  | Delete _ => None
  | Insert j => Some j
  | Replace _ j => Some j
  end.

(** [d] refers to left words in [[i, i')] and to right words in
    [[j, j')] only. *)
Definition within (i i' j j' : nat) (d : diff) : Prop :=
  (forall x, left_index d = Some x -> i <= x < i') /\
  (forall y, right_index d = Some y -> j <= y < j').

(** The left words, and the right words, that the entries refer to, in
    the order of the entries. *)
Definition left_indices (ds : list diff) : list nat := omap left_index ds.
Definition right_indices (ds : list diff) : list nat := omap right_index ds.

(** [l] with [x] inserted at position [p]. *)
Definition insert_at {A : Type} (p : nat) (x : A) (l : list A) : list A :=
  take p l ++ x :: drop p l.

(** A list of words from its literals. *)
Definition words (l : list string) : list str := map utf8 l.

(** ** Sample word lists *)

(** One side has a word in two pieces, the other in one piece. *)
Definition split_words : list str := words ["가입"; "보험"; "기간"; "만기"].
Definition joined_words : list str := words ["가입"; "보험기간"; "만기"].

Definition plain_words : list str := words ["가입"; "보험"; "기간"].
Definition two_words : list str := words ["보험"; "기간"].

End Aligner.

(** * The word normalizer of [pdf_text_compare_posid.py] *)

Module Normalizer.
Import PyStr.

Definition url_patterns : list str :=
  map utf8 ["http"; "https"; "www."; ".com"; ".net"; ".org"; ".go.kr"; ".kr"; "ftp://"]%string.

Definition bullet_points : list str :=
  map utf8
    ["o"; "O";
     "•"; "●"; "○"; "◦"; "⦿"; "⦾";
     "■"; "□"; "▪"; "▫"; "◾"; "◽";
     "◆"; "◇"; "◈";
     "▶"; "▷"; "►"; "▸";
     "※"; "★"; "☆"; "✓"; "✔"; "✕"; "✖";
     "-"; "–"; "—"; "―";
     "→"; "←"; "↑"; "↓";
     "①"; "②"; "③"; "④"; "⑤"; "⑥"; "⑦"; "⑧"; "⑨"; "⑩"]%string.

(** ['가' <= char <= '힣' or 'ㄱ' <= char <= 'ㅎ' or 'ㅏ' <= char <= 'ㅣ']. *)
Definition is_korean (c : char) : bool :=
  in_range 0xAC00 0xD7A3 c || in_range 0x3131 0x314E c || in_range 0x314F 0x3163 c.

Definition is_meaningless_word (word : str) : bool :=
  if existsb (fun pattern => contains pattern (lower word)) url_patterns then true
  else if bool_decide (strip word ∈ bullet_points) then true
  else if match strip word with
          | [c] => negb (isalnum_char c || is_korean c)
          | _ => false
          end then true
  else if isdigit (strip word) && (length (strip word) <=? 2) then true
  else false.

(** The units of [normalize_korean_number], in the order of the dict. *)
Definition units : list (char * N) :=
  [(0xC870, 1000000000000); (0xC5B5, 100000000); (0xB9CC, 10000)]%N.

Definition is_number_char (c : char) : bool := is_ascii_digit c || (c =? 0x2C)%N.

(** [re.search(r'([0-9,]+)' + unit, text)]: the first run of digits and
    commas that [unit] follows at once; the result is [match.group(1)]
    ([match.group(0)] is that run followed by [unit]). A run is matched
    as a whole: the character after a shorter piece of it is not
    [unit]. *)
Fixpoint search_number_unit (unit : char) (run : str) (text : str) : option str :=
  match text with
  | [] => None
  | c :: text' =>
    if is_number_char c then search_number_unit unit (run ++ [c]) text'
    else if (c =? unit)%N && negb (bool_decide (run = [])) then Some run
    else search_number_unit unit [] text'
  end.

(** The body of the loop over [units]; a failing [int] leaves [text]
    as it is (the [except] branch). *)
Definition expand_unit (text : str) (um : char * N) : str :=
  let '(unit, multiplier) := um in
  if contains [unit] text then
    match search_number_unit unit [] text with
    | Some number_str =>
      match int (replace [0x2C%N] [] number_str) with
      | Some number =>
        replace (number_str ++ [unit]) (str_of_int (number * multiplier)) text
      | None => text
      end
    | None => text
    end
  else text.

Definition normalize_korean_number (text : str) : str :=
  replace [0x2C%N] [] (fold_left expand_unit units text).

Definition split_by_comma (word : str) : list str :=
  let result := filter (fun part => part <> []) (map strip (split 0x2C word)) in
  match result with
  | [] => [word]
  | _ => result
  end.

(** The characters outside the class [[^\w\s가-힣]]. *)
Definition kept (c : char) : bool := is_word_char c || isspace c || is_hangul_syllable c.

(** [re.sub(r'[^\w\s가-힣]', '', word)]. *)
Definition strip_punctuation (word : str) : str :=
  filter (fun c => kept c = true) word.

(** [re.sub(r'\s+', ' ', word)]; [in_run] says that the last character
    read was white space. *)
Fixpoint collapse_from (in_run : bool) (word : str) : str :=
  match word with
  | [] => []
  | c :: word' =>
    if isspace c then
      if in_run then collapse_from true word'
      else 0x20%N :: collapse_from true word'
    else c :: collapse_from false word'
  end.

Definition collapse_spaces (word : str) : str := collapse_from false word.

Definition normalize_word (word : str) : str :=
  if is_meaningless_word word then []
  else
    let word := normalize_korean_number word in
    let word := strip_punctuation word in
    let word := collapse_spaces word in
    let word := lower word in
    strip word.

(** The last four steps of [normalize_word]. *)
Definition tidy (word : str) : str :=
  strip (lower (collapse_spaces (strip_punctuation word))).


(** The words of one extracted token as [extract_text_with_word_info]
    keeps them: split at commas, normalized, the empty ones dropped. *)
Definition normalized_words (word_text : str) : list str :=
  filter (fun w => w <> []) (map normalize_word (split_by_comma word_text)).

End Normalizer.

(** * [difflib.SequenceMatcher(None, a, b).ratio()]

    The ratio is [2.0 * M / T]: [T] is the number of characters of both
    strings and [M] the number of characters in the matching blocks,
    found by taking the longest common block and then matching the
    pieces to its left and to its right. Of the longest blocks the one
    that starts earliest in [a] is taken, and of those the one that
    starts earliest in [b]. The popularity heuristic, which only starts
    at 200 characters, is not modelled. The quotient is kept as an exact
    rational. *)

Module Difflib.
Import PyStr.

(** The length of the longest common prefix. *)
Fixpoint common_prefix (a b : str) : nat :=
  match a, b with
  | x :: a', y :: b' => if (x =? y)%N then S (common_prefix a' b') else O
  | _, _ => O
  end.

(** The candidate blocks [(i, j, k)] in the order of their start. *)
Definition candidates (a b : str) : list (nat * nat * nat) :=
  flat_map
    (fun i => map (fun j => (i, j, common_prefix (drop i a) (drop j b)))
                  (seq 0 (length b)))
    (seq 0 (length a)).

(** A common block inside both strings. *)
Definition block_of (a b : str) (c : nat * nat * nat) : Prop :=
  let '(i, j, k) := c in
  i + k <= length a /\ j + k <= length b /\ take k (drop i a) = take k (drop j b).

Definition longer (best c : nat * nat * nat) : nat * nat * nat :=
  if snd best <? snd c then c else best.

Definition find_longest_match (a b : str) : nat * nat * nat :=
  fold_left longer (candidates a b) (0, 0, 0).

(** The number of matched characters; [fuel] bounds the depth of the
    splitting. *)
Fixpoint matches (fuel : nat) (a b : str) : nat :=
  match fuel with
  | O => O
  | S fuel' =>
    let '(i, j, k) := find_longest_match a b in
    if k =? 0 then O
    else matches fuel' (take i a) (take j b) + k
         + matches fuel' (drop (i + k) a) (drop (j + k) b)
  end.

Definition ratio (a b : str) : Q :=
  match (length a + length b)%nat with
  | O => 1
  | S n => Z.of_nat (2 * matches (length a + length b) a b)%nat # Pos.of_succ_nat n
  end.

End Difflib.

(** Comparison of scores. *)
Definition Qltb (x y : Q) : bool := negb (Qle_bool y x).

(** * [insurance_compare/text_comparator.py] *)

Module TextComparator.
Import PyStr.

(** The threshold 0.6, like the bonus 0.1 below, is an exact rational. *)
Definition SIMILARITY_THRESHOLD : Q := 6 # 10.

(** A block as [compare_blocks] reads it; [section_type] is what
    [block.get('section_type')] returns, [None] for a missing key. The
    coordinates of [bbox] are carried along unread; integers stand for
    them. *)
Record block : Type := Block {
  text : str;
  page : nat;
  bbox : Z * Z * Z * Z;
  section_type : option str
}.

Inductive color : Type := yellow | red | green.

(** The [type] of a word-level result. *)
Inductive diff_type : Type := same | modified.

(** [re.sub(r'\s+', ' ', text)], then [re.sub(r'[^\w\s가-힣]', '', text)],
    then [text.strip().lower()]: the substitutions are those of the
    word normalizer. *)
Definition normalize_text (text : str) : str :=
  let text := Normalizer.collapse_spaces text in
  let text := Normalizer.strip_punctuation text in
  lower (strip text).

(** The character loop of [tokenize_words]: [current_word] collects a
    word until white space ends it. *)
Fixpoint tokenize_from (current_word : str) (text : str) : list str :=
  match text with
  | [] => if bool_decide (current_word = []) then [] else [current_word]
  | c :: text' =>
    if isspace c then
      if bool_decide (current_word = []) then tokenize_from [] text'
      else current_word :: tokenize_from [] text'
    else tokenize_from (current_word ++ [c]) text'
  end.

Definition tokenize_words (text : str) : list str :=
  tokenize_from [] (strip (Normalizer.collapse_spaces text)).

(** The [type] field of [compare_word_level]. Equal word lists give
    ['same']; for different lists [Differ.compare] reports at least one
    added or deleted word, which gives ['modified']. *)
Definition compare_word_level (text_a text_b : str) : diff_type :=
  if bool_decide (tokenize_words text_a = tokenize_words text_b) then same
  else modified.

(** The dict that [compare_blocks] returns. An entry of ['modified']
    is kept as its pair [(index_a, index_b)], an entry of ['deleted'] or
    ['added'] as its index, a highlight as its [bbox] and [color]; the
    [detail] strings, which come from [Differ], are left out. *)
Record results : Type := Results {
  res_modified : list (nat * nat);
  res_deleted : list nat;
  res_added : list nat;
  sync_map : gmap nat nat;
  diff_highlights_a : gmap nat (list (Z * Z * Z * Z * color));
  diff_highlights_b : gmap nat (list (Z * Z * Z * Z * color))
}.

(** [highlights[page].append(h)], the list created when missing. *)
Definition add_highlight {A} (pg : nat) (h : A) (m : gmap nat (list A)) : gmap nat (list A) :=
  <[pg := default [] (m !! pg) ++ [h]]> m.

Section Matching.
(** [SequenceMatcher(None, a, b).ratio()]. *)
Variable ratio : str -> str -> Q.

Definition type_bonus (target_block source : block) : Q :=
  if bool_decide (section_type target_block = section_type source) then 1 # 10 else 0.

Definition score (target_block source : block) : Q :=
  ratio (normalize_text (text target_block)) (normalize_text (text source))
  + type_bonus target_block source.

(** One turn of the loop of [find_best_match] over
    [enumerate(source_blocks)]; [best_index] is [None] for [-1]. *)
Definition best_step (target_block : block) (best : Q * option nat) (ib : nat * block)
  : Q * option nat :=
  let '(i, b) := ib in
  if bool_decide (normalize_text (text b) = []) then best
  else if Qltb (fst best) (score target_block b) then (score target_block b, Some i)
  else best.

Definition find_best_match (target_block : block) (source_blocks : list block)
  : option (nat * Q) :=
  if bool_decide (normalize_text (text target_block) = []) then None
  else
    let '(best_score, best_index) :=
      fold_left (best_step target_block) (enumerate source_blocks) (-1 # 1, None) in
    if Qle_bool SIMILARITY_THRESHOLD best_score then
      match best_index with
      | Some j => Some (j, best_score)
      | None => None
      end
    else None.

(** One turn of the first loop of [compare_blocks]. *)
Definition match_step (blocks_b : list block) (acc : results * gset nat) (ia : nat * block)
  : results * gset nat :=
  let '(res, matched_b_indices) := acc in
  let '(i, block_a) := ia in
  match find_best_match block_a blocks_b with
  | Some (j, _) =>
    if bool_decide (j ∈ matched_b_indices) then acc
    else
      (* [blocks_b[j]] exists: [j] comes from [enumerate(blocks_b)]. *)
      match blocks_b !! j with
      | Some block_b =>
        let res :=
          Results (res_modified res) (res_deleted res) (res_added res)
                  (<[i := j]> (sync_map res))
                  (diff_highlights_a res) (diff_highlights_b res) in
        let res :=
          match compare_word_level (text block_a) (text block_b) with
          | modified =>
            Results (res_modified res ++ [(i, j)]) (res_deleted res) (res_added res)
                    (sync_map res)
                    (add_highlight (page block_a) (bbox block_a, yellow)
                                   (diff_highlights_a res))
                    (add_highlight (page block_b) (bbox block_b, yellow)
                                   (diff_highlights_b res))
          | same => res
          end in
        (res, {[j]} ∪ matched_b_indices)
      | None => acc
      end
  | None =>
    (Results (res_modified res) (res_deleted res ++ [i]) (res_added res)
             (sync_map res)
             (add_highlight (page block_a) (bbox block_a, red) (diff_highlights_a res))
             (diff_highlights_b res),
     matched_b_indices)
  end.

(** One turn of the second loop of [compare_blocks]. *)
Definition added_step (matched_b_indices : gset nat) (res : results) (jb : nat * block)
  : results :=
  let '(j, block_b) := jb in
  if bool_decide (j ∈ matched_b_indices) then res
  else
    Results (res_modified res) (res_deleted res) (res_added res ++ [j])
            (sync_map res) (diff_highlights_a res)
            (add_highlight (page block_b) (bbox block_b, green) (diff_highlights_b res)).

Definition empty_results : results := Results [] [] [] ∅ ∅ ∅.

Definition compare_blocks (blocks_a blocks_b : list block) : results :=
  let '(res, matched_b_indices) :=
    fold_left (match_step blocks_b) (enumerate blocks_a) (empty_results, ∅) in
  fold_left (added_step matched_b_indices) (enumerate blocks_b) res.

(** ** Loop invariants *)

(** The loop of [find_best_match]: either nothing was taken yet, or
    the best block so far is held with its score. *)
Definition best_of (target_block : block) (source_blocks : list block)
    (best : Q * option nat) : Prop :=
  best = (-1 # 1, None) \/
  exists j b, source_blocks !! j = Some b /\ best = (score target_block b, Some j).

(** The first loop of [compare_blocks] after [k] blocks of A: the sync
    map sends indices below [k] to claimed indices of B, each pair was
    accepted by [find_best_match], and no index of B is the image of
    two indices of A. *)
Record matching_inv (blocks_a blocks_b : list block) (k : nat)
    (acc : results * gset nat) : Prop := MatchingInv {
  inv_claimed : forall i j, sync_map acc.1 !! i = Some j -> j ∈ acc.2;
  inv_below : forall i j, sync_map acc.1 !! i = Some j -> i < k;
  inv_best : forall i j, sync_map acc.1 !! i = Some j ->
    exists block_a sc, blocks_a !! i = Some block_a /\
                       find_best_match block_a blocks_b = Some (j, sc);
  inv_injective : forall i1 i2 j,
    sync_map acc.1 !! i1 = Some j -> sync_map acc.1 !! i2 = Some j -> i1 = i2
}.

(** What became of block [i] of A: it is a key of the sync map, or it
    is among the deleted blocks, or its best match had been claimed by
    an earlier block and it was skipped. *)
Definition accounted (blocks_b : list block) (res : results) (i : nat) (block_a : block)
  : Prop :=
  is_Some (sync_map res !! i) \/ i ∈ res_deleted res \/
  exists j sc i', find_best_match block_a blocks_b = Some (j, sc) /\
                  i' < i /\ sync_map res !! i' = Some j.

Record accounting_inv (blocks_a blocks_b : list block) (k : nat)
    (acc : results * gset nat) : Prop := AccountingInv {
  acc_below : forall i j, sync_map acc.1 !! i = Some j -> i < k;
  acc_claimed : forall j, j ∈ acc.2 -> exists i', i' < k /\ sync_map acc.1 !! i' = Some j;
  acc_done : forall i block_a,
    i < k -> blocks_a !! i = Some block_a -> accounted blocks_b acc.1 i block_a
}.

(** The loop of [find_best_match] for the [n]-th block [t] of a list
    matched against the list itself, after [k] blocks: before [t] every
    score stayed below the full score, from [t] on [t] is held. *)
Definition self_inv (n : nat) (t : block) (k : nat) (best : Q * option nat) : Prop :=
  if decide (k <= n) then (best.1 < 11 # 10)%Q
  else best = (score t t, Some n).

End Matching.

(** ** The result of comparing a document with itself *)

(** The identity on the indices below [n], and the set of these indices. *)
Fixpoint identity_map (n : nat) : gmap nat nat :=
  match n with
  | O => ∅
  | S k => <[k := k]> (identity_map k)
  end.

Fixpoint indices_below (n : nat) : gset nat :=
  match n with
  | O => ∅
  | S k => {[k]} ∪ indices_below k
  end.

Definition identity_results (n : nat) : results := Results [] [] [] (identity_map n) ∅ ∅.

(** ** Sample blocks *)

Definition standalone (txt : string) (box : Z * Z * Z * Z) : block :=
  Block (utf8 txt) 0 box (Some (utf8 "standalone")).

(** A line made of a reference mark only. *)
Definition mark_block : block := standalone "※" (72, 100, 84, 112)%Z.

Definition premium_block : block := standalone "보험료" (72, 120, 120, 132)%Z.

(** The same text once more, lower on the page. *)
Definition premium_block_again : block := standalone "보험료" (72, 140, 120, 152)%Z.

Definition amount_block : block := standalone "보험금액" (72, 160, 130, 172)%Z.

End TextComparator.

(** * [PDdiff.py]: the classifier and the block matcher *)

Module PDdiff.
Import PyStr Re.

Definition digit : regex := Class is_decimal.
Definition space : regex := Class isspace.
Definition hangul : regex := Class is_hangul_syllable.
Definition upper : regex := Class is_ascii_upper.
Definition lit (s : string) : regex := Lit (utf8 s).

(** [(,\d{3})*]. *)
Definition thousands : regex := Star (Seq (lit ",") (Times 3 digit)).

Definition placeholder_patterns : list regex :=
  [ lit "○○○"; lit "xxx"; lit "x.xx%"; lit "××세"; lit "××××"; lit "O / O";
    lit "OOOOOOOOOOOO";
    Cat [lit "["; Star space; lit "보장성보험"; Star space; lit "]"];
    Cat [lit "["; Star space; lit "표준형"; Star space; lit "]"];
    Cat [lit "["; Star space; lit "해약환급금"; Star space; lit "50%"; Star space;
         lit "지급형"; Star space; lit "]"];
    Cat [Times 4 digit; lit "년"; Star space; Times 2 digit; lit "월"; Star space;
         Times 2 digit; lit "일"; Star space; Times 2 digit; lit ":"; Times 2 digit];
    Cat [Times 3 digit; lit "-"; Times 4 digit; lit "-"; Times 4 digit];
    Cat [Rep 1 2 digit; lit "/"; Rep 1 2 digit];
    Cat [Rep 1 2 digit; lit "세"];
    Rep 2 4 hangul;
    Cat [Rep 1 3 digit; thousands; lit "원"];
    Cat [Rep 1 2 digit; lit "."; Times 2 digit; lit "%"];
    Cat [Rep 1 3 digit; thousands; Star space; lit "만원"];
    Cat [Rep 1 3 digit; thousands; Star space; lit "원"];
    Cat [Rep 1 2 digit; lit "."; Times 2 digit];
    Rep 1 4 digit;
    Rep 4 6 upper ].

(** The flag [is_b_placeholder] of the source is computed and never
    read (the test that used it is commented out); it is left out. *)
Definition is_placeholder_diff (text_a text_b : str) : bool :=
  let is_a_placeholder := existsb (fun pattern => search pattern text_a) placeholder_patterns in
  if is_a_placeholder && negb (bool_decide (strip text_a = strip text_b)) then true
  else false.

(** A block of [extract_text_blocks]. The coordinates of [bbox] are
    carried along and compared for equality only; integers stand for
    them. *)
Record block : Type := Block {
  page : nat;
  bbox : Z * Z * Z * Z;
  text : str;
  normalized_text : str
}.

#[export] Instance block_eq_dec : EqDecision block.
Proof. solve_decision. Defined.

Inductive diff_type : Type := same | placeholder | modified.

Definition compare_text_blocks (block_a block_b : block) : diff_type :=
  if bool_decide (text block_a = text block_b) then same
  else if is_placeholder_diff (text block_a) (text block_b) then placeholder
  else modified.

(** ** [normalize_text] *)

Definition is_roman (c : char) : bool :=
  bool_decide (c ∈ utf8 "IVXivx").

(** A finished run of word characters: dropped when it is a Roman
    numeral ([\b[IVX]+\b], ignoring case). *)
Definition flush_word (run : str) : str :=
  if negb (bool_decide (run = [])) && forallb is_roman run then [] else run.

Fixpoint drop_roman (run : str) (text : str) : str :=
  match text with
  | [] => flush_word run
  | c :: text' =>
    if is_word_char c then drop_roman (run ++ [c]) text'
    else flush_word run ++ c :: drop_roman [] text'
  end.

Definition normalize_text (text : str) : str :=
  let text := Normalizer.strip_punctuation text in
  let text := drop_roman [] text in
  let text := filter (fun c => isspace c = false) text in
  lower text.

(** A block as [extract_text_blocks] builds it. *)
Definition mk_block (pg : nat) (box : Z * Z * Z * Z) (txt : str) : block :=
  Block pg box (strip txt) (normalize_text (strip txt)).

Inductive color : Type := yellow | red | green.

Section Matching.
(** [SequenceMatcher(None, a, b).ratio()]. *)
Variable ratio : str -> str -> Q.

Definition best_step (target_block : block) (best : Q * option block) (b : block)
  : Q * option block :=
  let sc := ratio (normalized_text target_block) (normalized_text b) in
  if Qltb (fst best) sc then (sc, Some b) else best.

Definition find_best_match (target_block : block) (source_blocks : list block)
  : option block :=
  let '(best_score, best_match) :=
    fold_left (best_step target_block) source_blocks (-1 # 1, None) in
  if Qle_bool (8 # 10) best_score then best_match else None.

(** [flat_blocks_b.index(best_match_b)]: the first equal block. *)
Definition index_of (b : block) (bs : list block) : option nat :=
  fst <$> list_find (fun x => x = b) bs.

Definition setdefault_append {A} (pg : nat) (h : A) (m : gmap nat (list A))
  : gmap nat (list A) :=
  <[pg := default [] (m !! pg) ++ [h]]> m.

Definition highlights : Type := gmap nat (list (Z * Z * Z * Z * color)).

Record st : Type := St {
  diff_data_a : highlights;
  diff_data_b : highlights;
  sync_map : gmap nat nat;
  matched_b_indices : gset nat
}.

(** One turn of the first loop of [perform_comparison]. *)
Definition match_step (flat_blocks_b : list block) (s : st) (ia : nat * block) : st :=
  let '(i, block_a) := ia in
  match find_best_match block_a flat_blocks_b with
  | Some best_match_b =>
    match index_of best_match_b flat_blocks_b with
    | Some j =>
      let s := St (diff_data_a s) (diff_data_b s) (<[i := j]> (sync_map s))
                  ({[j]} ∪ matched_b_indices s) in
      match compare_text_blocks block_a best_match_b with
      | modified =>
        St (setdefault_append (page block_a) (bbox block_a, yellow) (diff_data_a s))
           (setdefault_append (page best_match_b) (bbox best_match_b, yellow) (diff_data_b s))
           (sync_map s) (matched_b_indices s)
      | _ => s
      end
    | None => s
    end
  | None =>
    St (setdefault_append (page block_a) (bbox block_a, red) (diff_data_a s))
       (diff_data_b s) (sync_map s) (matched_b_indices s)
  end.

(** One turn of the second loop. *)
Definition added_step (s : st) (jb : nat * block) : st :=
  let '(j, block_b) := jb in
  if bool_decide (j ∈ matched_b_indices s) then s
  else St (diff_data_a s)
          (setdefault_append (page block_b) (bbox block_b, green) (diff_data_b s))
          (sync_map s) (matched_b_indices s).

(** [perform_comparison(blocks_a, blocks_b)]; the blocks come page by
    page. The result is [(diff_data_a, diff_data_b, flat_blocks_a,
    flat_blocks_b, sync_map)]. *)
Definition perform_comparison (blocks_a blocks_b : list (list block))
  : highlights * highlights * list block * list block * gmap nat nat :=
  let flat_blocks_a := concat blocks_a in
  let flat_blocks_b := concat blocks_b in
  let s := fold_left (match_step flat_blocks_b) (enumerate flat_blocks_a) (St ∅ ∅ ∅ ∅) in
  let s := fold_left added_step (enumerate flat_blocks_b) s in
  (diff_data_a s, diff_data_b s, flat_blocks_a, flat_blocks_b, sync_map s).

End Matching.

(** ** Sample blocks *)

Definition template_block : block :=
  mk_block 0 (72, 100, 300, 112)%Z (utf8 "보험기간: ××세").

Definition filled_block : block :=
  mk_block 0 (72, 100, 300, 112)%Z (utf8 "보험기간: 30세").

Definition name_block : block := mk_block 0 (72, 120, 300, 132)%Z (utf8 "홍길동").

Definition other_name_block : block := mk_block 0 (72, 120, 300, 132)%Z (utf8 "김철수").

Definition premium_block : block := mk_block 0 (72, 140, 120, 152)%Z (utf8 "보험료").

(** The same text once more, lower on the page. *)
Definition premium_block_again : block := mk_block 0 (72, 160, 120, 172)%Z (utf8 "보험료").

End PDdiff.

(** * The compared region: [highlight_compare_region] of [compare_texts] *)

Module Region.

(** The fields of a word entry that the region reads. The coordinates
    are only compared with each other; rationals stand for them. *)
Record word : Type := Word { page : nat; bbox : Q * Q * Q * Q }.

(** [min(a, b)] and [max(a, b)]: on a tie the first argument. *)
Definition min2 (a b : Q) : Q := if Qltb b a then b else a.
Definition max2 (a b : Q) : Q := if Qltb a b then b else a.

(** One turn of the loop over [word_info]. *)
Definition region_step (page_bbox_map : gmap nat (Q * Q * Q * Q)) (w : word)
  : gmap nat (Q * Q * Q * Q) :=
  let '(x0, y0, x1, y1) := bbox w in
  match page_bbox_map !! page w with
  | None => <[page w := (x0, y0, x1, y1)]> page_bbox_map
  | Some (bx0, by0, bx1, by1) =>
    <[page w := (min2 bx0 x0, min2 by0 y0, max2 bx1 x1, max2 by1 y1)]> page_bbox_map
  end.

(** [page_bbox_map] at the end of the loop: the boxes that are
    highlighted, page by page. *)
Definition compare_region (word_info : list word) : gmap nat (Q * Q * Q * Q) :=
  fold_left region_step word_info ∅.

(** [inner] lies inside [outer]. *)
Definition inside (inner outer : Q * Q * Q * Q) : Prop :=
  let '(x0, y0, x1, y1) := inner in
  let '(bx0, by0, bx1, by1) := outer in
  (bx0 <= x0)%Q /\ (by0 <= y0)%Q /\ (x1 <= bx1)%Q /\ (y1 <= by1)%Q.

End Region.

(** * [insurance_compare/insurance_compare_gui.py]: the list of differences *)

Module Gui.
Import PyStr TextComparator.

(** [get_diff_count(results)] of [text_comparator.py]: the fields
    ['modified'], ['deleted'], ['added'] and ['total']. *)
Record diff_count : Type := DiffCount {
  count_modified : nat;
  count_deleted : nat;
  count_added : nat;
  count_total : nat
}.

Definition get_diff_count (res : results) : diff_count :=
  DiffCount (length (res_modified res)) (length (res_deleted res)) (length (res_added res))
            (length (res_modified res) + length (res_deleted res) + length (res_added res)).

(** An entry of [diff_indices]: [('modified', index_a, index_b)],
    [('deleted', index_a, None)] or [('added', None, index_b)]. *)
Inductive entry : Type :=
| Modified (index_a index_b : nat)
| Deleted (index_a : nat)
| Added (index_b : nat).

(** The list that [comparison_finished] builds. *)
Definition diff_indices (res : results) : list entry :=
  map (fun ij => Modified ij.1 ij.2) (res_modified res)
  ++ map Deleted (res_deleted res)
  ++ map Added (res_added res).

(** [l[i]] for an integer [i]: a negative index counts from the end,
    [None] stands for [IndexError]. *)
Definition index {A} (l : list A) (i : Z) : option A :=
  if (i <? 0)%Z then
    if (i + Z.of_nat (length l) <? 0)%Z then None
    else l !! Z.to_nat (i + Z.of_nat (length l))
  else l !! Z.to_nat i.

(** The block [navigate_diff] scrolls to: [self.blocks_a[index_a]] for
    a modified or deleted block, [self.blocks_b[index_b]] for an added
    one. *)
Definition target_block (blocks_a blocks_b : list block) (e : entry) : option block :=
  match e with
  | Modified index_a _ => blocks_a !! index_a
  | Deleted index_a => blocks_a !! index_a
  | Added index_b => blocks_b !! index_b
  end.

(** [navigate_diff(direction)] on the state [current_diff_index]: the
    new index and the entry it selects. With an empty list nothing is
    done and the index stays. [%] is Python's: the result has the sign
    of the divisor. *)
Definition navigate_diff (diff_indices : list entry) (current_diff_index direction : Z)
  : Z * option entry :=
  match diff_indices with
  | [] => (current_diff_index, None)
  | _ =>
    let current_diff_index :=
      ((current_diff_index + direction) mod Z.of_nat (length diff_indices))%Z in
    (current_diff_index, index diff_indices current_diff_index)
  end.

(** [{v: k for k, v in sync_map.items()}] of [sync_scroll], for the
    items in the order the dict gives them. *)
Definition inverted (items : list (nat * nat)) : gmap nat nat :=
  fold_left (fun m kv => <[kv.2 := kv.1]> m) items ∅.

End Gui.

(** * Properties *)

(** * Loops over [enumerate] *)

Lemma fold_enumerate_from_ind {A S : Type} (f : S -> nat * A -> S) (P : nat -> S -> Prop)
    (l : list A) :
  (forall k x acc, l !! k = Some x -> P k acc -> P (Datatypes.S k) (f acc (k, x))) ->
  forall rest n acc,
    n <= length l -> drop n l = rest -> P n acc ->
    P (length l) (fold_left f (enumerate_from n rest) acc).
Proof.
  intros Hstep rest. induction rest as [|x rest IH]; intros n acc Hn Hdrop Hacc; simpl.
  - apply (f_equal length) in Hdrop. rewrite length_drop in Hdrop. simpl in Hdrop.
    replace (length l) with n by lia. exact Hacc.
  - assert (Hx : l !! n = Some x).
    { rewrite <- (Nat.add_0_r n), <- lookup_drop, Hdrop. reflexivity. }
    apply IH.
    + apply lookup_lt_Some in Hx. lia.
    + replace (Datatypes.S n) with (n + 1) by lia.
      rewrite <- drop_drop, Hdrop. reflexivity.
    + apply Hstep; assumption.
Qed.

(** A loop over [enumerate(l)] keeps an invariant indexed by the number
    of items done. *)
Lemma fold_enumerate_ind {A S : Type} (f : S -> nat * A -> S) (P : nat -> S -> Prop)
    (l : list A) (acc : S) :
  P 0 acc ->
  (forall k x acc, l !! k = Some x -> P k acc -> P (Datatypes.S k) (f acc (k, x))) ->
  P (length l) (fold_left f (enumerate l) acc).
Proof.
  intros H0 Hstep. unfold enumerate.
  apply (fold_enumerate_from_ind f P l Hstep); [lia|reflexivity|exact H0].
Qed.

Lemma Qltb_lt x y : Qltb x y = true <-> (x < y)%Q.
Proof.
  unfold Qltb. rewrite negb_true_iff. split.
  - intros H. apply Qnot_le_lt. intros Hle. apply Qle_bool_iff in Hle. congruence.
  - intros H. apply not_true_is_false. intros Hle. apply Qle_bool_iff in Hle.
    apply (Qlt_not_le _ _ H). exact Hle.
Qed.

Lemma Qltb_ge x y : Qltb x y = false <-> (y <= x)%Q.
Proof.
  unfold Qltb. rewrite negb_false_iff. apply Qle_bool_iff.
Qed.

Module PyStrFacts.
Import PyStr.

(** ** Characters below 256, checked one by one *)

Lemma latin1_all (P : char -> bool) :
  forallb P latin1 = true -> forall c, (c < 256)%N -> P c = true.
Proof.
  intros H c Hc. rewrite forallb_forall in H. apply H.
  unfold latin1. apply in_map_iff. exists (N.to_nat c).
  split; [apply N2Nat.id|]. apply in_seq. lia.
Qed.

Lemma changes_case_small c : changes_case c = true -> (c < 256)%N.
Proof.
  unfold changes_case, is_ascii_upper, in_range.
  rewrite !orb_true_iff, !andb_true_iff, !N.leb_le. lia.
Qed.

Lemma lower_char_unchanged c : changes_case c = false -> lower_char c = c.
Proof. unfold lower_char. intros ->. reflexivity. Qed.

(** A property of [lower_char] that holds below 256 holds everywhere
    when it holds for the characters [lower_char] leaves alone. *)
Lemma lower_char_cases (P : char -> bool) :
  forallb P latin1 = true ->
  (forall c, changes_case c = false -> lower_char c = c -> P c = true) ->
  forall c, P c = true.
Proof.
  intros Hsmall Hrest c. destruct (changes_case c) eqn:Hc.
  - apply latin1_all; [exact Hsmall|]. apply changes_case_small. exact Hc.
  - apply Hrest; [exact Hc|]. apply lower_char_unchanged. exact Hc.
Qed.

Lemma lower_char_idem c : lower_char (lower_char c) = lower_char c.
Proof.
  apply N.eqb_eq.
  apply (lower_char_cases (fun c => (lower_char (lower_char c) =? lower_char c)%N)).
  - vm_compute. reflexivity.
  - intros c' _ E. rewrite !E. apply N.eqb_refl.
Qed.



Lemma lower_idem s : lower (lower s) = lower s.
Proof.
  unfold lower. rewrite map_map. apply map_ext. intros c. apply lower_char_idem.
Qed.


(** ** [strip] *)

Lemma Forall_lstrip (P : char -> Prop) s : Forall P s -> Forall P (lstrip s).
Proof.
  induction 1 as [|c s Hc Hs IH]; simpl; [constructor|].
  destruct (isspace c); [exact IH|]. constructor; assumption.
Qed.

Lemma Forall_rstrip (P : char -> Prop) s : Forall P s -> Forall P (rstrip s).
Proof.
  induction 1 as [|c s Hc Hs IH]; simpl; [constructor|].
  destruct (rstrip s).
  - destruct (isspace c); repeat constructor. exact Hc.
  - constructor; assumption.
Qed.

Lemma Forall_strip (P : char -> Prop) s : Forall P s -> Forall P (strip s).
Proof. intros H. apply Forall_rstrip, Forall_lstrip, H. Qed.

Lemma lstrip_head s :
  lstrip s = [] \/ exists c r, lstrip s = c :: r /\ isspace c = false.
Proof.
  induction s as [|c s IH]; simpl; [left; reflexivity|].
  destruct (isspace c) eqn:Hc; [exact IH|]. right. eauto.
Qed.

Lemma rstrip_head c r : isspace c = false -> exists r', rstrip (c :: r) = c :: r'.
Proof. intros Hc. simpl. destruct (rstrip r); rewrite ?Hc; eauto. Qed.

Lemma rstrip_idem s : rstrip (rstrip s) = rstrip s.
Proof.
  induction s as [|c s IH]; simpl; [reflexivity|].
  destruct (rstrip s) as [|n l] eqn:E.
  - destruct (isspace c) eqn:Hc; simpl; rewrite ?Hc; reflexivity.
  - change (rstrip (c :: n :: l)) with
      (match rstrip (n :: l) with [] => if isspace c then [] else [c] | r => c :: r end).
    rewrite IH. reflexivity.
Qed.

Lemma strip_idem s : strip (strip s) = strip s.
Proof.
  unfold strip. destruct (lstrip_head s) as [E|(c & r & E & Hc)]; rewrite E.
  - reflexivity.
  - destruct (rstrip_head c r Hc) as (r' & E'). rewrite E'.
    simpl lstrip. rewrite Hc. rewrite <- E'. apply rstrip_idem.
Qed.

End PyStrFacts.

Module ReFacts.
Import PyStr Re.

Lemma nullable_lang r : nullable r = true <-> lang r [].
Proof.
  split.
  - induction r; simpl; intros H; try discriminate.
    + constructor.
    + apply andb_true_iff in H. destruct H as [H1 H2].
      change (@nil char) with (@nil char ++ @nil char). constructor; auto.
    + apply orb_true_iff in H. destruct H as [H|H]; [apply lang_alt_l|apply lang_alt_r]; auto.
    + constructor.
  - induction r; simpl; intros H; inversion H; subst; try reflexivity.
    + match goal with E : _ ++ _ = [] |- _ => apply app_eq_nil in E; destruct E; subst end.
      apply andb_true_iff. split; auto.
    + apply orb_true_iff. left. auto.
    + apply orb_true_iff. right. auto.
Qed.

(** A non-empty word of [Star r] starts with a non-empty word of [r]. *)
Lemma star_cons_inv r c s :
  lang (Star r) (c :: s) ->
  exists s1 s2, s = s1 ++ s2 /\ lang r (c :: s1) /\ lang (Star r) s2.
Proof.
  intros H. remember (Star r) as r' eqn:Hr. remember (c :: s) as w eqn:Hw.
  revert s Hw. induction H; try discriminate; intros s Hw.
  injection Hr as ->. destruct s1 as [|c' s1].
  - simpl in Hw. apply IHlang2; [reflexivity|exact Hw].
  - simpl in Hw. injection Hw as -> <-. exists s1, s2. auto.
Qed.

Lemma deriv_sound c r s : lang (deriv c r) s -> lang r (c :: s).
Proof.
  revert s. induction r as [| |p|r1 IH1 r2 IH2|r1 IH1 r2 IH2|r IH]; simpl; intros s H.
  - inversion H.
  - inversion H.
  - destruct (p c) eqn:Hp; inversion H; subst. constructor. exact Hp.
  - assert (Hleft : forall s, lang (Seq (deriv c r1) r2) s -> lang (Seq r1 r2) (c :: s)).
    { intros s' H'. inversion H'; subst.
      change (c :: s1 ++ s2) with ((c :: s1) ++ s2). constructor; auto. }
    destruct (nullable r1) eqn:Hn; [|auto].
    inversion H; subst; [auto|].
    change (c :: s) with ([] ++ c :: s). constructor; [|auto].
    apply nullable_lang. exact Hn.
  - inversion H; subst; [apply lang_alt_l|apply lang_alt_r]; auto.
  - inversion H; subst.
    change (c :: s1 ++ s2) with ((c :: s1) ++ s2). constructor; auto.
Qed.

Lemma deriv_complete c r s : lang r (c :: s) -> lang (deriv c r) s.
Proof.
  revert s. induction r as [| |p|r1 IH1 r2 IH2|r1 IH1 r2 IH2|r IH]; simpl; intros s H.
  - inversion H.
  - inversion H.
  - inversion H; subst. match goal with E : p c = true |- _ => rewrite E end. constructor.
  - inversion H as [| |? ? s1 s2 H1 H2 E1 E2| | | |]; subst.
    destruct s1 as [|c' s1]; simpl in E2.
    + subst s2. apply nullable_lang in H1. rewrite H1. apply lang_alt_r. auto.
    + injection E2 as -> <-.
      destruct (nullable r1); [apply lang_alt_l|]; constructor; auto.
  - inversion H; subst; [apply lang_alt_l|apply lang_alt_r]; auto.
  - apply star_cons_inv in H. destruct H as (s1 & s2 & -> & H1 & H2).
    constructor; auto.
Qed.

Lemma fullmatch_lang r s : fullmatch r s = true <-> lang r s.
Proof.
  revert r. induction s as [|c s IH]; intros r; simpl.
  - apply nullable_lang.
  - rewrite IH. split; [apply deriv_sound|apply deriv_complete].
Qed.

Lemma match_prefix_lang r s :
  match_prefix r s = true <-> exists m post, s = m ++ post /\ lang r m.
Proof.
  revert r. induction s as [|c s IH]; intros r; simpl.
  - rewrite orb_false_r, nullable_lang. split.
    + intros H. exists [], []. auto.
    + intros (m & post & E & H). symmetry in E. apply app_eq_nil in E.
      destruct E; subst. exact H.
  - rewrite orb_true_iff, nullable_lang, IH. split.
    + intros [H|(m & post & -> & H)].
      * exists [], (c :: s). auto.
      * exists (c :: m), post. split; [reflexivity|]. apply deriv_sound. exact H.
    + intros (m & post & E & H). destruct m as [|c' m]; [left; exact H|].
      simpl in E. injection E as <- ->. right.
      exists m, post. split; [reflexivity|]. apply deriv_complete. exact H.
Qed.

(** [search] answers whether some substring is in the language. *)
Lemma search_lang r s :
  search r s = true <-> exists pre m post, s = pre ++ m ++ post /\ lang r m.
Proof.
  induction s as [|c s IH]; cbn [search].
  - rewrite orb_false_r, match_prefix_lang. split.
    + intros (m & post & E & H). exists [], m, post. auto.
    + intros (pre & m & post & E & H). destruct pre; [|discriminate].
      exists m, post. auto.
  - rewrite orb_true_iff, match_prefix_lang, IH. split.
    + intros [(m & post & E & H)|(pre & m & post & -> & H)].
      * exists [], m, post. auto.
      * exists (c :: pre), m, post. auto.
    + intros (pre & m & post & E & H). destruct pre as [|c' pre].
      * left. exists m, post. auto.
      * simpl in E. injection E as <- ->. right. exists pre, m, post. auto.
Qed.

End ReFacts.

Module DifflibFacts.
Import PyStr Difflib.

(** ** The longest common block *)

Lemma common_prefix_le_l a b : common_prefix a b <= length a.
Proof.
  revert b. induction a as [|x a IH]; intros [|y b]; simpl; try lia.
  destruct (x =? y)%N; [|lia]. specialize (IH b). lia.
Qed.

Lemma common_prefix_le_r a b : common_prefix a b <= length b.
Proof.
  revert b. induction a as [|x a IH]; intros [|y b]; simpl; try lia.
  destruct (x =? y)%N; [|lia]. specialize (IH b). lia.
Qed.

Lemma common_prefix_take a b :
  take (common_prefix a b) a = take (common_prefix a b) b.
Proof.
  revert b. induction a as [|x a IH]; intros [|y b]; simpl; try reflexivity.
  destruct (N.eqb_spec x y) as [->|]; [|reflexivity]. simpl. f_equal. apply IH.
Qed.

Lemma common_prefix_same a : common_prefix a a = length a.
Proof.
  induction a as [|x a IH]; simpl; [reflexivity|].
  rewrite N.eqb_refl, IH. reflexivity.
Qed.

Lemma candidates_blocks a b c : c ∈ candidates a b -> block_of a b c.
Proof.
  unfold candidates. intros Hc. apply list_elem_of_In, in_flat_map in Hc.
  destruct Hc as (i & Hi & Hc). apply in_map_iff in Hc. destruct Hc as (j & <- & Hj).
  apply in_seq in Hi. apply in_seq in Hj. unfold block_of.
  pose proof (common_prefix_le_l (drop i a) (drop j b)) as Hl.
  pose proof (common_prefix_le_r (drop i a) (drop j b)) as Hr.
  rewrite length_drop in Hl, Hr. repeat split; try lia.
  apply common_prefix_take.
Qed.

Lemma fold_longer_block a b l best :
  block_of a b best -> (forall c, c ∈ l -> block_of a b c) ->
  block_of a b (fold_left longer l best).
Proof.
  revert best. induction l as [|c l IH]; intros best Hb Hl; simpl; [exact Hb|].
  apply IH.
  - unfold longer. destruct (_ <? _); [apply Hl; left|exact Hb].
  - intros c' Hc'. apply Hl. by right.
Qed.

Lemma find_longest_match_block a b : block_of a b (find_longest_match a b).
Proof.
  unfold find_longest_match. apply fold_longer_block.
  - simpl. repeat split; try lia. 
  - apply candidates_blocks.
Qed.

Lemma fold_longer_stays l best :
  (forall c, c ∈ l -> c.2 <= best.2) -> fold_left longer l best = best.
Proof.
  induction l as [|c l IH]; intros Hl; simpl; [reflexivity|].
  assert (Hc : longer best c = best).
  { unfold longer. specialize (Hl c ltac:(left)).
    destruct (Nat.ltb_spec best.2 c.2); [lia|reflexivity]. }
  rewrite Hc. apply IH. intros c' Hc'. apply Hl. by right.
Qed.

Lemma find_longest_match_same x a :
  find_longest_match (x :: a) (x :: a) = (0, 0, length (x :: a)).
Proof.
  unfold find_longest_match.
  assert (Hcands : exists rest,
    candidates (x :: a) (x :: a) = (0, 0, length (x :: a)) :: rest /\
    forall c, c ∈ rest -> c.2 <= length (x :: a)).
  { unfold candidates. cbn [length seq flat_map map].
    eexists. split.
    - rewrite drop_0. rewrite common_prefix_same. reflexivity.
    - intros c Hc.
      assert (Hin : c ∈ candidates (x :: a) (x :: a)).
      { unfold candidates. cbn [length seq flat_map map]. by right. }
      apply candidates_blocks in Hin. destruct c as [[i j] k].
      unfold block_of in Hin. simpl in *. lia. }
  destruct Hcands as (rest & -> & Hrest). cbn [fold_left].
  unfold longer at 2. cbn [snd]. 
  destruct (Nat.ltb_spec 0 (length (x :: a))); [|simpl in *; lia].
  apply fold_longer_stays. exact Hrest.
Qed.

(** ** The matched characters *)

Lemma matches_nil fuel : matches fuel [] [] = 0.
Proof. destruct fuel; reflexivity. Qed.

Lemma matches_le fuel a b : matches fuel a b <= min (length a) (length b).
Proof.
  revert a b. induction fuel as [|fuel IH]; intros a b; simpl; [lia|].
  pose proof (find_longest_match_block a b) as Hb.
  destruct (find_longest_match a b) as [[i j] k]. unfold block_of in Hb.
  destruct Hb as (Hi & Hj & _). destruct (k =? 0); [lia|].
  pose proof (IH (take i a) (take j b)) as H1.
  pose proof (IH (drop (i + k) a) (drop (j + k) b)) as H2.
  rewrite !length_take in H1. rewrite !length_drop in H2. lia.
Qed.

Lemma matches_same a : matches (length a + length a) a a = length a.
Proof.
  destruct a as [|x a]; [reflexivity|].
  cbn [length Nat.add matches]. rewrite find_longest_match_same.
  cbn [length]. cbn [Nat.eqb]. rewrite take_0, matches_nil.
  replace (drop (0 + S (length a)) (x :: a)) with (@nil char).
  - rewrite matches_nil. lia.
  - symmetry. apply drop_ge. simpl. lia.
Qed.

(** Strings matched in full are equal. *)
Lemma matches_full fuel a b :
  matches fuel a b = length a -> length a = length b -> a = b.
Proof.
  revert a b. induction fuel as [|fuel IH]; intros a b; simpl.
  - intros Ha Hab. destruct a; [|discriminate]. destruct b; [reflexivity|discriminate].
  - pose proof (find_longest_match_block a b) as Hb.
    destruct (find_longest_match a b) as [[i j] k]. unfold block_of in Hb.
    destruct Hb as (Hi & Hj & Hmid). destruct (k =? 0).
    + intros Ha Hab. destruct a; [|discriminate]. destruct b; [reflexivity|discriminate].
    + pose proof (matches_le fuel (take i a) (take j b)) as H1.
      pose proof (matches_le fuel (drop (i + k) a) (drop (j + k) b)) as H2.
      rewrite !length_take in H1. rewrite !length_drop in H2.
      intros Hm Hab.
      assert (i = j) by lia. subst j.
      assert (E1 : take i a = take i b).
      { apply IH; rewrite !length_take; lia. }
      assert (E2 : drop (i + k) a = drop (i + k) b).
      { apply IH; rewrite !length_drop; lia. }
      rewrite <- (take_drop i a), <- (take_drop i b). f_equal; [exact E1|].
      rewrite <- (take_drop k (drop i a)), <- (take_drop k (drop i b)).
      f_equal; [exact Hmid|]. rewrite !drop_drop. exact E2.
Qed.

(** ** The ratio *)

Lemma ratio_unfold a b n :
  length a + length b = S n ->
  ratio a b = (Z.of_nat (2 * matches (length a + length b) a b) # Pos.of_succ_nat n).
Proof. unfold ratio. intros ->. reflexivity. Qed.

Lemma ratio_same s : (ratio s s == 1)%Q.
Proof.
  destruct (length s + length s) as [|n] eqn:E.
  - unfold ratio. rewrite E. reflexivity.
  - rewrite (ratio_unfold s s n E). rewrite matches_same.
    unfold Qeq. simpl Qnum. simpl Qden. rewrite Zpos_P_of_succ_nat. lia.
Qed.

Lemma ratio_le_1 s t : (ratio s t <= 1)%Q.
Proof.
  destruct (length s + length t) as [|n] eqn:E.
  - unfold ratio. rewrite E. apply Qle_refl.
  - rewrite (ratio_unfold s t n E).
    pose proof (matches_le (length s + length t) s t).
    unfold Qle. simpl Qnum. simpl Qden. rewrite Zpos_P_of_succ_nat. lia.
Qed.

Lemma ratio_1_eq s t : (ratio s t == 1)%Q -> s = t.
Proof.
  destruct (length s + length t) as [|n] eqn:E.
  - intros _. destruct s; [|discriminate]. destruct t; [reflexivity|discriminate].
  - rewrite (ratio_unfold s t n E).
    pose proof (matches_le (length s + length t) s t).
    unfold Qeq. simpl Qnum. simpl Qden. rewrite Zpos_P_of_succ_nat. intros Hq.
    apply (matches_full (length s + length t)); lia.
Qed.

End DifflibFacts.

Module AlignerFacts.
Import PyStr Aligner.

(** ** Searching a range *)

Lemma find_seq_Some (p : nat -> bool) n lo k :
  find p (seq lo n) = Some k ->
  lo <= k < lo + n /\ p k = true /\ forall k', lo <= k' < k -> p k' = false.
Proof.
  revert lo. induction n as [|n IH]; intros lo; simpl; [discriminate|].
  destruct (p lo) eqn:Hp.
  - intros [= <-]. repeat split; try lia. exact Hp.
  - intros Hf. destruct (IH _ Hf) as (Hr & Hk & Hfirst).
    repeat split; try lia; [exact Hk|].
    intros k' Hk'. destruct (decide (k' = lo)) as [->|]; [exact Hp|].
    apply Hfirst. lia.
Qed.

Lemma find_seq_None (p : nat -> bool) n lo :
  (forall k, lo <= k < lo + n -> p k = false) -> find p (seq lo n) = None.
Proof.
  revert lo. induction n as [|n IH]; intros lo Hall; simpl; [reflexivity|].
  rewrite Hall by lia. apply IH. intros k ?. apply Hall. lia.
Qed.

Lemma find_seq_hit (p : nat -> bool) n lo k :
  lo <= k < lo + n -> p k = true ->
  exists k', find p (seq lo n) = Some k' /\ k' <= k.
Proof.
  intros Hr Hk. destruct (find p (seq lo n)) as [k'|] eqn:Hf.
  - exists k'. split; [reflexivity|].
    destruct (find_seq_Some _ _ _ _ Hf) as (_ & _ & Hfirst).
    destruct (decide (k' <= k)); [assumption|].
    rewrite Hfirst in Hk by lia. discriminate.
  - apply find_none with (x := k) in Hf; [congruence|].
    apply in_seq. lia.
Qed.

Lemma first_in_range_Some lo hi p k :
  first_in_range lo hi p = Some k ->
  lo <= k < hi /\ p k = true /\ forall k', lo <= k' < k -> p k' = false.
Proof.
  unfold first_in_range. intros Hf.
  destruct (find_seq_Some _ _ _ _ Hf) as (Hr & Hk & Hfirst).
  repeat split; try lia; assumption.
Qed.

Lemma first_in_range_None lo hi p :
  (forall k, lo <= k < hi -> p k = false) -> first_in_range lo hi p = None.
Proof.
  intros Hall. apply find_seq_None. intros k ?. apply Hall. lia.
Qed.

Lemma first_in_range_hit lo hi p k :
  lo <= k < hi -> p k = true ->
  exists k', first_in_range lo hi p = Some k' /\ lo <= k' <= k.
Proof.
  intros Hr Hk.
  destruct (find_seq_hit p (hi - lo) lo k) as (k' & Hf & Hle); [lia|assumption|].
  exists k'. split; [exact Hf|].
  destruct (find_seq_Some _ _ _ _ Hf) as (? & _). lia.
Qed.

Lemma within_weaken i1 i1' j1 j1' i2 i2' j2 j2' d :
  within i1 i1' j1 j1' d -> i2 <= i1 -> i1' <= i2' -> j2 <= j1 -> j1' <= j2' ->
  within i2 i2' j2 j2' d.
Proof.
  intros [Hl Hr] ? ? ? ?. split; intros z Hz.
  - apply Hl in Hz. lia.
  - apply Hr in Hz. lia.
Qed.

Lemma within_deletes i n j j' :
  Forall (within i (i + n) j j') (map Delete (seq i n)).
Proof.
  apply Forall_forall. intros d Hd. apply list_elem_of_In, in_map_iff in Hd.
  destruct Hd as (x & <- & Hx). apply in_seq in Hx.
  split; simpl; intros z [= <-]; lia.
Qed.

Lemma within_inserts i i' j n :
  Forall (within i i' j (j + n)) (map Insert (seq j n)).
Proof.
  apply Forall_forall. intros d Hd. apply list_elem_of_In, in_map_iff in Hd.
  destruct Hd as (x & <- & Hx). apply in_seq in Hx.
  split; simpl; intros z [= <-]; lia.
Qed.

Section Loop.
Variables words_left words_right : list str.
Variable lookahead : nat.

Local Abbreviation step := (step words_left words_right lookahead).
Local Abbreviation run := (run words_left words_right lookahead).
Local Abbreviation running := (running words_left words_right).
Local Abbreviation merge_check := (merge_check words_left words_right).
Local Abbreviation resync_delete := (resync_delete words_left words_right lookahead).
Local Abbreviation resync_insert := (resync_insert words_left words_right lookahead).
Local Abbreviation resync_both := (resync_both words_left words_right lookahead).
Local Abbreviation same_word := (same_word words_left words_right).
Local Abbreviation reached := (reached words_left words_right lookahead).

Lemma merge_check_bounds i j i' j' :
  merge_check i j = Some (i', j') ->
  (j' = j + 1 /\ i + 2 <= i' <= i + 5 /\ i' <= length words_left /\
   words_right !! j = Some (join (slice words_left i (i' - i)))) \/
  (i' = i + 1 /\ j + 2 <= j' <= j + 5 /\ j' <= length words_right /\
   words_left !! i = Some (join (slice words_right j (j' - j)))).
Proof.
  unfold merge_check.
  destruct (word_len words_left i <? word_len words_right j).
  - destruct (first_in_range _ _ _) as [k|] eqn:Hf; [|discriminate].
    intros [= <- <-]. left.
    apply first_in_range_Some in Hf. destruct Hf as (Hr & Hk & _).
    unfold joined_is in Hk. destruct (words_right !! j) as [w|]; [|discriminate].
    apply bool_decide_eq_true in Hk.
    replace (i + (k + 1) - i) with (k + 1) by lia. rewrite Hk.
    repeat split; try lia.
  - destruct (word_len words_right j <? word_len words_left i); [|discriminate].
    destruct (first_in_range _ _ _) as [k|] eqn:Hf; [|discriminate].
    intros [= <- <-]. right.
    apply first_in_range_Some in Hf. destruct Hf as (Hr & Hk & _).
    unfold joined_is in Hk. destruct (words_left !! i) as [w|]; [|discriminate].
    apply bool_decide_eq_true in Hk.
    replace (j + (k + 1) - j) with (k + 1) by lia. rewrite Hk.
    repeat split; try lia.
Qed.

(** The pairs that [resync_both] may return. *)
Lemma fold_left_inv {A B} (P : A -> Prop) (f : A -> B -> A) (l : list B) (a : A) :
  P a -> (forall a b, P a -> b ∈ l -> P (f a b)) -> P (fold_left f l a).
Proof.
  revert a. induction l as [|b l IH]; intros a Ha Hf; simpl; [exact Ha|].
  apply IH.
  - apply Hf; [exact Ha|]. left.
  - intros a' b' Ha' Hb'. apply Hf; [exact Ha'|]. by right.
Qed.

Lemma resync_both_bounds i j k1 k2 :
  resync_both i j = Some (k1, k2) ->
  1 <= k1 < length words_left - i /\ 1 <= k2 < length words_right - j.
Proof.
  unfold resync_both.
  set (P := fun best : option (nat * nat) =>
              forall a b, best = Some (a, b) ->
                1 <= a < length words_left - i /\ 1 <= b < length words_right - j).
  intros H. revert k1 k2 H. change (P (fold_left
    (fun best k1 => fold_left
       (fun best k2 => if same_word (i + k1) (j + k2) then
          match best with
          | Some (b1, b2) => if k1 + k2 <? b1 + b2 then Some (k1, k2) else best
          | None => Some (k1, k2)
          end else best)
       (seq 1 (min (lookahead + 1) (length words_right - j) - 1)) best)
    (seq 1 (min (lookahead + 1) (length words_left - i) - 1)) None)).
  apply fold_left_inv; [intros a b; discriminate|].
  intros best k1 Hbest Hk1. apply fold_left_inv; [exact Hbest|].
  intros best' k2 Hbest' Hk2.
  apply list_elem_of_In, in_seq in Hk1. apply list_elem_of_In, in_seq in Hk2.
  destruct (same_word _ _); [|exact Hbest'].
  destruct best' as [[b1 b2]|].
  - destruct (k1 + k2 <? b1 + b2); [|exact Hbest'].
    intros a b [= <- <-]. lia.
  - intros a b [= <- <-]. lia.
Qed.

(** ** One turn *)

(** A turn moves the pointers forward, inside the lists, and the
    entries it appends refer to the words it passes. *)
Lemma step_spec st :
  running st = true ->
  pos_i st <= length words_left -> pos_j st <= length words_right ->
  exists new,
    differences (step st) = differences st ++ new /\
    pos_i st <= pos_i (step st) <= length words_left /\
    pos_j st <= pos_j (step st) <= length words_right /\
    pos_i st + pos_j st < pos_i (step st) + pos_j (step st) /\
    Forall (within (pos_i st) (pos_i (step st)) (pos_j st) (pos_j (step st))) new.
Proof.
  destruct st as [i j ds]. unfold running, step. simpl. intros Hrun Hi Hj.
  destruct (Nat.ltb_spec i (length words_left)) as [Hil|Hil];
    destruct (Nat.ltb_spec j (length words_right)) as [Hjl|Hjl];
    simpl in *; try discriminate.
  - destruct (same_word i j).
    { exists []. simpl. rewrite app_nil_r. repeat split; try lia. constructor. }
    destruct (merge_check i j) as [[i' j']|] eqn:Hm.
    { exists []. simpl. rewrite app_nil_r.
      apply merge_check_bounds in Hm. repeat split; try lia. constructor. }
    destruct (resync_delete i j) as [k|] eqn:Hd.
    { apply first_in_range_Some in Hd. destruct Hd as (Hr & _).
      exists (map Delete (seq i k)). simpl. repeat split; try lia.
      eapply Forall_impl; [apply (within_deletes i k j j)|].
      intros d Hwd. eapply within_weaken; [exact Hwd|lia..]. }
    destruct (resync_insert i j) as [k|] eqn:Hin.
    { apply first_in_range_Some in Hin. destruct Hin as (Hr & _).
      exists (map Insert (seq j k)). simpl. repeat split; try lia.
      eapply Forall_impl; [apply (within_inserts i i j k)|].
      intros d Hwd. eapply within_weaken; [exact Hwd|lia..]. }
    destruct (resync_both i j) as [[k1 k2]|] eqn:Hb.
    { apply resync_both_bounds in Hb.
      exists (map Delete (seq i k1) ++ map Insert (seq j k2)). simpl.
      unfold emit. rewrite <- app_assoc. repeat split; try lia.
      apply Forall_app. split.
      - eapply Forall_impl; [apply (within_deletes i k1 j j)|].
        intros d Hwd. eapply within_weaken; [exact Hwd|lia..].
      - eapply Forall_impl; [apply (within_inserts i i j k2)|].
        intros d Hwd. eapply within_weaken; [exact Hwd|lia..]. }
    exists [Replace i j]. simpl. repeat split; try lia.
    constructor; [|constructor]. split; simpl; intros z [= <-]; lia.
  - exists [Delete i]. simpl. repeat split; try lia.
    constructor; [|constructor]. split; simpl; intros z; [intros [= <-]; lia|discriminate].
  - exists [Insert j]. simpl. repeat split; try lia.
    constructor; [|constructor]. split; simpl; intros z; [discriminate|intros [= <-]; lia].
Qed.

(** ** The loop *)

Lemma run_stopped fuel st : running st = false -> run fuel st = st.
Proof. destruct fuel; simpl; [reflexivity|]. intros ->. reflexivity. Qed.

Lemma run_add n m st : run (n + m) st = run m (run n st).
Proof.
  revert st. induction n as [|n IH]; intros st; simpl; [reflexivity|].
  destruct (running st) eqn:Hr; [apply IH|].
  symmetry. apply run_stopped. exact Hr.
Qed.

(** The loop ends by its own test when the fuel covers the words left. *)
Lemma run_finishes fuel st :
  pos_i st <= length words_left -> pos_j st <= length words_right ->
  (length words_left - pos_i st) + (length words_right - pos_j st) <= fuel ->
  running (run fuel st) = false.
Proof.
  revert st. induction fuel as [|fuel IH]; intros st Hi Hj Hfuel; simpl.
  - unfold running. apply orb_false_intro; apply Nat.ltb_ge; lia.
  - destruct (running st) eqn:Hr; [|exact Hr].
    destruct (step_spec st Hr Hi Hj) as (new & _ & Hi' & Hj' & Hprog & _).
    apply IH; lia.
Qed.

(** The entries appended from a state on refer to words at or after
    its pointers. *)
Lemma run_diffs fuel st :
  pos_i st <= length words_left -> pos_j st <= length words_right ->
  exists new,
    differences (run fuel st) = differences st ++ new /\
    Forall (within (pos_i st) (length words_left) (pos_j st) (length words_right)) new.
Proof.
  revert st. induction fuel as [|fuel IH]; intros st Hi Hj; simpl.
  - exists []. rewrite app_nil_r. split; [reflexivity|constructor].
  - destruct (running st) eqn:Hr.
    + destruct (step_spec st Hr Hi Hj) as (new1 & Hd1 & Hi' & Hj' & _ & Hw1).
      destruct (IH (step st)) as (new2 & Hd2 & Hw2); [lia..|].
      exists (new1 ++ new2). rewrite Hd2, Hd1, app_assoc. split; [reflexivity|].
      apply Forall_app. split.
      * eapply Forall_impl; [exact Hw1|]. intros d Hd.
        eapply within_weaken; [exact Hd|lia..].
      * eapply Forall_impl; [exact Hw2|]. intros d Hd.
        eapply within_weaken; [exact Hd|lia..].
    + exists []. rewrite app_nil_r. split; [reflexivity|constructor].
Qed.

(** After [n] turns from the start the pointers are inside the lists
    and every entry refers to words already passed. *)
Lemma run_invariant n :
  pos_i (reached n) <= length words_left /\
  pos_j (reached n) <= length words_right /\
  Forall (within 0 (pos_i (reached n)) 0 (pos_j (reached n))) (differences (reached n)).
Proof.
  induction n as [|n IH].
  - cbn. repeat split; try lia. constructor.
  - unfold Aligner.reached in *. replace (S n) with (n + 1) by lia. rewrite run_add.
    destruct IH as (Hi & Hj & Hw). set (st := run n (State 0 0 [])) in *.
    cbn [Aligner.run]. destruct (running st) eqn:Hr; [|repeat split; assumption].
    destruct (step_spec st Hr Hi Hj) as (new & Hd & Hi' & Hj' & _ & Hw').
    repeat split; try lia. rewrite Hd. apply Forall_app. split.
    + eapply Forall_impl; [exact Hw|]. intros d Hd'.
      eapply within_weaken; [exact Hd'|lia..].
    + eapply Forall_impl; [exact Hw'|]. intros d Hd'.
      eapply within_weaken; [exact Hd'|lia..].
Qed.

Lemma same_word_true i j :
  same_word i j = true <->
  exists w, words_left !! i = Some w /\ words_right !! j = Some w.
Proof.
  unfold Aligner.same_word. split.
  - destruct (words_left !! i) as [a|]; [|discriminate].
    destruct (words_right !! j) as [b|]; [|discriminate].
    intros H. apply bool_decide_eq_true in H. subst. eauto.
  - intros (w & -> & ->). apply bool_decide_eq_true. reflexivity.
Qed.

Lemma step_same i j ds :
  same_word i j = true -> step (State i j ds) = State (i + 1) (j + 1) ds.
Proof.
  intros H. pose proof H as (w & Hl & Hr)%same_word_true.
  apply lookup_lt_Some in Hl. apply lookup_lt_Some in Hr.
  unfold Aligner.step. simpl.
  destruct (Nat.ltb_spec i (length words_left)); [|lia].
  destruct (Nat.ltb_spec j (length words_right)); [|lia].
  simpl. rewrite H. reflexivity.
Qed.

Lemma running_left i j ds : i < length words_left -> running (State i j ds) = true.
Proof.
  intros H. unfold Aligner.running. simpl.
  destruct (Nat.ltb_spec i (length words_left)); [reflexivity|lia].
Qed.

Lemma running_right i j ds : j < length words_right -> running (State i j ds) = true.
Proof.
  intros H. unfold Aligner.running. simpl.
  destruct (Nat.ltb_spec j (length words_right)); [apply orb_true_r|lia].
Qed.

(** A stretch of equal words is passed without an entry. *)
Lemma run_same n i j ds :
  (forall k, k < n -> same_word (i + k) (j + k) = true) ->
  run n (State i j ds) = State (i + n) (j + n) ds.
Proof.
  revert i j. induction n as [|n IH]; intros i j Hsame; simpl.
  - f_equal; lia.
  - assert (H0 : same_word i j = true).
    { specialize (Hsame 0). rewrite !Nat.add_0_r in Hsame. apply Hsame. lia. }
    pose proof H0 as (w & Hl & _)%same_word_true. apply lookup_lt_Some in Hl.
    rewrite running_left by exact Hl. rewrite step_same by exact H0.
    rewrite IH.
    + f_equal; lia.
    + intros k Hk. specialize (Hsame (S k)).
      replace (i + 1 + k) with (i + S k) by lia.
      replace (j + 1 + k) with (j + S k) by lia. apply Hsame. lia.
Qed.

(** When the word at one pointer is several words of the other side
    written together, the merge check finds the group. *)
Lemma slice_cons (ws : list str) i n w :
  ws !! i = Some w -> slice ws i (S n) = w :: slice ws (S i) n.
Proof.
  intros H. unfold slice. rewrite (drop_S _ _ _ H). reflexivity.
Qed.

Lemma joined_longer (ws : list str) i k w b :
  ws !! i = Some w -> w <> b -> join (slice ws i (k + 1)) = b -> length w < length b.
Proof.
  intros Hw Hne Hb. rewrite Nat.add_1_r, (slice_cons _ _ _ _ Hw) in Hb.
  unfold join in Hb. simpl in Hb. subst b. rewrite length_app.
  destruct (concat (slice ws (S i) k)) as [|c r] eqn:Hc.
  - rewrite app_nil_r in Hne. congruence.
  - simpl. lia.
Qed.

Lemma word_len_lookup (ws : list str) i w : ws !! i = Some w -> word_len ws i = length w.
Proof. unfold word_len. intros ->. reflexivity. Qed.

Lemma merge_check_left i j a b k :
  words_left !! i = Some a -> words_right !! j = Some b -> a <> b ->
  1 <= k < min 5 (length words_left - i) -> join (slice words_left i (k + 1)) = b ->
  exists k', 1 <= k' <= k /\ join (slice words_left i (k' + 1)) = b /\
             merge_check i j = Some (i + (k' + 1), j + 1).
Proof.
  intros Ha Hb Hne Hk Hjoin.
  pose proof (joined_longer _ _ _ _ _ Ha Hne Hjoin) as Hlen.
  destruct (first_in_range_hit 1 (min 5 (length words_left - i))
              (fun k => joined_is words_left i (k + 1) words_right j) k)
    as (k' & Hf & Hk'); [lia| |].
  { unfold joined_is. rewrite Hb. apply bool_decide_eq_true. exact Hjoin. }
  exists k'. split; [lia|]. split.
  - apply first_in_range_Some in Hf. destruct Hf as (_ & Hj & _).
    unfold joined_is in Hj. rewrite Hb in Hj. apply bool_decide_eq_true in Hj. exact Hj.
  - unfold Aligner.merge_check.
    rewrite (word_len_lookup _ _ _ Ha), (word_len_lookup _ _ _ Hb).
    destruct (Nat.ltb_spec (length a) (length b)); [|lia].
    rewrite Hf. reflexivity.
Qed.

Lemma merge_check_right i j a b k :
  words_left !! i = Some a -> words_right !! j = Some b -> a <> b ->
  1 <= k < min 5 (length words_right - j) -> join (slice words_right j (k + 1)) = a ->
  exists k', 1 <= k' <= k /\ join (slice words_right j (k' + 1)) = a /\
             merge_check i j = Some (i + 1, j + (k' + 1)).
Proof.
  intros Ha Hb Hne Hk Hjoin.
  assert (Hlen : length b < length a).
  { eapply joined_longer; [exact Hb|congruence|exact Hjoin]. }
  destruct (first_in_range_hit 1 (min 5 (length words_right - j))
              (fun k => joined_is words_right j (k + 1) words_left i) k)
    as (k' & Hf & Hk'); [lia| |].
  { unfold joined_is. rewrite Ha. apply bool_decide_eq_true. exact Hjoin. }
  exists k'. split; [lia|]. split.
  - apply first_in_range_Some in Hf. destruct Hf as (_ & Hj & _).
    unfold joined_is in Hj. rewrite Ha in Hj. apply bool_decide_eq_true in Hj. exact Hj.
  - unfold Aligner.merge_check.
    rewrite (word_len_lookup _ _ _ Ha), (word_len_lookup _ _ _ Hb).
    destruct (Nat.ltb_spec (length a) (length b)); [lia|].
    destruct (Nat.ltb_spec (length b) (length a)); [|lia].
    rewrite Hf. reflexivity.
Qed.

Lemma step_merge i j ds a b i' j' :
  words_left !! i = Some a -> words_right !! j = Some b -> a <> b ->
  merge_check i j = Some (i', j') -> step (State i j ds) = State i' j' ds.
Proof.
  intros Ha Hb Hne Hm. unfold Aligner.step. simpl.
  pose proof (lookup_lt_Some _ _ _ Ha). pose proof (lookup_lt_Some _ _ _ Hb).
  destruct (Nat.ltb_spec i (length words_left)); [|lia].
  destruct (Nat.ltb_spec j (length words_right)); [|lia].
  simpl. unfold Aligner.same_word. rewrite Ha, Hb.
  rewrite bool_decide_eq_false_2 by exact Hne. rewrite Hm. reflexivity.
Qed.

(** C4. When the merge check succeeds, that is, when the loop is at a
    state [(i, j, ds)] where the words at the pointers differ and one
    of them is the concatenation, without a separator, of two to five
    consecutive words of the other list starting at its pointer, the
    turn moves both pointers past the whole group and leaves
    [differences] as it was; and no entry of the result, appended
    before or after that turn, refers to a word the group consumed. *)
Theorem merge_check_emits_no_difference n m i j ds a b :
  reached n = State i j ds ->
  words_left !! i = Some a ->
  words_right !! j = Some b ->
  a <> b ->
  (exists k, 1 <= k < min 5 (length words_left - i) /\
             join (slice words_left i (k + 1)) = b) \/
  (exists k, 1 <= k < min 5 (length words_right - j) /\
             join (slice words_right j (k + 1)) = a) ->
  exists i' j',
    step (State i j ds) = State i' j' ds /\
    ((j' = j + 1 /\ i + 2 <= i' <= i + 5 /\
      join (slice words_left i (i' - i)) = b) \/
     (i' = i + 1 /\ j + 2 <= j' <= j + 5 /\
      join (slice words_right j (j' - j)) = a)) /\
    forall d, d ∈ differences (run m (State i' j' ds)) ->
      (forall x, left_index d = Some x -> ~ (i <= x < i')) /\
      (forall y, right_index d = Some y -> ~ (j <= y < j')).
Proof.
  intros Hst Ha Hb Hne Hgroup.
  pose proof (run_invariant n) as (Hi & Hj & Hold).
  rewrite Hst in Hi, Hj, Hold. cbn [pos_i pos_j differences] in Hi, Hj, Hold.
  assert (Hm : exists i' j',
    merge_check i j = Some (i', j') /\
    ((j' = j + 1 /\ i + 2 <= i' <= i + 5 /\ join (slice words_left i (i' - i)) = b) \/
     (i' = i + 1 /\ j + 2 <= j' <= j + 5 /\ join (slice words_right j (j' - j)) = a))).
  { destruct Hgroup as [(k & Hk & Hjoin)|(k & Hk & Hjoin)].
    - destruct (merge_check_left i j a b k Ha Hb Hne Hk Hjoin) as (k' & Hk' & Hj' & Hm).
      exists (i + (k' + 1)), (j + 1). split; [exact Hm|]. left.
      replace (i + (k' + 1) - i) with (k' + 1) by lia. repeat split; try lia. exact Hj'.
    - destruct (merge_check_right i j a b k Ha Hb Hne Hk Hjoin) as (k' & Hk' & Hj' & Hm).
      exists (i + 1), (j + (k' + 1)). split; [exact Hm|]. right.
      replace (j + (k' + 1) - j) with (k' + 1) by lia. repeat split; try lia. exact Hj'. }
  destruct Hm as (i' & j' & Hm & Hshape). exists i', j'.
  split; [exact (step_merge i j ds a b i' j' Ha Hb Hne Hm)|]. split; [exact Hshape|].
  pose proof (lookup_lt_Some _ _ _ Ha) as Hil.
  pose proof (lookup_lt_Some _ _ _ Hb) as Hjl.
  assert (Hbounds : i < i' <= length words_left /\ j < j' <= length words_right).
  { destruct (merge_check_bounds _ _ _ _ Hm) as [?|?]; lia. }
  destruct (run_diffs m (State i' j' ds)) as (new & Hd & Hnew);
    cbn [pos_i pos_j]; [lia..|].
  cbn [pos_i pos_j differences] in Hd, Hnew. intros d Hin. rewrite Hd in Hin.
  apply elem_of_app in Hin. destruct Hin as [Hin|Hin].
  - rewrite Forall_forall in Hold. destruct (Hold d Hin) as [Hl Hr].
    split; intros z Hz; [apply Hl in Hz|apply Hr in Hz]; lia.
  - rewrite Forall_forall in Hnew. destruct (Hnew d Hin) as [Hl Hr].
    split; intros z Hz; [apply Hl in Hz|apply Hr in Hz]; lia.
Qed.

End Loop.

(** An instance: after one equal word the left list has [보험] and
    [기간] where the right list has [보험기간]. *)
Lemma merge_check_emits_no_difference_witness :
  exists i' j',
    step split_words joined_words 5 (State 1 1 []) = State i' j' [] /\
    ((j' = 1 + 1 /\ 1 + 2 <= i' <= 1 + 5 /\
      join (slice split_words 1 (i' - 1)) = utf8 "보험기간") \/
     (i' = 1 + 1 /\ 1 + 2 <= j' <= 1 + 5 /\
      join (slice joined_words 1 (j' - 1)) = utf8 "보험")) /\
    forall d, d ∈ differences (run split_words joined_words 5 4 (State i' j' [])) ->
      (forall x, left_index d = Some x -> ~ (1 <= x < i')) /\
      (forall y, right_index d = Some y -> ~ (1 <= y < j')).
Proof.
  apply (merge_check_emits_no_difference split_words joined_words 5 1 4 1 1 []
           (utf8 "보험") (utf8 "보험기간")).
  - reflexivity.
  - reflexivity.
  - reflexivity.
  - discriminate.
  - left. exists 1. split; [vm_compute; lia|reflexivity].
Defined.

(** The loop of [compare_with_resync] ends by its own test. *)
Lemma compare_with_resync_finishes lookahead words_left words_right :
  running words_left words_right
    (run words_left words_right lookahead
         (length words_left + length words_right) (State 0 0 [])) = false.
Proof. apply run_finishes; simpl; lia. Qed.

(** ** One inserted word *)

Lemma length_insert_at {A} p (x : A) l : length (insert_at p x l) = S (length l).
Proof.
  unfold insert_at. rewrite length_app. simpl. rewrite length_take, length_drop. lia.
Qed.

Lemma lookup_insert_at_lt {A} p (x : A) l i :
  i < p -> p <= length l -> insert_at p x l !! i = l !! i.
Proof.
  intros Hi Hp. unfold insert_at.
  rewrite lookup_app_l by (rewrite length_take; lia).
  apply lookup_take_lt. exact Hi.
Qed.

Lemma lookup_insert_at_eq {A} p (x : A) l :
  p <= length l -> insert_at p x l !! p = Some x.
Proof.
  intros Hp. unfold insert_at.
  rewrite lookup_app_r by (rewrite length_take; lia).
  rewrite length_take. replace (p - p `min` length l) with 0 by lia. reflexivity.
Qed.

Lemma lookup_insert_at_gt {A} p (x : A) l i :
  p <= i -> p <= length l -> insert_at p x l !! (S i) = l !! i.
Proof.
  intros Hi Hp. unfold insert_at.
  rewrite lookup_app_r by (rewrite length_take; lia).
  rewrite length_take. replace (S i - p `min` length l) with (S (i - p)) by lia.
  simpl. rewrite lookup_drop. f_equal. lia.
Qed.

Section OneInsert.
Variable W : list str.
Variable p : nat.
Variable t : str.
Hypothesis p_valid : p <= length W.

Local Abbreviation W' := (insert_at p t W).

Lemma same_before k : k < p -> same_word W W' k k = true.
Proof.
  intros Hk. apply same_word_true.
  destruct (lookup_lt_is_Some_2 W k) as [w Hw]; [lia|].
  exists w. split; [exact Hw|]. rewrite lookup_insert_at_lt by lia. exact Hw.
Qed.

Lemma same_after k : p <= k -> k < length W -> same_word W W' k (S k) = true.
Proof.
  intros Hk Hlen. apply same_word_true.
  destruct (lookup_lt_is_Some_2 W k) as [w Hw]; [lia|].
  exists w. split; [exact Hw|]. rewrite lookup_insert_at_gt by lia. exact Hw.
Qed.

(** The turn at the inserted word, when words of [W] follow it. *)
Lemma step_at_insert w :
  W !! p = Some w -> w <> t -> t <> [] ->
  (forall k, 1 <= k <= 5 -> W !! (p + k) <> Some t) ->
  (forall k, 1 <= k < min 5 (length W - p) -> join (slice W p (k + 1)) <> t) ->
  step W W' 5 (State p p []) = State p (p + 1) [Insert p].
Proof.
  intros Hw Hne Ht Hahead Hjoin.
  pose proof (lookup_lt_Some _ _ _ Hw) as Hpl.
  assert (Ht' : W' !! p = Some t) by (apply lookup_insert_at_eq; lia).
  unfold step. cbn [pos_i pos_j differences].
  rewrite length_insert_at.
  destruct (Nat.ltb_spec p (length W)); [|lia].
  destruct (Nat.ltb_spec p (S (length W))); [|lia].
  cbn [negb andb].
  assert (Hsame : same_word W W' p p = false).
  { unfold same_word. rewrite Hw, Ht'. apply bool_decide_eq_false_2. exact Hne. }
  rewrite Hsame.
  assert (Hmerge : merge_check W W' p p = None).
  { unfold merge_check.
    rewrite (word_len_lookup _ _ _ Hw), (word_len_lookup _ _ _ Ht').
    destruct (Nat.ltb_spec (length w) (length t)).
    - rewrite first_in_range_None; [reflexivity|].
      intros k Hk. unfold joined_is. rewrite Ht'.
      apply bool_decide_eq_false_2. apply Hjoin. lia.
    - destruct (Nat.ltb_spec (length t) (length w)); [|reflexivity].
      rewrite first_in_range_None; [reflexivity|].
      intros k Hk. unfold joined_is. rewrite Hw.
      apply bool_decide_eq_false_2. intros Heq.
      assert (Hnext : W' !! S p = Some w) by (rewrite lookup_insert_at_gt by lia; exact Hw).
      destruct k as [|k]; [lia|].
      rewrite Nat.add_1_r, (slice_cons _ _ _ _ Ht'), (slice_cons _ _ _ _ Hnext) in Heq.
      unfold join in Heq. simpl in Heq.
      apply (f_equal length) in Heq. rewrite !length_app in Heq.
      destruct t; [congruence|]. simpl in Heq. lia. }
  rewrite Hmerge.
  assert (Hdel : resync_delete W W' 5 p p = None).
  { unfold resync_delete. apply first_in_range_None. intros k Hk.
    unfold same_word. rewrite Ht'.
    destruct (W !! (p + k)) as [x|] eqn:Hx; [|reflexivity].
    apply bool_decide_eq_false_2. intros ->. apply (Hahead k); [lia|exact Hx]. }
  rewrite Hdel.
  assert (Hins : resync_insert W W' 5 p p = Some 1).
  { unfold resync_insert. rewrite length_insert_at.
    destruct (first_in_range_hit 1 (min (5 + 1) (S (length W) - p))
                (fun k => same_word W W' p (p + k)) 1) as (k' & Hf & Hk'); [lia| |].
    - rewrite Nat.add_1_r. apply same_after; lia.
    - rewrite Hf. f_equal. lia. }
  rewrite Hins. reflexivity.
Qed.

(** The turn at the inserted word, when it was put at the end. *)
Lemma step_at_end : p = length W -> step W W' 5 (State p p []) = State p (p + 1) [Insert p].
Proof.
  intros ->. unfold step. cbn [pos_i pos_j differences].
  rewrite length_insert_at.
  destruct (Nat.ltb_spec (length W) (length W)); [lia|].
  destruct (Nat.ltb_spec (length W) (S (length W))); [|lia].
  reflexivity.
Qed.

Lemma run_after_insert_step :
  step W W' 5 (State p p []) = State p (p + 1) [Insert p] ->
  compare_with_resync W W' = [Insert p].
Proof.
  intros Hstep. unfold compare_with_resync, compare_with_resync_at.
  rewrite length_insert_at.
  replace (length W + S (length W)) with (p + (1 + ((length W - p) + length W))) by lia.
  rewrite run_add.
  rewrite (run_same W W' 5 p 0 0 []) by (intros k Hk; apply same_before; exact Hk).
  rewrite run_add. cbn [run Nat.add].
  rewrite running_right by (rewrite length_insert_at; lia).
  rewrite Hstep. rewrite run_add.
  rewrite (run_same W W' 5 (length W - p) p (p + 1) [Insert p]).
  - rewrite run_stopped; [reflexivity|].
    unfold running. cbn [pos_i pos_j]. rewrite length_insert_at.
    apply orb_false_intro; apply Nat.ltb_ge; lia.
  - intros k Hk. rewrite (Nat.add_comm p 1). apply same_after; lia.
Qed.

End OneInsert.

(** C2, amended. If [words_b] is [W] with one non-empty word [t]
    inserted at [p], and [t] differs from the word of [W] at [p] and
    from the five words after it, and is not the concatenation of two
    to five consecutive words of [W] starting at [p], then
    [compare_with_resync] returns exactly one entry, the insert at
    [p]. *)
Theorem single_insert_one_entry (W : list str) (p : nat) (t : str) :
  p <= length W ->
  t <> [] ->
  (forall k, k <= 5 -> W !! (p + k) <> Some t) ->
  (forall k, 1 <= k < min 5 (length W - p) -> join (slice W p (k + 1)) <> t) ->
  compare_with_resync W (insert_at p t W) = [Insert p].
Proof.
  intros Hp Ht Hahead Hjoin. apply run_after_insert_step; [exact Hp|].
  destruct (W !! p) as [w|] eqn:Hw.
  - apply (step_at_insert W p t Hp w Hw); try assumption.
    + intros ->. apply (Hahead 0); [lia|]. rewrite Nat.add_0_r. exact Hw.
    + intros k Hk. apply Hahead. lia.
  - apply lookup_ge_None in Hw. apply step_at_end; lia.
Qed.

(** Equal lists give no entry. *)
Lemma compare_with_resync_same (W : list str) : compare_with_resync W W = [].
Proof.
  unfold compare_with_resync, compare_with_resync_at. rewrite run_add.
  rewrite (run_same W W 5 (length W) 0 0 []).
  - rewrite run_stopped; [reflexivity|].
    unfold running. cbn [pos_i pos_j].
    apply orb_false_intro; apply Nat.ltb_ge; lia.
  - intros k Hk. apply same_word_true.
    destruct (lookup_lt_is_Some_2 W k) as [w Hw]; [lia|]. eauto.
Qed.

(** An instance: [특약] inserted at position 1. *)
Lemma single_insert_one_entry_witness :
  compare_with_resync plain_words (insert_at 1 (utf8 "특약") plain_words) = [Insert 1].
Proof.
  apply single_insert_one_entry.
  - vm_compute. lia.
  - discriminate.
  - intros k Hk. do 6 (destruct k as [|k]; [vm_compute; discriminate|]). lia.
  - intros k Hk. assert (k = 1) as -> by (vm_compute in Hk; lia).
    vm_compute. discriminate.
Defined.

(** C2, as stated, fails: the inserted word may occur again among the
    next words of [W]. With ["기간"] inserted before ["보험"; "기간"] the
    look-ahead on the left finds it first, and the result is a delete
    followed by two inserts. *)
Lemma single_insert_three_entries :
  insert_at 0 (utf8 "기간") two_words = words ["기간"; "보험"; "기간"] /\
  compare_with_resync two_words (insert_at 0 (utf8 "기간") two_words)
  = [Delete 0; Insert 1; Insert 2].
Proof. split; reflexivity. Qed.

End AlignerFacts.

Module NormalizerFacts.
Import PyStr PyStrFacts Normalizer.

Lemma strip_punctuation_kept word : Forall (fun c => kept c = true) (strip_punctuation word).
Proof.
  unfold strip_punctuation. apply Forall_forall. intros c Hc.
  apply list_elem_of_filter in Hc. apply Hc.
Qed.


Lemma kept_lower_char c : kept c = true -> kept (lower_char c) = true.
Proof.
  intros Hk.
  pose proof (lower_char_cases (fun c => implb (kept c) (kept (lower_char c)))) as H.
  specialize (H ltac:(vm_compute; reflexivity)).
  specialize (H ltac:(intros c' _ E; cbv beta; rewrite E; destruct (kept c'); reflexivity) c).
  cbv beta in H.
  rewrite Hk in H. exact H.
Qed.

(** ** Collapsed white space *)


Lemma collapse_from_kept b word :
  Forall (fun c => kept c = true) word ->
  Forall (fun c => kept c = true) (collapse_from b word).
Proof.
  intros H. revert b. induction H as [|c w Hc Hw IH]; intros b; simpl; [constructor|].
  destruct (isspace c).
  - destruct b; [apply IH|]. constructor; [reflexivity|apply IH].
  - constructor; [exact Hc|apply IH].
Qed.





(** ** The last four steps of [normalize_word] *)

Lemma normalize_word_unfold word :
  normalize_word word =
  if is_meaningless_word word then [] else tidy (normalize_korean_number word).
Proof. reflexivity. Qed.


(** ** When the unit expansion changes nothing *)

Lemma contains_single u s : contains [u] s = true <-> u ∈ s.
Proof.
  induction s as [|c s IH]; simpl.
  - split; [discriminate|]. intros H. apply elem_of_nil in H. destruct H.
  - rewrite andb_true_r, orb_true_iff, IH, elem_of_cons, N.eqb_eq. reflexivity.
Qed.

Lemma replace_absent c new s : c ∉ s -> replace [c] new s = s.
Proof.
  unfold replace. induction s as [|x s IH]; intros Hc; simpl; [reflexivity|].
  apply not_elem_of_cons in Hc. destruct Hc as [Hx Hs].
  rewrite andb_true_r. destruct (N.eqb_spec c x); [congruence|].
  f_equal. apply IH. exact Hs.
Qed.

Lemma expand_unit_absent text um : um.1 ∉ text -> expand_unit text um = text.
Proof.
  destruct um as [unit multiplier]. simpl. intros Hu. unfold expand_unit.
  destruct (contains [unit] text) eqn:Hc; [|reflexivity].
  apply contains_single in Hc. contradiction.
Qed.

(** A text without 조, 억, 만 and without a comma is left as it is. *)
Lemma normalize_korean_number_fixed text :
  (forall um, um ∈ units -> um.1 ∉ text) -> 0x2C%N ∉ text ->
  normalize_korean_number text = text.
Proof.
  intros Hunits Hcomma. unfold normalize_korean_number.
  assert (E : fold_left expand_unit units text = text).
  { revert Hunits. generalize units. intros l. induction l as [|um l IH]; intros Hl; simpl.
    - reflexivity.
    - rewrite expand_unit_absent by (apply Hl; left). apply IH.
      intros um' Hum'. apply Hl. by right. }
  rewrite E. apply replace_absent. exact Hcomma.
Qed.

(** A normalized word holds no comma. *)
Lemma normalize_word_no_comma word : 0x2C%N ∉ normalize_word word.
Proof.
  rewrite normalize_word_unfold. destruct (is_meaningless_word word).
  - apply not_elem_of_nil.
  - intros Hin.
    assert (Hk : Forall (fun c => kept c = true) (tidy (normalize_korean_number word))).
    { apply Forall_strip. unfold lower. apply Forall_fmap.
      eapply Forall_impl; [apply collapse_from_kept, strip_punctuation_kept|].
      intros c Hc. apply kept_lower_char. exact Hc. }
    rewrite Forall_forall in Hk. apply Hk in Hin. discriminate.
Qed.




(** ** Amounts with a unit *)



End NormalizerFacts.

Module TextComparatorFacts.
Import PyStr TextComparator.

Section Matching.
Variable ratio : str -> str -> Q.

Local Abbreviation score := (score ratio).
Local Abbreviation find_best_match := (find_best_match ratio).
Local Abbreviation match_step := (match_step ratio).
Local Abbreviation compare_blocks := (compare_blocks ratio).
Local Abbreviation best_of := (best_of ratio).
Local Abbreviation matching_inv := (matching_inv ratio).

(** ** [find_best_match] *)

Lemma best_step_inv target_block source_blocks k x best :
  source_blocks !! k = Some x ->
  best_of target_block source_blocks best ->
  best_of target_block source_blocks (best_step ratio target_block best (k, x)).
Proof.
  intros Hx Hbest. unfold best_step.
  destruct (bool_decide _); [exact Hbest|].
  destruct (Qltb _ _); [|exact Hbest].
  right. eauto.
Qed.

Lemma find_best_match_Some target_block source_blocks j sc :
  find_best_match target_block source_blocks = Some (j, sc) ->
  exists b, source_blocks !! j = Some b /\ sc = score target_block b /\
            (SIMILARITY_THRESHOLD <= sc)%Q.
Proof.
  unfold TextComparator.find_best_match.
  destruct (bool_decide _); [discriminate|].
  pose proof (fold_enumerate_ind (best_step ratio target_block)
                (fun _ => best_of target_block source_blocks) source_blocks
                (-1 # 1, None)) as Hfold.
  destruct (fold_left _ _ _) as [best_score best_index].
  destruct (Qle_bool SIMILARITY_THRESHOLD best_score) eqn:Hle; [|discriminate].
  destruct best_index as [j'|]; [|discriminate].
  intros [= -> ->].
  destruct Hfold as [Hf|(j' & b & Hb & Hf)].
  - left. reflexivity.
  - intros k x acc Hx Hacc. apply (best_step_inv _ _ _ _ _ Hx Hacc).
  - discriminate.
  - injection Hf as -> ->. exists b. split; [exact Hb|]. split; [reflexivity|].
    apply Qle_bool_iff. exact Hle.
Qed.

(** ** The first loop of [compare_blocks] *)

Lemma match_step_inv blocks_a blocks_b k x acc :
  blocks_a !! k = Some x ->
  matching_inv blocks_a blocks_b k acc ->
  matching_inv blocks_a blocks_b (S k) (match_step blocks_b acc (k, x)).
Proof.
  intros Hx [Hcl Hbe Hbs Hinj]. destruct acc as [res matched].
  assert (Hkeep : matching_inv blocks_a blocks_b (S k) (res, matched)).
  { split; try assumption. intros i j Hij. apply Hbe in Hij. lia. }
  unfold TextComparator.match_step.
  destruct (find_best_match x blocks_b) as [[j sc]|] eqn:Hf.
  - destruct (bool_decide (j ∈ matched)) eqn:Hj; [exact Hkeep|].
    apply bool_decide_eq_false in Hj.
    destruct (blocks_b !! j) as [block_b|] eqn:Hb; [|exact Hkeep].
    assert (Hsync : forall r,
      sync_map (match compare_word_level (text x) (text block_b) with
                | modified => Results (res_modified r ++ [(k, j)]) (res_deleted r)
                    (res_added r) (sync_map r)
                    (add_highlight (page x) (bbox x, yellow) (diff_highlights_a r))
                    (add_highlight (page block_b) (bbox block_b, yellow) (diff_highlights_b r))
                | same => r
                end) = sync_map r).
    { intros r. destruct (compare_word_level _ _); reflexivity. }
    simpl in *. split; simpl; rewrite Hsync; simpl.
    + intros i j' Hij. destruct (decide (i = k)) as [->|Hne].
      * rewrite lookup_insert_eq in Hij. injection Hij as <-. set_solver.
      * rewrite lookup_insert_ne in Hij by congruence. apply Hcl in Hij. set_solver.
    + intros i j' Hij. destruct (decide (i = k)) as [->|Hne]; [lia|].
      rewrite lookup_insert_ne in Hij by congruence. apply Hbe in Hij. lia.
    + intros i j' Hij. destruct (decide (i = k)) as [->|Hne].
      * rewrite lookup_insert_eq in Hij. injection Hij as <-. eauto.
      * rewrite lookup_insert_ne in Hij by congruence. apply Hbs in Hij. exact Hij.
    + intros i1 i2 j' H1 H2.
      destruct (decide (i1 = k)) as [->|Hne1]; destruct (decide (i2 = k)) as [->|Hne2];
        [reflexivity|..].
      * rewrite lookup_insert_eq in H1. injection H1 as <-.
        rewrite lookup_insert_ne in H2 by congruence. apply Hcl in H2. contradiction.
      * rewrite lookup_insert_eq in H2. injection H2 as <-.
        rewrite lookup_insert_ne in H1 by congruence. apply Hcl in H1. contradiction.
      * rewrite lookup_insert_ne in H1, H2 by congruence. eapply Hinj; eassumption.
  - destruct Hkeep as [Hcl' Hbe' Hbs' Hinj']. split; assumption.
Qed.

Lemma added_step_sync_map matched res jb :
  sync_map (added_step matched res jb) = sync_map res.
Proof.
  unfold added_step. destruct jb as [j b]. destruct (bool_decide _); reflexivity.
Qed.

Lemma added_loop_sync_map matched l res :
  sync_map (fold_left (added_step matched) l res) = sync_map res.
Proof.
  revert res. induction l as [|jb l IH]; intros res; simpl; [reflexivity|].
  rewrite IH. apply added_step_sync_map.
Qed.

Lemma compare_blocks_inv blocks_a blocks_b :
  exists acc,
    matching_inv blocks_a blocks_b (length blocks_a) acc /\
    sync_map (compare_blocks blocks_a blocks_b) = sync_map acc.1.
Proof.
  unfold TextComparator.compare_blocks.
  pose proof (fold_enumerate_ind (match_step blocks_b)
                (matching_inv blocks_a blocks_b) blocks_a (empty_results, ∅)) as Hfold.
  destruct (fold_left _ (enumerate blocks_a) _) as [res matched] eqn:E.
  exists (res, matched). split.
  - apply Hfold.
    + split; simpl; intros *; rewrite lookup_empty; discriminate.
    + intros k x acc Hx Hacc. apply match_step_inv; assumption.
  - apply added_loop_sync_map.
Qed.

(** The sync map of [compare_blocks] never sends two blocks of A to
    the same block of B: the guard on [matched_b_indices]. *)
Lemma compare_blocks_sync_map_injective blocks_a blocks_b i1 i2 j :
  sync_map (compare_blocks blocks_a blocks_b) !! i1 = Some j ->
  sync_map (compare_blocks blocks_a blocks_b) !! i2 = Some j ->
  i1 = i2.
Proof.
  destruct (compare_blocks_inv blocks_a blocks_b) as (acc & Hinv & ->).
  apply (inv_injective _ _ _ _ _ Hinv).
Qed.

(** ** What becomes of the blocks of A *)

Lemma accounted_keep blocks_b res res' i block_a :
  (forall i' j, sync_map res !! i' = Some j -> sync_map res' !! i' = Some j) ->
  (forall i', i' ∈ res_deleted res -> i' ∈ res_deleted res') ->
  accounted ratio blocks_b res i block_a -> accounted ratio blocks_b res' i block_a.
Proof.
  intros Hsync Hdel [[j Hj]|[Hd|(j & sc & i' & Hf & Hlt & Hj)]].
  - left. exists j. apply Hsync. exact Hj.
  - right. left. apply Hdel. exact Hd.
  - right. right. exists j, sc, i'. repeat split; try assumption. apply Hsync. exact Hj.
Qed.

Lemma match_step_accounting blocks_a blocks_b k x acc :
  blocks_a !! k = Some x ->
  accounting_inv ratio blocks_a blocks_b k acc ->
  accounting_inv ratio blocks_a blocks_b (S k) (match_step blocks_b acc (k, x)).
Proof.
  intros Hx [Hbe Hcl Hdone]. destruct acc as [res matched]. cbn [fst snd] in *.
  assert (Hcl' : forall j, j ∈ matched ->
                   exists i', i' < S k /\ sync_map res !! i' = Some j).
  { intros j Hj. destruct (Hcl j Hj) as (i' & Hlt & Hi'). exists i'. split; [lia|exact Hi']. }
  assert (Hbe' : forall i j, sync_map res !! i = Some j -> i < S k).
  { intros i j Hij. apply Hbe in Hij. lia. }
  unfold TextComparator.match_step.
  destruct (find_best_match x blocks_b) as [[j sc]|] eqn:Hf.
  - destruct (bool_decide (j ∈ matched)) eqn:Hj.
    + apply bool_decide_eq_true in Hj. split; cbn [fst snd]; [exact Hbe'|exact Hcl'|].
      intros i block_a Hi Ha. destruct (decide (i = k)) as [->|Hne].
      * rewrite Hx in Ha. injection Ha as <-. right. right.
        destruct (Hcl j Hj) as (i' & Hlt & Hi'). exists j, sc, i'. auto.
      * apply Hdone; [lia|exact Ha].
    + apply bool_decide_eq_false in Hj.
      destruct (find_best_match_Some _ _ _ _ Hf) as (block_b & Hb & _). rewrite Hb.
      set (res1 := Results (res_modified res) (res_deleted res) (res_added res)
                           (<[k:=j]> (sync_map res)) (diff_highlights_a res)
                           (diff_highlights_b res)).
      set (res2 := match compare_word_level (text x) (text block_b) with
                   | same => res1
                   | modified => _
                   end).
      assert (Hs : sync_map res2 = <[k:=j]> (sync_map res)).
      { unfold res2. destruct (compare_word_level _ _); reflexivity. }
      assert (Hd : res_deleted res2 = res_deleted res).
      { unfold res2. destruct (compare_word_level _ _); reflexivity. }
      assert (Hkeep : forall i' j', sync_map res !! i' = Some j' ->
                                    sync_map res2 !! i' = Some j').
      { intros i' j' Hi'. rewrite Hs. pose proof (Hbe _ _ Hi').
        rewrite lookup_insert_ne by lia. exact Hi'. }
      split; cbn [fst snd].
      * intros i j'. rewrite Hs. destruct (decide (i = k)) as [->|Hne]; [lia|].
        rewrite lookup_insert_ne by congruence. apply Hbe'.
      * intros j' Hj'. apply elem_of_union in Hj' as [Hj'|Hj'].
        -- apply elem_of_singleton in Hj'. subst j'. exists k. split; [lia|].
           rewrite Hs. apply lookup_insert_eq.
        -- destruct (Hcl' j' Hj') as (i' & Hlt & Hi'). exists i'. split; [lia|].
           apply Hkeep. exact Hi'.
      * intros i block_a Hi Ha. destruct (decide (i = k)) as [->|Hne].
        -- left. rewrite Hs, lookup_insert_eq. eauto.
        -- apply (accounted_keep blocks_b res); [exact Hkeep| |apply Hdone; [lia|exact Ha]].
           intros i'. rewrite Hd. auto.
  - split; cbn [fst snd]; [exact Hbe'|exact Hcl'|].
    intros i block_a Hi Ha. destruct (decide (i = k)) as [->|Hne].
    + right. left. apply elem_of_app. right. apply list_elem_of_singleton. reflexivity.
    + apply (accounted_keep blocks_b res); [auto| |apply Hdone; [lia|exact Ha]].
      intros i' Hi'. cbn. apply elem_of_app. left. exact Hi'.
Qed.

Lemma added_step_deleted matched res jb :
  res_deleted (added_step matched res jb) = res_deleted res.
Proof.
  unfold added_step. destruct jb as [j b]. destruct (bool_decide _); reflexivity.
Qed.

Lemma added_loop_deleted matched l res :
  res_deleted (fold_left (added_step matched) l res) = res_deleted res.
Proof.
  revert res. induction l as [|jb l IH]; intros res; simpl; [reflexivity|].
  rewrite IH. apply added_step_deleted.
Qed.

(** Every block of A is a key of the sync map, or among the deleted
    blocks, or was skipped because an earlier block of A had claimed
    its best match. *)
Lemma compare_blocks_accounts blocks_a blocks_b i block_a :
  blocks_a !! i = Some block_a ->
  accounted ratio blocks_b (compare_blocks blocks_a blocks_b) i block_a.
Proof.
  intros Ha. unfold TextComparator.compare_blocks.
  pose proof (fold_enumerate_ind (match_step blocks_b)
                (accounting_inv ratio blocks_a blocks_b) blocks_a (empty_results, ∅))
    as Hfold.
  destruct (fold_left _ (enumerate blocks_a) _) as [res matched] eqn:E.
  assert (Hinv : accounting_inv ratio blocks_a blocks_b (length blocks_a) (res, matched)).
  { apply Hfold.
    - split; cbn [fst snd].
      + intros i0 j. simpl. rewrite lookup_empty. discriminate.
      + intros j Hj. apply not_elem_of_empty in Hj. destruct Hj.
      + intros i0 b0 Hi0. lia.
    - intros k x acc Hx Hacc. apply match_step_accounting; assumption. }
  apply (accounted_keep blocks_b res).
  - intros i' j Hi'. rewrite added_loop_sync_map. exact Hi'.
  - intros i' Hi'. rewrite added_loop_deleted. exact Hi'.
  - apply (acc_done _ _ _ _ _ Hinv); [|exact Ha]. eapply lookup_lt_Some. exact Ha.
Qed.

Lemma type_bonus_le a b : (type_bonus a b <= 1 # 10)%Q.
Proof. unfold type_bonus. destruct (bool_decide _); [apply Qle_refl|]. discriminate. Qed.

(** C9, amended. Whenever the sync map holds [mapping[i] = j], the
    score of the pair, that is the ratio of the two normalized texts
    plus the bonus of 0.1 for equal section types, is at least the
    threshold 0.6; the ratio alone is at least 0.5. *)
Theorem sync_map_pairs_pass_threshold blocks_a blocks_b i j :
  sync_map (compare_blocks blocks_a blocks_b) !! i = Some j ->
  exists block_a block_b,
    blocks_a !! i = Some block_a /\ blocks_b !! j = Some block_b /\
    (SIMILARITY_THRESHOLD <= score block_a block_b)%Q /\
    (5 # 10 <= ratio (normalize_text (text block_a)) (normalize_text (text block_b)))%Q.
Proof.
  destruct (compare_blocks_inv blocks_a blocks_b) as (acc & Hinv & ->).
  intros Hij. destruct (inv_best _ _ _ _ _ Hinv i j Hij) as (block_a & sc & Ha & Hf).
  apply find_best_match_Some in Hf. destruct Hf as (block_b & Hb & -> & Hle).
  exists block_a, block_b. repeat split; try assumption.
  pose proof (type_bonus_le block_a block_b) as Hbonus.
  unfold TextComparator.score, SIMILARITY_THRESHOLD in *. lra.
Qed.

End Matching.

(** ** A document compared with itself *)

Lemma identity_map_lookup n i :
  identity_map n !! i = if decide (i < n) then Some i else None.
Proof.
  induction n as [|n IH]; simpl.
  - rewrite lookup_empty. destruct (decide (i < 0)); [lia|reflexivity].
  - destruct (decide (i = n)) as [->|Hne].
    + rewrite lookup_insert_eq. destruct (decide (n < S n)); [reflexivity|lia].
    + rewrite lookup_insert_ne by congruence. rewrite IH.
      destruct (decide (i < n)); destruct (decide (i < S n)); try reflexivity; lia.
Qed.

Lemma elem_of_indices_below n i : i ∈ indices_below n <-> i < n.
Proof.
  induction n as [|n IH]; simpl; [set_solver by lia|].
  rewrite elem_of_union, elem_of_singleton, IH. lia.
Qed.

Section SelfCompare.
Variable ratio : str -> str -> Q.
Hypothesis ratio_of_equal : forall s, (ratio s s == 1)%Q.
Hypothesis ratio_at_most_1 : forall s t, (ratio s t <= 1)%Q.
Hypothesis ratio_1_only_equal : forall s t, (ratio s t == 1)%Q -> s = t.

Variable B : list block.
Hypothesis nonempty_normalized : forall b, b ∈ B -> normalize_text (text b) <> [].
Hypothesis no_twin : forall i j bi bj,
  j < i -> B !! i = Some bi -> B !! j = Some bj ->
  normalize_text (text bj) = normalize_text (text bi) ->
  section_type bj <> section_type bi.

Lemma score_self t : (score ratio t t == 11 # 10)%Q.
Proof.
  unfold score, type_bonus. rewrite bool_decide_eq_true_2 by reflexivity.
  rewrite ratio_of_equal. reflexivity.
Qed.

Lemma score_le t b : (score ratio t b <= 11 # 10)%Q.
Proof.
  unfold score. pose proof (ratio_at_most_1 (normalize_text (text t)) (normalize_text (text b))).
  pose proof (type_bonus_le t b). lra.
Qed.

Lemma score_earlier n j t b :
  j < n -> B !! n = Some t -> B !! j = Some b -> (score ratio t b < 11 # 10)%Q.
Proof.
  intros Hj Ht Hb. unfold score, type_bonus.
  pose proof (ratio_at_most_1 (normalize_text (text t)) (normalize_text (text b))) as Hle.
  destruct (bool_decide (section_type t = section_type b)) eqn:Hty; [|lra].
  apply bool_decide_eq_true in Hty.
  destruct (Qlt_le_dec (ratio (normalize_text (text t)) (normalize_text (text b))) 1)
    as [Hlt|Hge]; [lra|].
  exfalso. apply (no_twin n j t b Hj Ht Hb); [|congruence].
  symmetry. apply ratio_1_only_equal. apply Qle_antisym; assumption.
Qed.

Lemma self_best n t :
  B !! n = Some t -> find_best_match ratio t B = Some (n, score ratio t t).
Proof.
  intros Ht. unfold find_best_match.
  rewrite bool_decide_eq_false_2
    by (apply nonempty_normalized; eapply list_elem_of_lookup_2; exact Ht).
  pose proof (lookup_lt_Some _ _ _ Ht) as Hn.
  assert (Hfinal : self_inv ratio n t (length B)
            (fold_left (best_step ratio t) (enumerate B) (-1 # 1, None))).
  { apply fold_enumerate_ind.
    - unfold self_inv. destruct (decide (0 <= n)); [simpl; lra|lia].
    - intros k x acc Hx Hacc. unfold self_inv in *. unfold best_step.
      assert (Hxne : normalize_text (text x) <> []).
      { apply nonempty_normalized. eapply list_elem_of_lookup_2. exact Hx. }
      rewrite bool_decide_eq_false_2 by exact Hxne.
      destruct (decide (k <= n)) as [Hk|Hk].
      + destruct (decide (S k <= n)) as [Hk'|Hk'].
        * destruct (Qltb acc.1 (score ratio t x)); [|exact Hacc].
          simpl. apply (score_earlier n k); [lia|assumption..].
        * assert (k = n) by lia. subst k. rewrite Ht in Hx. injection Hx as <-.
          assert (Hlt : Qltb acc.1 (score ratio t t) = true).
          { apply Qltb_lt. pose proof (score_self t). lra. }
          rewrite Hlt. reflexivity.
      + destruct (decide (S k <= n)); [lia|]. subst acc. simpl.
        assert (Hge : Qltb (score ratio t t) (score ratio t x) = false).
        { apply Qltb_ge. pose proof (score_self t). pose proof (score_le t x). lra. }
        rewrite Hge. reflexivity. }
  unfold self_inv in Hfinal. destruct (decide (length B <= n)); [lia|].
  rewrite Hfinal.
  assert (Hle : Qle_bool SIMILARITY_THRESHOLD (score ratio t t) = true).
  { apply Qle_bool_iff. pose proof (score_self t). unfold SIMILARITY_THRESHOLD. lra. }
  rewrite Hle. reflexivity.
Qed.

Lemma compare_word_level_same text : compare_word_level text text = same.
Proof. unfold compare_word_level. rewrite bool_decide_eq_true_2; reflexivity. Qed.

Lemma self_match_loop :
  fold_left (match_step ratio B) (enumerate B) (empty_results, ∅)
  = (identity_results (length B), indices_below (length B)).
Proof.
  apply (fold_enumerate_ind (match_step ratio B)
           (fun k acc => acc = (identity_results k, indices_below k))); [reflexivity|].
  intros k x acc Hx ->. unfold match_step.
  rewrite (self_best k x Hx).
  rewrite bool_decide_eq_false_2 by (rewrite elem_of_indices_below; lia).
  rewrite Hx, compare_word_level_same. reflexivity.
Qed.

Lemma self_added_loop n :
  fold_left (added_step (indices_below (length B))) (enumerate B) (identity_results n)
  = identity_results n.
Proof.
  apply (fold_enumerate_ind (added_step (indices_below (length B)))
           (fun _ res => res = identity_results n)); [reflexivity|].
  intros k x acc Hx ->. unfold added_step.
  rewrite bool_decide_eq_true_2; [reflexivity|].
  apply elem_of_indices_below. eapply lookup_lt_Some. exact Hx.
Qed.

(** C1, amended. Let the ratio be 1 exactly on equal strings. For every
    block list [B] whose blocks all have a non-empty normalized text
    and in which no two blocks have both the same normalized text and
    the same section type, [compare_blocks(B, B)] yields no modified,
    deleted or added entry and no highlight, and its sync map is the
    identity on the block indices of [B]. *)
Theorem self_comparison_is_identity :
  compare_blocks ratio B B = identity_results (length B).
Proof.
  unfold compare_blocks. rewrite self_match_loop. apply self_added_loop.
Qed.

End SelfCompare.

(** An instance, with the ratio of [Difflib]: two different lines. *)
Lemma self_comparison_is_identity_witness :
  compare_blocks Difflib.ratio [premium_block; amount_block] [premium_block; amount_block]
  = identity_results 2.
Proof.
  apply (self_comparison_is_identity Difflib.ratio
           DifflibFacts.ratio_same DifflibFacts.ratio_le_1 DifflibFacts.ratio_1_eq
           [premium_block; amount_block]).
  - intros b Hb. apply elem_of_cons in Hb as [->|Hb]; [vm_compute; discriminate|].
    apply elem_of_cons in Hb as [->|Hb]; [vm_compute; discriminate|].
    apply elem_of_nil in Hb. destruct Hb.
  - intros i j bi bj Hlt Hi Hj.
    destruct i as [|[|i]]; [lia| |discriminate].
    destruct j as [|j]; [|lia].
    injection Hi as <-. injection Hj as <-. vm_compute. discriminate.
Defined.

(** C1, as stated, fails: a block whose text is only a reference mark
    has a non-empty text and an empty normalized text, so it matches
    nothing, itself included, and is reported as deleted and as
    added. *)
Lemma self_comparison_of_mark :
  text mark_block = utf8 "※" /\
  normalize_text (text mark_block) = [] /\
  compare_blocks Difflib.ratio [mark_block] [mark_block]
  = Results [] [0] [0] ∅
            {[0 := [((72, 100, 84, 112)%Z, red)]]}
            {[0 := [((72, 100, 84, 112)%Z, green)]]}.
Proof. repeat split; vm_compute; reflexivity. Qed.

(** An instance, with the ratio of [Difflib]. *)
Lemma sync_map_pairs_pass_threshold_witness :
  exists block_a block_b,
    [premium_block] !! 0 = Some block_a /\ [amount_block] !! 0 = Some block_b /\
    (SIMILARITY_THRESHOLD <= score Difflib.ratio block_a block_b)%Q /\
    (5 # 10 <= Difflib.ratio (normalize_text (text block_a))
                             (normalize_text (text block_b)))%Q.
Proof.
  apply (sync_map_pairs_pass_threshold Difflib.ratio [premium_block] [amount_block] 0 0).
  vm_compute. reflexivity.
Defined.

(** C9, as stated, fails: the two blocks have the same section type,
    the ratio of their normalized texts is 4/7, below 0.6, and the
    bonus lifts the score over the threshold, so they are mapped. *)
Lemma sync_map_pair_below_threshold :
  sync_map (compare_blocks Difflib.ratio [premium_block] [amount_block]) !! 0 = Some 0 /\
  (Difflib.ratio (normalize_text (text premium_block))
                 (normalize_text (text amount_block)) == 4 # 7)%Q /\
  (Difflib.ratio (normalize_text (text premium_block))
                 (normalize_text (text amount_block)) < SIMILARITY_THRESHOLD)%Q.
Proof. repeat split; vm_compute; reflexivity. Qed.

(** C8: the code drops a block. Document A has the same line twice,
    document B has it once. The second block of A finds the block of
    B already claimed and is skipped: it is no key of the sync map and
    it is not among the deleted blocks. *)
Theorem twin_block_is_dropped :
  compare_blocks Difflib.ratio [premium_block; premium_block_again] [premium_block]
  = Results [] [] [] {[0 := 0]} ∅ ∅ /\
  sync_map (compare_blocks Difflib.ratio [premium_block; premium_block_again]
                           [premium_block]) !! 1 = None /\
  1 ∉ res_deleted (compare_blocks Difflib.ratio [premium_block; premium_block_again]
                                  [premium_block]).
Proof.
  assert (E : compare_blocks Difflib.ratio [premium_block; premium_block_again]
                             [premium_block]
              = Results [] [] [] {[0 := 0]} ∅ ∅) by (vm_compute; reflexivity).
  rewrite E. repeat split. cbn. apply not_elem_of_nil.
Qed.

End TextComparatorFacts.

Module PDdiffFacts.
Import PyStr Re ReFacts PDdiff.

Lemma lang_two_hangul c1 c2 :
  is_hangul_syllable c1 = true -> is_hangul_syllable c2 = true ->
  lang (Rep 2 4 hangul) [c1; c2].
Proof.
  intros H1 H2. unfold Rep. simpl.
  change [c1; c2] with (([c1] ++ [c2] ++ []) ++ []).
  repeat constructor; assumption.
Qed.

Lemma lang_one_digit c : is_decimal c = true -> lang (Rep 1 4 digit) [c].
Proof.
  intros H. unfold Rep. simpl.
  change [c] with (([c] ++ []) ++ []).
  repeat constructor; assumption.
Qed.

Lemma placeholder_pattern_found r text_a text_b :
  r ∈ placeholder_patterns -> search r text_a = true ->
  strip text_a <> strip text_b ->
  is_placeholder_diff text_a text_b = true.
Proof.
  intros Hr Hs Hne. unfold is_placeholder_diff.
  assert (E : existsb (fun pattern => search pattern text_a) placeholder_patterns = true).
  { apply existsb_exists. exists r. split; [apply list_elem_of_In; exact Hr|exact Hs]. }
  rewrite E. rewrite bool_decide_eq_false_2 by exact Hne. reflexivity.
Qed.

Lemma hangul_pattern_listed : Rep 2 4 hangul ∈ placeholder_patterns.
Proof. unfold placeholder_patterns. do 14 apply list_elem_of_further. apply list_elem_of_here. Qed.

Lemma digit_pattern_listed : Rep 1 4 digit ∈ placeholder_patterns.
Proof. unfold placeholder_patterns. do 20 apply list_elem_of_further. apply list_elem_of_here. Qed.

(** C10. For every pair of blocks whose stripped texts differ, if the
    text of A holds two Hangul syllables in a row, or a digit, then
    [is_placeholder_diff] returns true and [compare_text_blocks]
    answers ['placeholder'], not ['modified']. *)
Theorem placeholder_over_suppression (block_a block_b : block) :
  strip (text block_a) <> strip (text block_b) ->
  (exists pre c1 c2 post,
      text block_a = pre ++ c1 :: c2 :: post /\
      is_hangul_syllable c1 = true /\ is_hangul_syllable c2 = true) \/
  (exists c, c ∈ text block_a /\ is_decimal c = true) ->
  is_placeholder_diff (text block_a) (text block_b) = true /\
  compare_text_blocks block_a block_b = placeholder.
Proof.
  intros Hne Hrun.
  assert (Hp : is_placeholder_diff (text block_a) (text block_b) = true).
  { destruct Hrun as [(pre & c1 & c2 & post & E & H1 & H2)|(c & Hin & Hc)].
    - apply (placeholder_pattern_found (Rep 2 4 hangul));
        [apply hangul_pattern_listed| |exact Hne].
      apply search_lang. exists pre, [c1; c2], post. split; [exact E|].
      apply lang_two_hangul; assumption.
    - apply (placeholder_pattern_found (Rep 1 4 digit));
        [apply digit_pattern_listed| |exact Hne].
      apply list_elem_of_split in Hin. destruct Hin as (pre & post & E).
      apply search_lang. exists pre, [c], post. split; [exact E|].
      apply lang_one_digit. exact Hc. }
  split; [exact Hp|]. unfold compare_text_blocks.
  rewrite bool_decide_eq_false_2 by congruence. rewrite Hp. reflexivity.
Qed.

(** An instance: one name in the template, another in the filled copy. *)
Lemma placeholder_over_suppression_witness :
  is_placeholder_diff (text name_block) (text other_name_block) = true /\
  compare_text_blocks name_block other_name_block = placeholder.
Proof.
  apply (placeholder_over_suppression name_block other_name_block).
  - vm_compute. discriminate.
  - left. exists [], 0xD64D%N, 0xAE38%N, [0xB3D9%N]. repeat split; reflexivity.
Defined.

(** C7. The block with ["보험기간: ××세"] and the block with
    ["보험기간: 30세"] are matched, the text of A holds the placeholder
    pattern [××세] and differs from the text of B, so the classifier
    answers ['placeholder'] and the comparison records no highlight. *)
Theorem placeholder_age_suppressed :
  search (lit "××세") (text template_block) = true /\
  is_placeholder_diff (text template_block) (text filled_block) = true /\
  compare_text_blocks template_block filled_block = placeholder /\
  perform_comparison Difflib.ratio [[template_block]] [[filled_block]]
  = (∅, ∅, [template_block], [filled_block], {[0 := 0]}).
Proof. repeat split; vm_compute; reflexivity. Qed.

(** C3: the code maps two blocks of A to one block of B. Document A
    has the same line twice, document B has it once;
    [perform_comparison] has no test on [matched_b_indices] before it
    writes the sync map, so both blocks of A are sent to block 0 of
    B. *)
Theorem twin_blocks_share_a_match :
  perform_comparison Difflib.ratio [[premium_block; premium_block_again]] [[premium_block]]
  = (∅, ∅, [premium_block; premium_block_again], [premium_block],
     {[0 := 0; 1 := 0]}).
Proof. vm_compute. reflexivity. Qed.

End PDdiffFacts.

(** * Further properties of the code *)

(** A decidable proposition settled by evaluation. *)
Ltac by_decision :=
  match goal with |- ?P => apply (bool_decide_unpack P); vm_compute; exact I end.

Module AlignerLaws.
Import PyStr Aligner AlignerFacts.

(** X1. Every entry of the result refers to words that exist: a left
    index is below [len(words_left)], a right index below
    [len(words_right)], so the look-ups [word_info_left[left_idx]] and
    [word_info_right[right_idx]] of [compare_texts] are in range. *)
Theorem compare_with_resync_indices_valid (words_left words_right : list str) :
  Forall (within 0 (length words_left) 0 (length words_right))
         (compare_with_resync words_left words_right).
Proof.
  unfold compare_with_resync, compare_with_resync_at.
  destruct (run_diffs words_left words_right 5
              (length words_left + length words_right) (State 0 0 []))
    as (new & Hd & Hnew); cbn [pos_i pos_j]; [lia..|].
  rewrite Hd. exact Hnew.
Qed.

Section Loop.
Variables words_left words_right : list str.
Variable lookahead : nat.

Lemma step_new_shape st :
  running words_left words_right st = true ->
  exists new,
    differences (step words_left words_right lookahead st) = differences st ++ new /\
    ((exists n1 n2, new = map Delete (seq (pos_i st) n1) ++ map Insert (seq (pos_j st) n2)) \/
     new = [Replace (pos_i st) (pos_j st)]).
Proof.
  destruct st as [i j ds]. unfold running, step. cbn [pos_i pos_j differences]. intros Hrun.
  destruct (i <? length words_left); destruct (j <? length words_right);
    cbn [andb negb orb] in *; try discriminate.
  - destruct (same_word _ _ i j).
    { exists []. rewrite app_nil_r. split; [reflexivity|]. left. exists 0, 0. reflexivity. }
    destruct (merge_check _ _ i j) as [[i' j']|].
    { exists []. rewrite app_nil_r. split; [reflexivity|]. left. exists 0, 0. reflexivity. }
    destruct (resync_delete _ _ _ i j) as [k|].
    { exists (map Delete (seq i k)). split; [reflexivity|]. left. exists k, 0.
      cbn. rewrite app_nil_r. reflexivity. }
    destruct (resync_insert _ _ _ i j) as [k|].
    { exists (map Insert (seq j k)). split; [reflexivity|]. left. exists 0, k. reflexivity. }
    destruct (resync_both _ _ _ i j) as [[k1 k2]|].
    { exists (map Delete (seq i k1) ++ map Insert (seq j k2)). split.
      - cbn [differences]. unfold emit. rewrite <- app_assoc. reflexivity.
      - left. exists k1, k2. reflexivity. }
    exists [Replace i j]. split; [reflexivity|]. right. reflexivity.
  - exists [Delete i]. split; [reflexivity|]. left. exists 1, 0. reflexivity.
  - exists [Insert j]. split; [reflexivity|]. left. exists 0, 1. reflexivity.
Qed.

End Loop.

Lemma left_indices_app ds1 ds2 : left_indices (ds1 ++ ds2) = left_indices ds1 ++ left_indices ds2.
Proof. apply omap_app. Qed.

Lemma right_indices_app ds1 ds2 :
  right_indices (ds1 ++ ds2) = right_indices ds1 ++ right_indices ds2.
Proof. apply omap_app. Qed.

Lemma left_indices_deletes i n : left_indices (map Delete (seq i n)) = seq i n.
Proof.
  revert i. induction n as [|n IH]; intros i; simpl; [reflexivity|].
  unfold left_indices in *. simpl. f_equal. apply IH.
Qed.

Lemma left_indices_inserts j n : left_indices (map Insert (seq j n)) = [].
Proof.
  revert j. induction n as [|n IH]; intros j; simpl; [reflexivity|].
  unfold left_indices in *. simpl. apply IH.
Qed.

Lemma right_indices_inserts j n : right_indices (map Insert (seq j n)) = seq j n.
Proof.
  revert j. induction n as [|n IH]; intros j; simpl; [reflexivity|].
  unfold right_indices in *. simpl. f_equal. apply IH.
Qed.

Lemma right_indices_deletes i n : right_indices (map Delete (seq i n)) = [].
Proof.
  revert i. induction n as [|n IH]; intros i; simpl; [reflexivity|].
  unfold right_indices in *. simpl. apply IH.
Qed.

Lemma seq_sorted i n : StronglySorted lt (seq i n).
Proof.
  revert i. induction n as [|n IH]; intros i; simpl; constructor; [apply IH|].
  apply Forall_forall. intros x Hx. apply list_elem_of_In, in_seq in Hx. lia.
Qed.

Lemma sorted_app (l1 l2 : list nat) :
  StronglySorted lt l1 -> StronglySorted lt l2 ->
  (forall x y, x ∈ l1 -> y ∈ l2 -> x < y) ->
  StronglySorted lt (l1 ++ l2).
Proof.
  intros H1 H2 Hlt. induction H1 as [|x l1 H1 IH Hx]; simpl; [exact H2|].
  constructor.
  - apply IH. intros a b Ha Hb. apply Hlt; [by right|exact Hb].
  - apply Forall_app. split; [exact Hx|].
    apply Forall_forall. intros y Hy. apply Hlt; [left|exact Hy].
Qed.

Lemma left_indices_within i i' j j' ds x :
  Forall (within i i' j j') ds -> x ∈ left_indices ds -> i <= x < i'.
Proof.
  intros Hw Hx. unfold left_indices in Hx. apply list_elem_of_omap in Hx.
  destruct Hx as (d & Hd & Hl). rewrite Forall_forall in Hw. apply (Hw d Hd). exact Hl.
Qed.

Lemma right_indices_within i i' j j' ds y :
  Forall (within i i' j j') ds -> y ∈ right_indices ds -> j <= y < j'.
Proof.
  intros Hw Hy. unfold right_indices in Hy. apply list_elem_of_omap in Hy.
  destruct Hy as (d & Hd & Hl). rewrite Forall_forall in Hw. apply (Hw d Hd). exact Hl.
Qed.

Lemma run_sorted words_left words_right lookahead n :
  StronglySorted lt (left_indices (differences (reached words_left words_right lookahead n))) /\
  StronglySorted lt (right_indices (differences (reached words_left words_right lookahead n))).
Proof.
  induction n as [|n IH]; [split; constructor|].
  pose proof (run_invariant words_left words_right lookahead n) as (Hi & Hj & Hold).
  unfold reached in *. replace (S n) with (n + 1) by lia. rewrite run_add.
  set (st := run words_left words_right lookahead n (State 0 0 [])) in *.
  cbn [run]. destruct (running words_left words_right st) eqn:Hr; [|exact IH].
  destruct (step_spec words_left words_right lookahead st Hr Hi Hj)
    as (new & Hd & _ & _ & _ & Hnew).
  destruct (step_new_shape words_left words_right lookahead st Hr) as (new' & Hd' & Hshape).
  assert (new' = new) by (rewrite Hd in Hd'; apply app_inv_head in Hd'; congruence).
  subst new'. rewrite Hd, left_indices_app, right_indices_app.
  destruct IH as [IHl IHr]. split.
  - apply sorted_app; [exact IHl| |].
    + destruct Hshape as [(n1 & n2 & ->)| ->].
      * rewrite left_indices_app, left_indices_deletes, left_indices_inserts, app_nil_r.
        apply seq_sorted.
      * repeat constructor.
    + intros x y Hx Hy. apply (left_indices_within _ _ _ _ _ _ Hold) in Hx.
      apply (left_indices_within _ _ _ _ _ _ Hnew) in Hy. lia.
  - apply sorted_app; [exact IHr| |].
    + destruct Hshape as [(n1 & n2 & ->)| ->].
      * rewrite right_indices_app, right_indices_deletes, right_indices_inserts.
        apply seq_sorted.
      * repeat constructor.
    + intros x y Hx Hy. apply (right_indices_within _ _ _ _ _ _ Hold) in Hx.
      apply (right_indices_within _ _ _ _ _ _ Hnew) in Hy. lia.
Qed.

(** X2. The entries come in the order of the words: the left indices
    of the result are strictly increasing, and so are the right
    indices. No word is reported twice. *)
Theorem compare_with_resync_ordered (words_left words_right : list str) :
  StronglySorted lt (left_indices (compare_with_resync words_left words_right)) /\
  StronglySorted lt (right_indices (compare_with_resync words_left words_right)).
Proof. apply run_sorted. Qed.

(** ** Words added or removed at the end *)

Lemma run_drain_right (words_left words_right : list str) lookahead n j ds :
  length words_left <= j -> j + n <= length words_right ->
  run words_left words_right lookahead n (State (length words_left) j ds)
  = State (length words_left) (j + n) (ds ++ map Insert (seq j n)).
Proof.
  revert j ds. induction n as [|n IH]; intros j ds Hlen Hj.
  - cbn. rewrite app_nil_r. f_equal. lia.
  - cbn [run]. rewrite running_right by lia.
    assert (Hstep : step words_left words_right lookahead (State (length words_left) j ds)
                    = State (length words_left) (j + 1) (ds ++ [Insert j])).
    { unfold step. cbn [pos_i pos_j differences].
      destruct (Nat.ltb_spec (length words_left) (length words_left)); [lia|].
      destruct (Nat.ltb_spec j (length words_right)); [|lia]. reflexivity. }
    rewrite Hstep. rewrite Nat.add_1_r. rewrite IH by lia.
    cbn [seq map]. rewrite <- app_assoc. f_equal. lia.
Qed.

Lemma run_drain_left (words_left words_right : list str) lookahead n i ds :
  length words_right <= i -> i + n <= length words_left ->
  run words_left words_right lookahead n (State i (length words_right) ds)
  = State (i + n) (length words_right) (ds ++ map Delete (seq i n)).
Proof.
  revert i ds. induction n as [|n IH]; intros i ds Hlen Hi.
  - cbn. rewrite app_nil_r. f_equal. lia.
  - cbn [run]. rewrite running_left by lia.
    assert (Hstep : step words_left words_right lookahead (State i (length words_right) ds)
                    = State (i + 1) (length words_right) (ds ++ [Delete i])).
    { unfold step. cbn [pos_i pos_j differences].
      destruct (Nat.ltb_spec i (length words_left)); [|lia].
      destruct (Nat.ltb_spec (length words_right) (length words_right)); [lia|].
      reflexivity. }
    rewrite Hstep. rewrite Nat.add_1_r. rewrite IH by lia.
    cbn [seq map]. rewrite <- app_assoc. f_equal. lia.
Qed.

Lemma same_word_prefix (W E : list str) k : k < length W -> same_word W (W ++ E) k k = true.
Proof.
  intros Hk. apply same_word_true.
  destruct (lookup_lt_is_Some_2 W k) as [w Hw]; [lia|].
  exists w. split; [exact Hw|]. rewrite lookup_app_l by lia. exact Hw.
Qed.

Lemma same_word_prefix_l (W E : list str) k : k < length W -> same_word (W ++ E) W k k = true.
Proof.
  intros Hk. apply same_word_true.
  destruct (lookup_lt_is_Some_2 W k) as [w Hw]; [lia|].
  exists w. split; [|exact Hw]. rewrite lookup_app_l by lia. exact Hw.
Qed.

(** X3. Words added at the end of the right list are reported as
    inserts, one for each, and nothing else is reported; words added at
    the end of the left list are reported as deletes. *)
Theorem appended_words_are_inserts (W E : list str) :
  compare_with_resync W (W ++ E) = map Insert (seq (length W) (length E)) /\
  compare_with_resync (W ++ E) W = map Delete (seq (length W) (length E)).
Proof.
  unfold compare_with_resync, compare_with_resync_at. rewrite !length_app. split.
  - replace (length W + (length W + length E))
      with (length W + (length E + length W)) by lia.
    rewrite run_add, (run_same W (W ++ E) 5 (length W) 0 0 [])
      by (intros k Hk; apply same_word_prefix; exact Hk).
    rewrite run_add. cbn [Nat.add].
    rewrite (run_drain_right W (W ++ E) 5 (length E) (length W) [])
      by (rewrite ?length_app; lia).
    rewrite run_stopped; [reflexivity|].
    unfold running. cbn [pos_i pos_j]. rewrite length_app.
    apply orb_false_intro; apply Nat.ltb_ge; lia.
  - replace (length W + length E + length W)
      with (length W + (length E + length W)) by lia.
    rewrite run_add, (run_same (W ++ E) W 5 (length W) 0 0 [])
      by (intros k Hk; apply same_word_prefix_l; exact Hk).
    rewrite run_add. cbn [Nat.add].
    rewrite (run_drain_left (W ++ E) W 5 (length E) (length W) [])
      by (rewrite ?length_app; lia).
    rewrite run_stopped; [reflexivity|].
    unfold running. cbn [pos_i pos_j]. rewrite length_app.
    apply orb_false_intro; apply Nat.ltb_ge; lia.
Qed.

(** ** One removed word *)

Section OneDelete.
Variable W : list str.
Variable p : nat.
Variable t : str.
Hypothesis p_valid : p <= length W.

Local Abbreviation W' := (insert_at p t W).

Lemma same_before_l k : k < p -> same_word W' W k k = true.
Proof.
  intros Hk. apply same_word_true.
  destruct (lookup_lt_is_Some_2 W k) as [w Hw]; [lia|].
  exists w. split; [|exact Hw]. rewrite lookup_insert_at_lt by lia. exact Hw.
Qed.

Lemma same_after_l k : p <= k -> k < length W -> same_word W' W (S k) k = true.
Proof.
  intros Hk Hlen. apply same_word_true.
  destruct (lookup_lt_is_Some_2 W k) as [w Hw]; [lia|].
  exists w. split; [|exact Hw]. rewrite lookup_insert_at_gt by lia. exact Hw.
Qed.

Lemma step_at_delete w :
  W !! p = Some w -> w <> t -> t <> [] ->
  (forall k, 1 <= k < min 5 (length W - p) -> join (slice W p (k + 1)) <> t) ->
  step W' W 5 (State p p []) = State (p + 1) p [Delete p].
Proof.
  intros Hw Hne Ht Hjoin.
  pose proof (lookup_lt_Some _ _ _ Hw) as Hpl.
  assert (Ht' : W' !! p = Some t) by (apply lookup_insert_at_eq; lia).
  unfold step. cbn [pos_i pos_j differences]. rewrite length_insert_at.
  destruct (Nat.ltb_spec p (length W)); [|lia].
  destruct (Nat.ltb_spec p (S (length W))); [|lia].
  cbn [negb andb].
  assert (Hsame : same_word W' W p p = false).
  { unfold same_word. rewrite Hw, Ht'. apply bool_decide_eq_false_2. congruence. }
  rewrite Hsame.
  assert (Hmerge : merge_check W' W p p = None).
  { unfold merge_check.
    rewrite (word_len_lookup _ _ _ Hw), (word_len_lookup _ _ _ Ht').
    destruct (Nat.ltb_spec (length t) (length w)).
    - rewrite first_in_range_None; [reflexivity|].
      intros k Hk. unfold joined_is. rewrite Hw.
      apply bool_decide_eq_false_2. intros Heq.
      assert (Hnext : W' !! S p = Some w) by (rewrite lookup_insert_at_gt by lia; exact Hw).
      destruct k as [|k]; [lia|].
      rewrite Nat.add_1_r, (slice_cons _ _ _ _ Ht'), (slice_cons _ _ _ _ Hnext) in Heq.
      unfold join in Heq. simpl in Heq.
      apply (f_equal length) in Heq. rewrite !length_app in Heq.
      destruct t; [congruence|]. simpl in Heq. lia.
    - destruct (Nat.ltb_spec (length w) (length t)); [|reflexivity].
      rewrite first_in_range_None; [reflexivity|].
      intros k Hk. unfold joined_is. rewrite Ht'.
      apply bool_decide_eq_false_2. apply Hjoin. lia. }
  rewrite Hmerge.
  assert (Hdel : resync_delete W' W 5 p p = Some 1).
  { unfold resync_delete. rewrite length_insert_at.
    destruct (first_in_range_hit 1 (min (5 + 1) (S (length W) - p))
                (fun k => same_word W' W (p + k) p) 1) as (k' & Hf & Hk'); [lia| |].
    - rewrite Nat.add_1_r. apply same_after_l; lia.
    - rewrite Hf. f_equal. lia. }
  rewrite Hdel. reflexivity.
Qed.

Lemma step_at_end_l : p = length W -> step W' W 5 (State p p []) = State (p + 1) p [Delete p].
Proof.
  intros ->. unfold step. cbn [pos_i pos_j differences].
  rewrite length_insert_at.
  destruct (Nat.ltb_spec (length W) (S (length W))); [|lia].
  destruct (Nat.ltb_spec (length W) (length W)); [lia|].
  reflexivity.
Qed.

Lemma run_after_delete_step :
  step W' W 5 (State p p []) = State (p + 1) p [Delete p] ->
  compare_with_resync W' W = [Delete p].
Proof.
  intros Hstep. unfold compare_with_resync, compare_with_resync_at.
  rewrite length_insert_at.
  replace (S (length W) + length W) with (p + (1 + ((length W - p) + length W))) by lia.
  rewrite run_add.
  rewrite (run_same W' W 5 p 0 0 []) by (intros k Hk; apply same_before_l; exact Hk).
  rewrite run_add. cbn [run Nat.add].
  rewrite running_left by (rewrite length_insert_at; lia).
  rewrite Hstep. rewrite run_add.
  rewrite (run_same W' W 5 (length W - p) (p + 1) p [Delete p]).
  - rewrite run_stopped; [reflexivity|].
    unfold running. cbn [pos_i pos_j]. rewrite length_insert_at.
    apply orb_false_intro; apply Nat.ltb_ge; lia.
  - intros k Hk. rewrite (Nat.add_comm p 1). apply same_after_l; lia.
Qed.

End OneDelete.

(** X4. One word [t] more on the left, at position [p], is reported
    as the single entry delete [p], when [t] is not empty, differs from
    the word of [W] at [p], and is not the concatenation of two to five
    words of [W] from [p] on. *)
Theorem single_delete_one_entry (W : list str) (p : nat) (t : str) :
  p <= length W ->
  t <> [] ->
  W !! p <> Some t ->
  (forall k, 1 <= k < min 5 (length W - p) -> join (slice W p (k + 1)) <> t) ->
  compare_with_resync (insert_at p t W) W = [Delete p].
Proof.
  intros Hp Ht Hhere Hjoin. apply run_after_delete_step; [exact Hp|].
  destruct (W !! p) as [w|] eqn:Hw.
  - apply (step_at_delete W p t Hp w Hw); try assumption. congruence.
  - apply lookup_ge_None in Hw. apply step_at_end_l; lia.
Qed.

(** An instance: [특약] is on the left only, at position 1. *)
Lemma single_delete_one_entry_witness :
  compare_with_resync (insert_at 1 (utf8 "특약") plain_words) plain_words = [Delete 1].
Proof.
  apply single_delete_one_entry.
  - vm_compute. lia.
  - discriminate.
  - vm_compute. discriminate.
  - intros k Hk. assert (k = 1) as -> by (vm_compute in Hk; lia).
    vm_compute. discriminate.
Defined.

(** ** One changed word *)

Lemma resync_both_next (words_left words_right : list str) i j :
  i + 1 < length words_left -> j + 1 < length words_right ->
  same_word words_left words_right (i + 1) (j + 1) = true ->
  resync_both words_left words_right 5 i j = Some (1, 1).
Proof.
  intros Hi Hj Hsame. unfold resync_both.
  set (g := fun (k1 : nat) (best : option (nat * nat)) (k2 : nat) =>
              if same_word words_left words_right (i + k1) (j + k2) then
                match best with
                | Some (b1, b2) => if k1 + k2 <? b1 + b2 then Some (k1, k2) else best
                | None => Some (k1, k2)
                end
              else best).
  change (fold_left (fun best k1 =>
            fold_left (g k1) (seq 1 (min (5 + 1) (length words_right - j) - 1)) best)
            (seq 1 (min (5 + 1) (length words_left - i) - 1)) None = Some (1, 1)).
  assert (Hkeep : forall k1 l, (forall k2, k2 ∈ l -> 2 <= k1 + k2) ->
            fold_left (g k1) l (Some (1, 1)) = Some (1, 1)).
  { intros k1 l Hl. apply (fold_left_inv (fun best => best = Some (1, 1))); [reflexivity|].
    intros best k2 -> Hk2. apply Hl in Hk2. unfold g.
    destruct (same_word words_left words_right (i + k1) (j + k2)); [|reflexivity].
    destruct (Nat.ltb_spec (k1 + k2) (1 + 1)); [lia|reflexivity]. }
  remember (min (5 + 1) (length words_left - i) - 1) as n1 eqn:E1.
  remember (min (5 + 1) (length words_right - j) - 1) as n2 eqn:E2.
  destruct n1 as [|m1]; [lia|]. destruct n2 as [|m2]; [lia|].
  change (seq 1 (S m1)) with (1 :: seq 2 m1).
  cbn [fold_left].
  assert (Hfirst : fold_left (g 1) (seq 1 (S m2)) None = Some (1, 1)).
  { change (seq 1 (S m2)) with (1 :: seq 2 m2). cbn [fold_left].
    unfold g at 2. rewrite Hsame. apply Hkeep.
    intros k2 Hk2. apply list_elem_of_In, in_seq in Hk2. lia. }
  rewrite Hfirst.
  apply (fold_left_inv (fun best => best = Some (1, 1))); [reflexivity|].
  intros best k1 -> Hk1. apply list_elem_of_In, in_seq in Hk1.
  apply Hkeep. intros k2 Hk2. apply list_elem_of_In, in_seq in Hk2. lia.
Qed.

(** X5. When the two lists differ in their last word only, the
    result is the single entry replace, at that position. *)
Theorem last_word_changed_is_replace (W : list str) (w t : str) :
  w <> t ->
  compare_with_resync (W ++ [w]) (W ++ [t]) = [Replace (length W) (length W)].
Proof.
  intros Hne. unfold compare_with_resync, compare_with_resync_at.
  rewrite !length_app. cbn [length].
  replace (length W + 1 + (length W + 1)) with (length W + (1 + (length W + 1))) by lia.
  rewrite run_add.
  rewrite (run_same (W ++ [w]) (W ++ [t]) 5 (length W) 0 0 []).
  2:{ intros k Hk. apply same_word_true.
      destruct (lookup_lt_is_Some_2 W k) as [x Hx]; [lia|].
      exists x. rewrite !lookup_app_l by lia. auto. }
  rewrite run_add. cbn [run Nat.add].
  rewrite running_left by (rewrite length_app; cbn; lia).
  assert (Hl : (W ++ [w]) !! length W = Some w).
  { rewrite lookup_app_r by lia. rewrite Nat.sub_diag. reflexivity. }
  assert (Hr : (W ++ [t]) !! length W = Some t).
  { rewrite lookup_app_r by lia. rewrite Nat.sub_diag. reflexivity. }
  assert (Hstep : step (W ++ [w]) (W ++ [t]) 5 (State (length W) (length W) [])
                  = State (length W + 1) (length W + 1) [Replace (length W) (length W)]).
  { unfold step. cbn [pos_i pos_j differences]. rewrite !length_app. cbn [length].
    destruct (Nat.ltb_spec (length W) (length W + 1)); [|lia]. cbn [negb andb].
    unfold same_word. rewrite Hl, Hr. rewrite bool_decide_eq_false_2 by exact Hne.
    assert (Hm : merge_check (W ++ [w]) (W ++ [t]) (length W) (length W) = None).
    { unfold merge_check. rewrite !length_app. cbn [length].
      replace (length W + 1 - length W) with 1 by lia.
      destruct (_ <? _); [reflexivity|]. destruct (_ <? _); reflexivity. }
    rewrite Hm. unfold resync_delete, resync_insert, resync_both.
    rewrite !length_app. cbn [length].
    replace (length W + 1 - length W) with 1 by lia. reflexivity. }
  rewrite Hstep. rewrite run_stopped; [reflexivity|].
  unfold running. cbn [pos_i pos_j]. rewrite !length_app. cbn [length].
  apply orb_false_intro; apply Nat.ltb_ge; lia.
Qed.

(** An instance: the last of three words differs. *)
Lemma last_word_changed_is_replace_witness :
  compare_with_resync (two_words ++ [utf8 "10년"]) (two_words ++ [utf8 "20년"])
  = [Replace 2 2].
Proof.
  apply (last_word_changed_is_replace two_words (utf8 "10년") (utf8 "20년")).
  vm_compute. discriminate.
Defined.

(** X6. A word changed before the end of the lists is reported as a
    delete followed by an insert, not as a replace: the look-ahead on
    both sides finds the next word, which is equal, at distance one.
    This holds for words of equal length (the merge check is skipped)
    when neither word is among the next five words. *)
Theorem inner_word_changed_is_delete_insert (pre post : list str) (w t : str) :
  w <> t ->
  length w = length t ->
  post <> [] ->
  (forall k, k < 5 -> post !! k <> Some t /\ post !! k <> Some w) ->
  compare_with_resync (pre ++ w :: post) (pre ++ t :: post)
  = [Delete (length pre); Insert (length pre)].
Proof.
  intros Hne Hlen Hpost Hfar.
  set (p := length pre).
  assert (Hl : (pre ++ w :: post) !! p = Some w).
  { rewrite lookup_app_r by (unfold p; lia). unfold p. rewrite Nat.sub_diag. reflexivity. }
  assert (Hr : (pre ++ t :: post) !! p = Some t).
  { rewrite lookup_app_r by (unfold p; lia). unfold p. rewrite Nat.sub_diag. reflexivity. }
  assert (Hl' : forall k, (pre ++ w :: post) !! (p + S k) = post !! k).
  { intros k. rewrite lookup_app_r by (unfold p; lia).
    replace (p + S k - length pre) with (S k) by (unfold p; lia). reflexivity. }
  assert (Hr' : forall k, (pre ++ t :: post) !! (p + S k) = post !! k).
  { intros k. rewrite lookup_app_r by (unfold p; lia).
    replace (p + S k - length pre) with (S k) by (unfold p; lia). reflexivity. }
  assert (Hll : length (pre ++ w :: post) = p + S (length post)).
  { rewrite length_app. reflexivity. }
  assert (Hlr : length (pre ++ t :: post) = p + S (length post)).
  { rewrite length_app. reflexivity. }
  assert (Hpl : 0 < length post) by (destruct post; [congruence|simpl; lia]).
  assert (Hstep : step (pre ++ w :: post) (pre ++ t :: post) 5 (State p p [])
                  = State (p + 1) (p + 1) [Delete p; Insert p]).
  { unfold step. cbn [pos_i pos_j differences]. rewrite Hll, Hlr.
    destruct (Nat.ltb_spec p (p + S (length post))); [|lia]. cbn [negb andb].
    assert (Hs : same_word (pre ++ w :: post) (pre ++ t :: post) p p = false).
    { unfold same_word. rewrite Hl, Hr. apply bool_decide_eq_false_2. exact Hne. }
    rewrite Hs.
    assert (Hm : merge_check (pre ++ w :: post) (pre ++ t :: post) p p = None).
    { unfold merge_check.
      rewrite (word_len_lookup _ _ _ Hl), (word_len_lookup _ _ _ Hr), Hlen.
      rewrite Nat.ltb_irrefl. reflexivity. }
    rewrite Hm.
    assert (Hd : resync_delete (pre ++ w :: post) (pre ++ t :: post) 5 p p = None).
    { unfold resync_delete. apply first_in_range_None. intros k Hk.
      destruct k as [|k]; [lia|]. unfold same_word. rewrite Hl', Hr.
      destruct (post !! k) as [x|] eqn:Hx; [|reflexivity].
      apply bool_decide_eq_false_2. intros ->.
      destruct (Hfar k) as [Hf _]; [lia|]. congruence. }
    rewrite Hd.
    assert (Hi : resync_insert (pre ++ w :: post) (pre ++ t :: post) 5 p p = None).
    { unfold resync_insert. apply first_in_range_None. intros k Hk.
      destruct k as [|k]; [lia|]. unfold same_word. rewrite Hl, Hr'.
      destruct (post !! k) as [x|] eqn:Hx; [|reflexivity].
      apply bool_decide_eq_false_2. intros <-.
      destruct (Hfar k) as [_ Hf]; [lia|]. congruence. }
    rewrite Hi.
    rewrite resync_both_next; [reflexivity|lia|lia|].
    apply same_word_true. destruct (lookup_lt_is_Some_2 post 0 Hpl) as [x Hx].
    exists x. rewrite Hl', Hr'. auto. }
  unfold compare_with_resync, compare_with_resync_at. rewrite Hll, Hlr.
  replace (p + S (length post) + (p + S (length post)))
    with (p + (1 + (length post + (p + S (length post))))) by lia.
  rewrite run_add.
  rewrite (run_same _ _ 5 p 0 0 []).
  2:{ intros k Hk. apply same_word_true.
      destruct (lookup_lt_is_Some_2 pre k) as [x Hx]; [unfold p in Hk; lia|].
      exists x. rewrite !lookup_app_l by (unfold p in Hk; lia). auto. }
  rewrite run_add. cbn [run Nat.add].
  rewrite running_left by lia. rewrite Hstep. rewrite run_add.
  rewrite (run_same _ _ 5 (length post) (p + 1) (p + 1) [Delete p; Insert p]).
  - rewrite run_stopped; [reflexivity|].
    unfold running. cbn [pos_i pos_j]. rewrite Hll, Hlr.
    apply orb_false_intro; apply Nat.ltb_ge; lia.
  - intros k Hk. apply same_word_true.
    destruct (lookup_lt_is_Some_2 post k Hk) as [x Hx].
    exists x. replace (p + 1 + k) with (p + S k) by lia. rewrite Hl', Hr'. auto.
Qed.

(** An instance: the middle one of three words differs. *)
Lemma inner_word_changed_is_delete_insert_witness :
  compare_with_resync (words ["가입"; "10년"; "만기"]) (words ["가입"; "20년"; "만기"])
  = [Delete 1; Insert 1].
Proof.
  apply (inner_word_changed_is_delete_insert (words ["가입"]) (words ["만기"])
           (utf8 "10년") (utf8 "20년")).
  - vm_compute. discriminate.
  - reflexivity.
  - discriminate.
  - intros k Hk. destruct k as [|k]; [split; vm_compute; discriminate|].
    split; discriminate.
Defined.

(** ** A silent result *)

Lemma take_add_slice (ws : list str) i n : take (i + n) ws = take i ws ++ slice ws i n.
Proof.
  unfold slice. revert ws. induction i as [|i IH]; intros ws; [reflexivity|].
  destruct ws as [|w ws]; [simpl; rewrite !take_nil; reflexivity|]. simpl. f_equal. apply IH.
Qed.

Lemma join_app (xs ys : list str) : join (xs ++ ys) = join xs ++ join ys.
Proof. unfold join. apply concat_app. Qed.

Lemma join_take_S (ws : list str) i w :
  ws !! i = Some w -> join (take (i + 1) ws) = join (take i ws) ++ w.
Proof.
  intros H. rewrite Nat.add_1_r, (take_S_r _ _ _ H), join_app.
  unfold join. simpl. rewrite app_nil_r. reflexivity.
Qed.

Lemma app_eq_self {A} (l new : list A) : l ++ new = l -> new = [].
Proof.
  intros H. apply (f_equal length) in H. rewrite length_app in H.
  destruct new; [reflexivity|simpl in H; lia].
Qed.

Section Silent.
Variables words_left words_right : list str.
Variable lookahead : nat.

Local Abbreviation step := (Aligner.step words_left words_right lookahead).
Local Abbreviation run := (Aligner.run words_left words_right lookahead).
Local Abbreviation running := (Aligner.running words_left words_right).

Lemma step_silent st :
  running st = true ->
  differences (step st) = differences st ->
  exists x,
    join (take (pos_i (step st)) words_left) = join (take (pos_i st) words_left) ++ x /\
    join (take (pos_j (step st)) words_right) = join (take (pos_j st) words_right) ++ x.
Proof.
  destruct st as [i j ds]. unfold Aligner.running, Aligner.step. cbn [pos_i pos_j differences].
  intros Hrun.
  destruct (Nat.ltb_spec i (length words_left)) as [Hil|Hil];
    destruct (Nat.ltb_spec j (length words_right)) as [Hjl|Hjl];
    cbn [negb andb orb] in *; try discriminate.
  - destruct (same_word words_left words_right i j) eqn:Hs.
    { intros _. apply same_word_true in Hs. destruct Hs as (w & Hl & Hr).
      exists w. cbn [pos_i pos_j]. split; apply join_take_S; assumption. }
    destruct (merge_check words_left words_right i j) as [[i' j']|] eqn:Hm.
    { intros _. cbn [pos_i pos_j].
      destruct (merge_check_bounds _ _ _ _ _ _ Hm)
        as [(-> & Hi' & _ & Hw)|(-> & Hj' & _ & Hw)].
      - exists (join (slice words_left i (i' - i))). split.
        + replace i' with (i + (i' - i)) at 1 by lia.
          rewrite take_add_slice, join_app. reflexivity.
        + apply join_take_S. exact Hw.
      - exists (join (slice words_right j (j' - j))). split.
        + apply join_take_S. exact Hw.
        + replace j' with (j + (j' - j)) at 1 by lia.
          rewrite take_add_slice, join_app. reflexivity. }
    destruct (resync_delete words_left words_right lookahead i j) as [k|] eqn:Hd.
    { cbn [differences]. unfold emit. intros H%app_eq_self.
      apply first_in_range_Some in Hd. destruct k; [lia|discriminate]. }
    destruct (resync_insert words_left words_right lookahead i j) as [k|] eqn:Hin.
    { cbn [differences]. unfold emit. intros H%app_eq_self.
      apply first_in_range_Some in Hin. destruct k; [lia|discriminate]. }
    destruct (resync_both words_left words_right lookahead i j) as [[k1 k2]|] eqn:Hb.
    { cbn [differences]. unfold emit. rewrite <- app_assoc. intros H%app_eq_self.
      apply resync_both_bounds in Hb. destruct k1; [lia|discriminate]. }
    cbn [differences]. intros H%app_eq_self. discriminate.
  - cbn [differences]. intros H%app_eq_self. discriminate.
  - cbn [differences]. intros H%app_eq_self. discriminate.
Qed.

Lemma run_silent fuel st :
  pos_i st <= length words_left -> pos_j st <= length words_right ->
  differences (run fuel st) = differences st ->
  exists x,
    join (take (pos_i (run fuel st)) words_left) = join (take (pos_i st) words_left) ++ x /\
    join (take (pos_j (run fuel st)) words_right) = join (take (pos_j st) words_right) ++ x.
Proof.
  revert st. induction fuel as [|fuel IH]; intros st Hi Hj; cbn [Aligner.run].
  - intros _. exists []. rewrite !app_nil_r. auto.
  - destruct (running st) eqn:Hr.
    2:{ intros _. exists []. rewrite !app_nil_r. auto. }
    destruct (step_spec words_left words_right lookahead st Hr Hi Hj) as (new1 & Hd1 & Hi' & Hj' & _ & _).
    destruct (run_diffs words_left words_right lookahead fuel (step st))
      as (new2 & Hd2 & _); [lia..|].
    intros Hsame. rewrite Hd2, Hd1, <- app_assoc in Hsame.
    apply app_eq_self, app_eq_nil in Hsame. destruct Hsame as [-> ->].
    rewrite app_nil_r in Hd1, Hd2. rewrite Hd1 in Hd2.
    destruct (step_silent st Hr Hd1) as (x1 & Hl1 & Hr1).
    destruct (IH (step st)) as (x2 & Hl2 & Hr2); [lia|lia|congruence|].
    exists (x1 ++ x2). rewrite Hl2, Hr2, Hl1, Hr1, !app_assoc. auto.
Qed.

End Silent.

(** X7. An empty result means equal text: when no entry is reported,
    the words of the two lists, concatenated without a separator, give
    the same string. (The lists need not be equal: the merge check
    passes a word that the other side has in pieces.) *)
Theorem no_difference_same_text (words_left words_right : list str) :
  compare_with_resync words_left words_right = [] ->
  join words_left = join words_right.
Proof.
  unfold compare_with_resync, compare_with_resync_at. intros Hnone.
  set (n := length words_left + length words_right) in *.
  pose proof (run_finishes words_left words_right 5 n (State 0 0 [])) as Hstop.
  cbn [pos_i pos_j] in Hstop. specialize (Hstop ltac:(lia) ltac:(lia) ltac:(unfold n; lia)).
  pose proof (run_invariant words_left words_right 5 n) as (Hi & Hj & _).
  unfold reached in Hi, Hj.
  destruct (run_silent words_left words_right 5 n (State 0 0 [])) as (x & Hl & Hr).
  { cbn; lia. } { cbn; lia. } { exact Hnone. }
  unfold running in Hstop. apply orb_false_elim in Hstop. destruct Hstop as [H1 H2].
  apply Nat.ltb_ge in H1, H2.
  rewrite firstn_all2 in Hl by lia. rewrite firstn_all2 in Hr by lia.
  cbn [pos_i pos_j take] in Hl, Hr. simpl in Hl, Hr. congruence.
Qed.

(** An instance: [보험] and [기간] on the left, [보험기간] on the right. *)
Lemma no_difference_same_text_witness :
  compare_with_resync split_words joined_words = [] /\
  join split_words = join joined_words.
Proof.
  split; [reflexivity|]. apply (no_difference_same_text split_words joined_words).
  reflexivity.
Defined.

End AlignerLaws.

Module RegionLaws.
Import Region.

Lemma min2_le_l a b : (min2 a b <= a)%Q.
Proof.
  unfold min2. destruct (Qltb b a) eqn:E; [|apply Qle_refl].
  apply Qltb_lt in E. apply Qlt_le_weak. exact E.
Qed.

Lemma min2_le_r a b : (min2 a b <= b)%Q.
Proof.
  unfold min2. destruct (Qltb b a) eqn:E; [apply Qle_refl|].
  apply Qltb_ge in E. exact E.
Qed.

Lemma max2_ge_l a b : (a <= max2 a b)%Q.
Proof.
  unfold max2. destruct (Qltb a b) eqn:E; [|apply Qle_refl].
  apply Qltb_lt in E. apply Qlt_le_weak. exact E.
Qed.

Lemma max2_ge_r a b : (b <= max2 a b)%Q.
Proof.
  unfold max2. destruct (Qltb a b) eqn:E; [apply Qle_refl|].
  apply Qltb_ge in E. exact E.
Qed.

Lemma inside_refl box : inside box box.
Proof. destruct box as [[[x0 y0] x1] y1]. cbn. repeat split; apply Qle_refl. Qed.

Lemma inside_trans a b c : inside a b -> inside b c -> inside a c.
Proof.
  destruct a as [[[a0 a1] a2] a3], b as [[[b0 b1] b2] b3], c as [[[c0 c1] c2] c3]. cbn.
  intros (? & ? & ? & ?) (? & ? & ? & ?). repeat split; lra.
Qed.

(** A turn keeps the pages, widens the box of the word's page to hold
    the word, and leaves the other pages alone. *)
Lemma region_step_spec m w :
  (exists box, region_step m w !! page w = Some box /\ inside (bbox w) box) /\
  (forall p old, m !! p = Some old ->
     exists box, region_step m w !! p = Some box /\ inside old box) /\
  (forall p, p <> page w -> region_step m w !! p = m !! p).
Proof.
  unfold region_step. destruct (bbox w) as [[[x0 y0] x1] y1] eqn:Ebox.
  destruct (m !! page w) as [[[[bx0 by0] bx1] by1]|] eqn:E.
  - assert (Hw : inside (x0, y0, x1, y1) (min2 bx0 x0, min2 by0 y0, max2 bx1 x1, max2 by1 y1)).
    { cbn. repeat split; [apply min2_le_r|apply min2_le_r|apply max2_ge_r|apply max2_ge_r]. }
    assert (Hold : inside (bx0, by0, bx1, by1)
                          (min2 bx0 x0, min2 by0 y0, max2 bx1 x1, max2 by1 y1)).
    { cbn. repeat split; [apply min2_le_l|apply min2_le_l|apply max2_ge_l|apply max2_ge_l]. }
    split; [|split].
    + eexists. rewrite lookup_insert_eq. split; [reflexivity|exact Hw].
    + intros p old Hp. destruct (decide (p = page w)) as [->|Hne].
      * rewrite E in Hp. injection Hp as <-. eexists. rewrite lookup_insert_eq.
        split; [reflexivity|exact Hold].
      * exists old. rewrite lookup_insert_ne by congruence. split; [exact Hp|apply inside_refl].
    + intros p Hne. apply lookup_insert_ne. congruence.
  - split; [|split].
    + eexists. rewrite lookup_insert_eq. split; [reflexivity|apply inside_refl].
    + intros p old Hp. destruct (decide (p = page w)) as [->|Hne]; [congruence|].
      exists old. rewrite lookup_insert_ne by congruence. split; [exact Hp|apply inside_refl].
    + intros p Hne. apply lookup_insert_ne. congruence.
Qed.

Lemma region_fold_keeps word_info m p old :
  m !! p = Some old ->
  exists box, fold_left region_step word_info m !! p = Some box /\ inside old box.
Proof.
  revert m old. induction word_info as [|w ws IH]; intros m old Hp; cbn [fold_left].
  - exists old. split; [exact Hp|apply inside_refl].
  - destruct (region_step_spec m w) as (_ & Hkeep & _).
    destruct (Hkeep p old Hp) as (box1 & H1 & Hin1).
    destruct (IH _ _ H1) as (box & H & Hin). exists box. split; [exact H|].
    eapply inside_trans; eassumption.
Qed.

Lemma region_fold_pages word_info m p :
  fold_left region_step word_info m !! p = None <->
  m !! p = None /\ Forall (fun w => page w <> p) word_info.
Proof.
  revert m. induction word_info as [|w ws IH]; intros m; cbn [fold_left].
  - split; [intros H; split; [exact H|constructor]|intros [H _]; exact H].
  - rewrite IH. destruct (region_step_spec m w) as ((box & Hw & _) & Hkeep & Hother). split.
    + intros [Hnone Hall]. assert (Hne : page w <> p) by (intros <-; congruence).
      split; [|constructor; assumption]. rewrite <- Hother by congruence. exact Hnone.
    + intros [Hnone Hall]. apply Forall_cons in Hall. destruct Hall as [Hne Hall].
      split; [|exact Hall]. rewrite Hother by congruence. exact Hnone.
Qed.

(** X8. The region highlighted on a page holds the box of every
    selected word of that page, and a page gets a region exactly when a
    selected word lies on it. *)
Theorem compare_region_encloses (word_info : list word) :
  Forall (fun w => exists box, compare_region word_info !! page w = Some box /\
                               inside (bbox w) box) word_info /\
  forall p, compare_region word_info !! p = None <->
            Forall (fun w => page w <> p) word_info.
Proof.
  unfold compare_region. split.
  - generalize (∅ : gmap nat (Q * Q * Q * Q)).
    induction word_info as [|w ws IH]; intros m; [constructor|].
    cbn [fold_left]. constructor; [|apply IH].
    destruct (region_step_spec m w) as ((box1 & H1 & Hin1) & _ & _).
    destruct (region_fold_keeps ws _ _ _ H1) as (box & H & Hin).
    exists box. split; [exact H|]. eapply inside_trans; eassumption.
  - intros p. rewrite region_fold_pages. rewrite lookup_empty. split; [intros [_ H]; exact H|auto].
Qed.

End RegionLaws.

Module NormalizerLaws.
Import PyStr PyStrFacts Normalizer NormalizerFacts.

(** ** The form of a normalized word *)


(** ** Commas *)

Lemma replace_single_filter c s : replace [c] [] s = filter (fun x => x <> c) s.
Proof.
  unfold replace. induction s as [|x s IH]; simpl; [reflexivity|].
  rewrite andb_true_r. destruct (N.eqb_spec c x) as [->|Hne].
  - rewrite filter_cons_False by (intros H; apply H; reflexivity). simpl. exact IH.
  - rewrite filter_cons_True by congruence. f_equal. exact IH.
Qed.

(** X10. On a text without 조, 억 and 만, [normalize_korean_number]
    removes the commas and nothing else. *)
Theorem plain_number_loses_commas (text : str) :
  (forall um, um ∈ units -> um.1 ∉ text) ->
  normalize_korean_number text = filter (fun c => c <> 0x2C%N) text.
Proof.
  intros Hunits. unfold normalize_korean_number.
  assert (E : fold_left expand_unit units text = text).
  { revert Hunits. generalize units. intros l. induction l as [|um l IH]; intros Hl; simpl.
    - reflexivity.
    - rewrite expand_unit_absent by (apply Hl; left). apply IH.
      intros um' Hum'. apply Hl. by right. }
  rewrite E. apply replace_single_filter.
Qed.

(** An instance: the example of the docstring. *)
Lemma plain_number_loses_commas_witness :
  normalize_korean_number (utf8 "10,000,000") = utf8 "10000000".
Proof.
  apply (plain_number_loses_commas (utf8 "10,000,000")).
  intros um Hum. unfold units in Hum.
  repeat (apply elem_of_cons in Hum as [->|Hum]; [by_decision|]).
  apply elem_of_nil in Hum. destruct Hum.
Defined.

(** ** [split_by_comma] *)

Lemma split_no_sep sep s : Forall (fun part => sep ∉ part) (split sep s).
Proof.
  induction s as [|c s IH]; simpl.
  - constructor; [apply not_elem_of_nil|constructor].
  - destruct (N.eqb_spec c sep) as [->|Hne].
    + constructor; [apply not_elem_of_nil|exact IH].
    + destruct (split sep s) as [|h t].
      { constructor; [|constructor]. apply not_elem_of_cons.
        split; [congruence|apply not_elem_of_nil]. }
      apply Forall_cons in IH as [Hh Ht]. constructor; [|exact Ht].
      apply not_elem_of_cons. split; [congruence|exact Hh].
Qed.

Lemma split_absent sep s : sep ∉ s -> split sep s = [s].
Proof.
  induction s as [|c s IH]; intros Hs; simpl; [reflexivity|].
  apply not_elem_of_cons in Hs. destruct Hs as [Hc Hs].
  destruct (N.eqb_spec c sep); [congruence|]. rewrite IH by exact Hs. reflexivity.
Qed.

(** X11. [split_by_comma] never returns an empty list: it returns the
    word itself, alone, or parts that are not empty, hold no comma and
    have no white space at either end. *)
Theorem split_by_comma_parts (word : str) :
  split_by_comma word <> [] /\
  (split_by_comma word = [word] \/
   Forall (fun part => part <> [] /\ (0x2C%N ∉ part) /\ strip part = part)
          (split_by_comma word)).
Proof.
  unfold split_by_comma.
  set (result := filter (fun part => part <> []) (map strip (split 0x2C%N word))).
  assert (Hall : Forall (fun part => part <> [] /\ (0x2C%N ∉ part) /\ strip part = part) result).
  { apply Forall_forall. intros part Hin. unfold result in Hin.
    apply list_elem_of_filter in Hin. destruct Hin as [Hne Hin].
    apply list_elem_of_fmap in Hin. destruct Hin as (raw & -> & Hraw).
    split; [exact Hne|]. split; [|apply strip_idem].
    pose proof (split_no_sep 0x2C%N word) as Hsep. rewrite Forall_forall in Hsep.
    specialize (Hsep raw Hraw). intros Hin.
    assert (Hf : Forall (fun c => c <> 0x2C%N) (strip raw)).
    { apply Forall_strip. apply Forall_forall. intros c Hc ->. contradiction. }
    rewrite Forall_forall in Hf. apply (Hf _ Hin). reflexivity. }
  destruct result as [|part rest]; [split; [discriminate|left; reflexivity]|].
  split; [discriminate|right; exact Hall].
Qed.

(** X12. A word without a comma gives one part: the word without the
    white space around it, or the word as it is when nothing but white
    space is in it. *)
Theorem split_by_comma_no_comma (word : str) :
  0x2C%N ∉ word ->
  split_by_comma word = [if bool_decide (strip word = []) then word else strip word].
Proof.
  intros Hc. unfold split_by_comma. rewrite (split_absent _ _ Hc). simpl.
  destruct (decide (strip word = [])) as [E|E].
  - rewrite bool_decide_eq_true_2 by exact E.
    rewrite filter_cons_False by (intros H; apply H; exact E). reflexivity.
  - rewrite bool_decide_eq_false_2 by exact E.
    rewrite filter_cons_True by exact E. reflexivity.
Qed.

(** An instance: a word between two spaces. *)
Lemma split_by_comma_no_comma_witness :
  split_by_comma (utf8 " 보험료 ") = [utf8 "보험료"].
Proof.
  apply (split_by_comma_no_comma (utf8 " 보험료 ")).
  by_decision.
Defined.

(** ** The expansion of a unit *)

Lemma search_number_unit_digits unit run digits :
  Forall (fun c => is_ascii_digit c = true) digits ->
  is_number_char unit = false ->
  run ++ digits <> [] ->
  search_number_unit unit run (digits ++ [unit]) = Some (run ++ digits).
Proof.
  intros Hd Hu. revert run. induction Hd as [|c digits Hc Hd IH]; intros run Hne; simpl.
  - rewrite Hu, N.eqb_refl. rewrite app_nil_r in *.
    rewrite bool_decide_eq_false_2 by exact Hne. reflexivity.
  - unfold is_number_char at 1. rewrite Hc. simpl.
    rewrite IH; rewrite <- app_assoc; [reflexivity|exact Hne].
Qed.

Lemma replace_from_skip old new k s : length s <= k -> replace_from old new k s = [].
Proof.
  revert k. induction s as [|c s IH]; intros k Hk; simpl; [reflexivity|].
  destruct k as [|k]; [simpl in Hk; lia|]. apply IH. simpl in Hk. lia.
Qed.

Lemma startswith_refl s : startswith s s = true.
Proof. induction s as [|c s IH]; simpl; [reflexivity|]. rewrite N.eqb_refl. exact IH. Qed.

Lemma replace_whole old new : old <> [] -> replace old new old = new.
Proof.
  destruct old as [|c old]; [congruence|]. intros _. unfold replace.
  cbn [replace_from]. rewrite startswith_refl.
  rewrite replace_from_skip by (simpl; lia). apply app_nil_r.
Qed.

Lemma uint_digits_digits d : Forall (fun c => is_ascii_digit c = true) (uint_digits d).
Proof. induction d; simpl; constructor; try reflexivity; assumption. Qed.

Lemma int_Some_digits s n : int s = Some n -> Forall (fun c => is_ascii_digit c = true) s /\ s <> [].
Proof.
  unfold int. destruct (forallb is_ascii_digit s) eqn:Hd; [|discriminate].
  destruct (decide (s = [])) as [->|Hne]; [discriminate|].
  intros _. split; [|exact Hne]. apply Forall_forall. intros c Hc.
  rewrite forallb_forall in Hd. apply Hd. apply list_elem_of_In. exact Hc.
Qed.

Lemma digits_without c s :
  is_ascii_digit c = false -> Forall (fun x => is_ascii_digit x = true) s -> c ∉ s.
Proof.
  intros Hc Hs Hin. rewrite Forall_forall in Hs. apply Hs in Hin. congruence.
Qed.

Lemma expand_unit_here digits unit multiplier n :
  is_number_char unit = false ->
  int digits = Some n ->
  expand_unit (digits ++ [unit]) (unit, multiplier) = str_of_int (n * multiplier).
Proof.
  intros Hu Hint. destruct (int_Some_digits _ _ Hint) as [Hd Hne].
  unfold expand_unit.
  assert (Hc : contains [unit] (digits ++ [unit]) = true).
  { apply contains_single. set_solver. }
  rewrite Hc. rewrite (search_number_unit_digits unit [] digits Hd Hu) by exact Hne.
  cbn [app]. rewrite replace_absent by (apply digits_without; [reflexivity|exact Hd]).
  rewrite Hint. apply replace_whole. destruct digits; discriminate.
Qed.

(** X13. Digits followed by one of the units 조, 억, 만 become the
    decimal digits of the product: for a string of digits that [int]
    reads as [n], and a unit with multiplier [m], the text
    [digits + unit] is turned into [str(n * m)]. The string of digits
    is kept below the number of digits that [int] and [str] convert. *)
Theorem unit_expansion (digits : str) (unit : char) (multiplier n : N) :
  (unit, multiplier) ∈ units ->
  int digits = Some n ->
  length digits <= 4000 ->
  normalize_korean_number (digits ++ [unit]) = str_of_int (n * multiplier).
Proof.
  intros Hum Hint _. destruct (int_Some_digits _ _ Hint) as [Hd _].
  pose proof (uint_digits_digits (N.to_uint (n * multiplier))) as Hres.
  fold (str_of_int (n * multiplier)) in Hres.
  assert (Hskip : forall u m, is_ascii_digit u = false ->
            expand_unit (str_of_int (n * multiplier)) (u, m) = str_of_int (n * multiplier)).
  { intros u m Hu. apply expand_unit_absent. simpl. apply digits_without; assumption. }
  assert (Hother : forall u m, is_ascii_digit u = false -> u <> unit ->
            expand_unit (digits ++ [unit]) (u, m) = digits ++ [unit]).
  { intros u m Hu Hne. apply expand_unit_absent. simpl. intros Hin.
    apply elem_of_app in Hin. destruct Hin as [Hin|Hin].
    - revert Hin. apply digits_without; assumption.
    - apply list_elem_of_singleton in Hin. contradiction. }
  unfold normalize_korean_number.
  assert (E : fold_left expand_unit units (digits ++ [unit]) = str_of_int (n * multiplier)).
  { unfold units in *. cbn [fold_left].
    apply elem_of_cons in Hum. destruct Hum as [[= -> ->]|Hum].
    { rewrite (expand_unit_here digits _ _ n) by (reflexivity || exact Hint).
      rewrite !Hskip by reflexivity. reflexivity. }
    apply elem_of_cons in Hum. destruct Hum as [[= -> ->]|Hum].
    { rewrite Hother by (reflexivity || discriminate).
      rewrite (expand_unit_here digits _ _ n) by (reflexivity || exact Hint).
      rewrite !Hskip by reflexivity. reflexivity. }
    apply list_elem_of_singleton in Hum. injection Hum as -> ->.
    rewrite !Hother by (reflexivity || discriminate).
    apply (expand_unit_here digits _ _ n); [reflexivity|exact Hint]. }
  rewrite E. apply replace_absent. apply digits_without; [reflexivity|exact Hres].
Qed.

(** An instance: [1000만]. *)
Lemma unit_expansion_witness :
  normalize_korean_number (utf8 "1000만") = utf8 "10000000".
Proof.
  apply (unit_expansion (utf8 "1000") 0xB9CC%N 10000%N 1000%N).
  - by_decision.
  - reflexivity.
  - vm_compute. lia.
Defined.

End NormalizerLaws.

Module TextComparatorLaws.
Import PyStr TextComparator TextComparatorFacts.

Section Matching.
Variable ratio : str -> str -> Q.

Local Abbreviation score := (score ratio).
Local Abbreviation find_best_match := (find_best_match ratio).
Local Abbreviation match_step := (match_step ratio).
Local Abbreviation compare_blocks := (compare_blocks ratio).

(** ** The best match *)

(** The loop of [find_best_match] at its end: no block with a text has
    a score above -1, or the first block of the highest score is
    held. *)
Lemma best_fold_optimal target_block source_blocks :
  let best :=
    fold_left (best_step ratio target_block) (enumerate source_blocks) (-1 # 1, None) in
  (best = (-1 # 1, None) /\
   forall j' b', source_blocks !! j' = Some b' ->
     normalize_text (text b') <> [] -> (score target_block b' <= -1 # 1)%Q) \/
  (exists j b, source_blocks !! j = Some b /\ normalize_text (text b) <> [] /\
     best = (score target_block b, Some j) /\
     forall j' b', source_blocks !! j' = Some b' ->
       normalize_text (text b') <> [] ->
       (score target_block b' <= score target_block b)%Q /\
       (j' < j -> (score target_block b' < score target_block b)%Q)).
Proof.
  set (P := fun (k : nat) (best : Q * option nat) =>
    (best = (-1 # 1, None) /\
     forall j' b', j' < k -> source_blocks !! j' = Some b' ->
       normalize_text (text b') <> [] -> (score target_block b' <= -1 # 1)%Q) \/
    (exists j b, j < k /\ source_blocks !! j = Some b /\ normalize_text (text b) <> [] /\
       best = (score target_block b, Some j) /\
       forall j' b', j' < k -> source_blocks !! j' = Some b' ->
         normalize_text (text b') <> [] ->
         (score target_block b' <= score target_block b)%Q /\
         (j' < j -> (score target_block b' < score target_block b)%Q))).
  assert (HP : P (length source_blocks)
                 (fold_left (best_step ratio target_block) (enumerate source_blocks)
                            (-1 # 1, None))).
  { apply fold_enumerate_ind.
    - left. split; [reflexivity|]. intros; lia.
    - intros k x best Hx HP. unfold best_step.
      destruct (decide (normalize_text (text x) = [])) as [Hempty|Hfull].
      + rewrite bool_decide_eq_true_2 by exact Hempty.
        destruct HP as [[-> Hall]|(j & b & Hjk & Hb & Hn & -> & Hall)].
        * left. split; [reflexivity|]. intros j' b' Hj' Hb' Hn'.
          destruct (decide (j' = k)) as [->|Hne]; [congruence|].
          apply (Hall j' b'); [lia|assumption..].
        * right. exists j, b. split; [lia|]. do 3 (split; [assumption || reflexivity|]).
          intros j' b' Hj' Hb' Hn'.
          destruct (decide (j' = k)) as [->|Hne]; [congruence|].
          apply (Hall j' b'); [lia|assumption..].
      + rewrite bool_decide_eq_false_2 by exact Hfull.
        destruct (Qltb best.1 (score target_block x)) eqn:Hlt.
        * apply Qltb_lt in Hlt. right. exists k, x.
          split; [lia|]. split; [exact Hx|]. split; [exact Hfull|]. split; [reflexivity|].
          intros j' b' Hj' Hb' Hn'. destruct (decide (j' = k)) as [->|Hne].
          { rewrite Hx in Hb'. injection Hb' as <-. split; [apply Qle_refl|lia]. }
          assert (Hlt' : j' < k) by lia.
          destruct HP as [[-> Hall]|(j & b & Hjk & Hb & Hn & -> & Hall)]; cbn [fst] in Hlt.
          -- specialize (Hall j' b' Hlt' Hb' Hn'). split; [|intros _]; lra.
          -- destruct (Hall j' b' Hlt' Hb' Hn') as [Hle _]. split; [|intros _]; lra.
        * apply Qltb_ge in Hlt.
          destruct HP as [[-> Hall]|(j & b & Hjk & Hb & Hn & -> & Hall)]; cbn [fst] in Hlt.
          -- left. split; [reflexivity|]. intros j' b' Hj' Hb' Hn'.
             destruct (decide (j' = k)) as [->|Hne].
             { rewrite Hx in Hb'. injection Hb' as <-. exact Hlt. }
             apply (Hall j' b'); [lia|assumption..].
          -- right. exists j, b. split; [lia|]. do 3 (split; [assumption || reflexivity|]).
             intros j' b' Hj' Hb' Hn'. destruct (decide (j' = k)) as [->|Hne].
             { rewrite Hx in Hb'. injection Hb' as <-. split; [exact Hlt|lia]. }
             apply (Hall j' b'); [lia|assumption..]. }
  cbv zeta. destruct HP as [[E Hall]|(j & b & Hjk & Hb & Hn & E & Hall)].
  - left. split; [exact E|]. intros j' b' Hb' Hn'.
    apply (Hall j' b'); [eapply lookup_lt_Some; exact Hb'|assumption..].
  - right. exists j, b. do 3 (split; [assumption || reflexivity|]). intros j' b' Hb' Hn'.
    apply (Hall j' b'); [eapply lookup_lt_Some; exact Hb'|assumption..].
Qed.


(** X15. [find_best_match] returns [None] exactly when the normalized
    text of the target is empty or every block with a normalized text
    scores below the threshold. *)
Theorem find_best_match_none target_block source_blocks :
  find_best_match target_block source_blocks = None <->
  normalize_text (text target_block) = [] \/
  forall j b, source_blocks !! j = Some b -> normalize_text (text b) <> [] ->
    (score target_block b < SIMILARITY_THRESHOLD)%Q.
Proof.
  unfold TextComparator.find_best_match.
  destruct (decide (normalize_text (text target_block) = [])) as [Hempty|Hfull].
  { rewrite bool_decide_eq_true_2 by exact Hempty. split; [left; exact Hempty|reflexivity]. }
  rewrite bool_decide_eq_false_2 by exact Hfull.
  pose proof (best_fold_optimal target_block source_blocks) as Hbest. cbv zeta in Hbest.
  destruct (fold_left _ _ _) as [best_score best_index].
  destruct Hbest as [[[= -> ->] Hall]|(j0 & b & Hb & Hn & [= -> ->] & Hall)].
  - split; [|reflexivity]. intros _. right. intros j b Hb Hn.
    specialize (Hall j b Hb Hn). unfold SIMILARITY_THRESHOLD. lra.
  - destruct (Qle_bool SIMILARITY_THRESHOLD (score target_block b)) eqn:Hle.
    + split; [discriminate|]. intros [Hempty|Hlow]; [contradiction|].
      apply Qle_bool_iff in Hle. specialize (Hlow j0 b Hb Hn). lra.
    + split; [|reflexivity]. intros _. right. intros j b' Hb' Hn'.
      destruct (Hall j b' Hb' Hn') as [Hle' _].
      assert (Hnot : ~ (SIMILARITY_THRESHOLD <= score target_block b)%Q).
      { intros H. apply Qle_bool_iff in H. congruence. }
      apply Qnot_le_lt in Hnot. lra.
Qed.

(** ** What [compare_blocks] reports *)

(** The first loop of [compare_blocks] after [k] blocks of A. *)
Lemma match_loop_report blocks_a blocks_b :
  let acc := fold_left (match_step blocks_b) (enumerate blocks_a) (empty_results, ∅) in
  (forall j, j ∈ acc.2 <-> exists i, sync_map acc.1 !! i = Some j) /\
  res_added acc.1 = [] /\
  (forall i, i ∈ res_deleted acc.1 <->
     exists block_a, blocks_a !! i = Some block_a /\
                     find_best_match block_a blocks_b = None) /\
  (forall i j, (i, j) ∈ res_modified acc.1 <->
     sync_map acc.1 !! i = Some j /\
     exists block_a block_b, blocks_a !! i = Some block_a /\ blocks_b !! j = Some block_b /\
       compare_word_level (text block_a) (text block_b) = modified) /\
  (forall i j, sync_map acc.1 !! i = Some j -> i < length blocks_a /\ j < length blocks_b).
Proof.
  set (P := fun (k : nat) (acc : results * gset nat) =>
    (forall j, j ∈ acc.2 <-> exists i, sync_map acc.1 !! i = Some j) /\
    res_added acc.1 = [] /\
    (forall i, i ∈ res_deleted acc.1 <->
       i < k /\ exists block_a, blocks_a !! i = Some block_a /\
                       find_best_match block_a blocks_b = None) /\
    (forall i j, (i, j) ∈ res_modified acc.1 <->
       sync_map acc.1 !! i = Some j /\
       exists block_a block_b, blocks_a !! i = Some block_a /\ blocks_b !! j = Some block_b /\
         compare_word_level (text block_a) (text block_b) = modified) /\
    (forall i j, sync_map acc.1 !! i = Some j -> i < k /\ j < length blocks_b)).
  assert (HP : P (length blocks_a)
                 (fold_left (match_step blocks_b) (enumerate blocks_a) (empty_results, ∅))).
  { apply fold_enumerate_ind.
    - unfold P. cbn [fst snd empty_results sync_map res_added res_deleted res_modified].
      split; [|split; [reflexivity|split; [|split]]].
      + intros j. split; [intros H; apply not_elem_of_empty in H; destruct H|].
        intros (i & Hi). rewrite lookup_empty in Hi. discriminate.
      + intros i. split; [intros H; apply elem_of_nil in H; destruct H|]. intros [? _]. lia.
      + intros i j. split; [intros H; apply elem_of_nil in H; destruct H|].
        intros [Hi _]. rewrite lookup_empty in Hi. discriminate.
      + intros i j Hi. rewrite lookup_empty in Hi. discriminate.
    - intros k x [res matched] Hx (Hm & Ha & Hd & Hmod & Hs). cbn [fst snd] in *.
      unfold TextComparator.match_step.
      destruct (find_best_match x blocks_b) as [[j sc]|] eqn:Hf.
      + assert (Hdk : forall i, i ∈ res_deleted res <->
                  i < S k /\ exists block_a, blocks_a !! i = Some block_a /\
                                  find_best_match block_a blocks_b = None).
        { intros i. rewrite Hd. split.
          - intros [Hlt Hex]. split; [lia|exact Hex].
          - intros [Hlt (a & Ha' & Hn)]. split; [|eauto].
            destruct (decide (i = k)) as [->|Hne]; [|lia].
            rewrite Hx in Ha'. injection Ha' as <-. congruence. }
        assert (Hsk : forall i j', sync_map res !! i = Some j' -> i < S k /\ j' < length blocks_b).
        { intros i j' Hi. apply Hs in Hi. lia. }
        destruct (bool_decide (j ∈ matched)) eqn:Hj.
        { unfold P. cbn [fst snd].
          split; [exact Hm|split; [exact Ha|split; [exact Hdk|split; [exact Hmod|exact Hsk]]]]. }
        apply bool_decide_eq_false in Hj.
        destruct (find_best_match_Some _ _ _ _ _ Hf) as (block_b & Hb & _). rewrite Hb.
        assert (Hfresh : sync_map res !! k = None).
        { destruct (sync_map res !! k) as [j'|] eqn:E; [|reflexivity].
          apply Hs in E. lia. }
        assert (Hjl : j < length blocks_b) by (eapply lookup_lt_Some; exact Hb).
        assert (Hsync : forall i j', <[k:=j]> (sync_map res) !! i = Some j' <->
                          (i = k /\ j' = j) \/ sync_map res !! i = Some j').
        { intros i j'. destruct (decide (i = k)) as [->|Hne].
          - rewrite lookup_insert_eq. split.
            + intros [= <-]. left. auto.
            + intros [[_ ->]|H]; [reflexivity|congruence].
          - rewrite lookup_insert_ne by congruence. split; [auto|].
            intros [[? _]|H]; [contradiction|exact H]. }
        assert (Hmk : forall i j', (i, j') ∈ res_modified res -> i <> k).
        { intros i j' Hin ->. apply Hmod in Hin. destruct Hin as [Hin _]. congruence. }
        destruct (compare_word_level (text x) (text block_b)) eqn:Hw;
          unfold P; cbn [fst snd sync_map res_added res_deleted res_modified].
        * split; [|split; [exact Ha|split; [exact Hdk|split]]].
          -- intros j'. rewrite elem_of_union, elem_of_singleton, Hm. split.
             ++ intros [->|(i & Hi)]; [exists k|exists i]; apply Hsync; auto.
             ++ intros (i & Hi). apply Hsync in Hi. destruct Hi as [[_ ->]|Hi]; eauto.
          -- intros i j'. rewrite Hmod, Hsync. split.
             ++ intros [Hi Hex]. split; [right; exact Hi|exact Hex].
             ++ intros [[[-> ->]|Hi] Hex]; [|split; assumption].
                destruct Hex as (a & b & Ha' & Hb' & Hw').
                rewrite Hx in Ha'. rewrite Hb in Hb'.
                injection Ha' as <-. injection Hb' as <-. congruence.
          -- intros i j' Hi. apply Hsync in Hi. destruct Hi as [[-> ->]|Hi]; [lia|].
             apply Hsk. exact Hi.
        * split; [|split; [exact Ha|split; [exact Hdk|split]]].
          -- intros j'. rewrite elem_of_union, elem_of_singleton, Hm. split.
             ++ intros [->|(i & Hi)]; [exists k|exists i]; apply Hsync; auto.
             ++ intros (i & Hi). apply Hsync in Hi. destruct Hi as [[_ ->]|Hi]; eauto.
          -- intros i j'. rewrite elem_of_app, list_elem_of_singleton, Hmod, Hsync. split.
             ++ intros [[Hi Hex]|[= -> ->]]; [split; [right; exact Hi|exact Hex]|].
                split; [left; auto|]. exists x, block_b. auto.
             ++ intros [[[-> ->]|Hi] Hex]; [right; reflexivity|left; split; assumption].
          -- intros i j' Hi. apply Hsync in Hi. destruct Hi as [[-> ->]|Hi]; [lia|].
             apply Hsk. exact Hi.
      + unfold P. cbn [fst snd sync_map res_added res_deleted res_modified].
        split; [exact Hm|]. split; [exact Ha|]. split; [|split; [exact Hmod|]].
        * intros i. rewrite elem_of_app, list_elem_of_singleton, Hd. split.
          -- intros [[Hlt Hex]| ->]; [split; [lia|exact Hex]|]. split; [lia|]. eauto.
          -- intros [Hlt (a & Ha' & Hn)]. destruct (decide (i = k)) as [->|Hne]; [right; reflexivity|].
             left. split; [lia|eauto].
        * intros i j' Hi. apply Hs in Hi. lia. }
  cbv zeta. destruct HP as (Hm & Ha & Hd & Hmod & Hs).
  split; [exact Hm|]. split; [exact Ha|]. split; [|split; [exact Hmod|exact Hs]].
  intros i. rewrite Hd. split; [intros [_ H]; exact H|].
  intros (a & Ha' & Hn). split; [eapply lookup_lt_Some; exact Ha'|eauto].
Qed.

Lemma added_step_modified matched res jb :
  res_modified (added_step matched res jb) = res_modified res.
Proof.
  unfold added_step. destruct jb as [j b]. destruct (bool_decide _); reflexivity.
Qed.

Lemma added_loop_modified matched l res :
  res_modified (fold_left (added_step matched) l res) = res_modified res.
Proof.
  revert res. induction l as [|jb l IH]; intros res; simpl; [reflexivity|].
  rewrite IH. apply added_step_modified.
Qed.

Lemma added_loop_report matched blocks_b res :
  res_added res = [] ->
  forall j, j ∈ res_added (fold_left (added_step matched) (enumerate blocks_b) res) <->
            j < length blocks_b /\ j ∉ matched.
Proof.
  intros Hnone.
  apply (fold_enumerate_ind (added_step matched)
           (fun k r => forall j, j ∈ res_added r <-> j < k /\ j ∉ matched)).
  - intros j. rewrite Hnone. split; [intros H; apply elem_of_nil in H; destruct H|].
    intros [? _]. lia.
  - intros k x r _ Hr j. unfold added_step.
    destruct (decide (k ∈ matched)) as [Hk|Hk].
    + rewrite bool_decide_eq_true_2 by exact Hk. rewrite Hr. split.
      * intros [? ?]. split; [lia|assumption].
      * intros [Hlt Hj]. split; [|exact Hj].
        destruct (decide (j = k)) as [->|Hne]; [contradiction|lia].
    + rewrite bool_decide_eq_false_2 by exact Hk. cbn [res_added].
      rewrite elem_of_app, list_elem_of_singleton, Hr. split.
      * intros [[? ?]| ->]; split; try assumption; lia.
      * intros [Hlt Hj]. destruct (decide (j = k)) as [->|Hne]; [right; reflexivity|].
        left. split; [lia|exact Hj].
Qed.

(** The parts of the result in terms of the two lists. *)
Lemma compare_blocks_report blocks_a blocks_b :
  let res := compare_blocks blocks_a blocks_b in
  (forall j, j ∈ res_added res <->
     j < length blocks_b /\ forall i, sync_map res !! i <> Some j) /\
  (forall i, i ∈ res_deleted res <->
     exists block_a, blocks_a !! i = Some block_a /\
                     find_best_match block_a blocks_b = None) /\
  (forall i j, (i, j) ∈ res_modified res <->
     sync_map res !! i = Some j /\
     exists block_a block_b, blocks_a !! i = Some block_a /\ blocks_b !! j = Some block_b /\
       compare_word_level (text block_a) (text block_b) = modified) /\
  (forall i j, sync_map res !! i = Some j -> i < length blocks_a /\ j < length blocks_b).
Proof.
  cbv zeta. unfold TextComparator.compare_blocks.
  pose proof (match_loop_report blocks_a blocks_b) as Hloop. cbv zeta in Hloop.
  destruct (fold_left _ (enumerate blocks_a) _) as [res matched].
  cbn [fst snd] in Hloop. destruct Hloop as (Hm & Ha & Hd & Hmod & Hs).
  rewrite added_loop_sync_map, added_loop_deleted, added_loop_modified.
  split; [|split; [exact Hd|split; [exact Hmod|exact Hs]]].
  intros j. rewrite (added_loop_report matched blocks_b res Ha), Hm. split.
  - intros [Hlt Hno]. split; [exact Hlt|]. intros i Hi. apply Hno. eauto.
  - intros [Hlt Hno]. split; [exact Hlt|]. intros (i & Hi). apply (Hno i Hi).
Qed.

(** X16. A block of B is reported as added exactly when no block of A
    is mapped to it: every block of B is the image of a block of A or
    among the added blocks, never both. *)
Theorem added_iff_unclaimed blocks_a blocks_b j :
  j ∈ res_added (compare_blocks blocks_a blocks_b) <->
  j < length blocks_b /\
  forall i, sync_map (compare_blocks blocks_a blocks_b) !! i <> Some j.
Proof. apply (compare_blocks_report blocks_a blocks_b). Qed.

(** X17. A block of A is reported as deleted exactly when
    [find_best_match] finds no block of B for it. *)
Theorem deleted_iff_no_match blocks_a blocks_b i :
  i ∈ res_deleted (compare_blocks blocks_a blocks_b) <->
  exists block_a, blocks_a !! i = Some block_a /\
                  find_best_match block_a blocks_b = None.
Proof. apply (compare_blocks_report blocks_a blocks_b). Qed.

(** X18. A pair is reported as modified exactly when the sync map
    holds it and the word-level comparison of the two texts answers
    ['modified']. *)
Theorem modified_iff_mapped_and_different blocks_a blocks_b i j :
  (i, j) ∈ res_modified (compare_blocks blocks_a blocks_b) <->
  sync_map (compare_blocks blocks_a blocks_b) !! i = Some j /\
  exists block_a block_b,
    blocks_a !! i = Some block_a /\ blocks_b !! j = Some block_b /\
    compare_word_level (text block_a) (text block_b) = modified.
Proof. apply (compare_blocks_report blocks_a blocks_b). Qed.

(** X19. The sync map is a partial injection between the two lists:
    a pair [i -> j] has [i] below [len(blocks_a)] and [j] below
    [len(blocks_b)], and no other key is sent to [j]. *)
Theorem sync_map_partial_injection blocks_a blocks_b i j :
  sync_map (compare_blocks blocks_a blocks_b) !! i = Some j ->
  i < length blocks_a /\ j < length blocks_b /\
  forall i', sync_map (compare_blocks blocks_a blocks_b) !! i' = Some j -> i' = i.
Proof.
  intros Hij. destruct (compare_blocks_report blocks_a blocks_b) as (_ & _ & _ & Hs).
  destruct (Hs i j Hij) as [Hi Hj]. split; [exact Hi|]. split; [exact Hj|].
  intros i' Hi'. destruct (compare_blocks_inv ratio blocks_a blocks_b) as (acc & Hinv & E).
  rewrite E in Hij, Hi'. apply (inv_injective _ _ _ _ _ Hinv i' i j Hi' Hij).
Qed.

End Matching.


(** An instance, with the ratio of [Difflib]. *)
Lemma sync_map_partial_injection_witness :
  0 < length [premium_block] /\ 0 < length [amount_block] /\
  forall i', sync_map (compare_blocks Difflib.ratio [premium_block] [amount_block]) !! i'
             = Some 0 -> i' = 0.
Proof.
  apply (sync_map_partial_injection Difflib.ratio [premium_block] [amount_block] 0 0).
  vm_compute. reflexivity.
Defined.

(** ** [tokenize_words] *)

Lemma tokenize_from_words current_word text0 :
  Forall (fun c => isspace c = false) current_word ->
  Forall (fun w => w <> [] /\ Forall (fun c => isspace c = false) w)
         (tokenize_from current_word text0).
Proof.
  revert current_word. induction text0 as [|c s IH]; intros cur Hcur; cbn [tokenize_from].
  - destruct (decide (cur = [])) as [E|E].
    + rewrite bool_decide_eq_true_2 by exact E. constructor.
    + rewrite bool_decide_eq_false_2 by exact E. constructor; [auto|constructor].
  - destruct (isspace c) eqn:Hc.
    + destruct (decide (cur = [])) as [E|E].
      * rewrite bool_decide_eq_true_2 by exact E. apply IH. constructor.
      * rewrite bool_decide_eq_false_2 by exact E. constructor; [auto|]. apply IH. constructor.
    + apply IH. apply Forall_app. split; [exact Hcur|]. constructor; [exact Hc|constructor].
Qed.

Lemma tokenize_from_collapse current_word in_run text0 :
  (in_run = true -> current_word = []) ->
  tokenize_from current_word (Normalizer.collapse_from in_run text0)
  = tokenize_from current_word text0.
Proof.
  revert current_word in_run. induction text0 as [|c s IH]; intros cur b Hb; [reflexivity|].
  cbn [Normalizer.collapse_from tokenize_from]. destruct (isspace c) eqn:Hc.
  - destruct b.
    + rewrite (Hb eq_refl). rewrite bool_decide_eq_true_2 by reflexivity.
      apply IH. reflexivity.
    + cbn [tokenize_from]. change (isspace 32%N) with true. cbv iota.
      rewrite (IH [] true) by reflexivity. reflexivity.
  - cbn [tokenize_from]. rewrite Hc. apply IH. discriminate.
Qed.

Lemma tokenize_from_lstrip text0 : tokenize_from [] (lstrip text0) = tokenize_from [] text0.
Proof.
  induction text0 as [|c s IH]; [reflexivity|]. cbn [lstrip].
  destruct (isspace c) eqn:Hc; [|reflexivity].
  cbn [tokenize_from]. rewrite Hc, bool_decide_eq_true_2 by reflexivity. exact IH.
Qed.

Lemma tokenize_from_rstrip current_word text0 :
  tokenize_from current_word (rstrip text0) = tokenize_from current_word text0.
Proof.
  revert current_word. induction text0 as [|c s IH]; intros cur; [reflexivity|].
  cbn [rstrip]. destruct (rstrip s) as [|x r] eqn:E.
  - destruct (isspace c) eqn:Hc.
    + cbn [tokenize_from]. rewrite Hc, <- (IH []). cbn [tokenize_from].
      rewrite (bool_decide_eq_true_2 ([] = [])) by reflexivity.
      destruct (bool_decide (cur = [])); reflexivity.
    + cbn [tokenize_from]. rewrite Hc, <- IH. reflexivity.
  - cbn [tokenize_from]. destruct (isspace c).
    + rewrite <- (IH []). reflexivity.
    + rewrite <- IH. reflexivity.
Qed.

Lemma tokenize_words_from text0 : tokenize_words text0 = tokenize_from [] text0.
Proof.
  unfold tokenize_words, strip, Normalizer.collapse_spaces.
  rewrite tokenize_from_rstrip, tokenize_from_lstrip.
  apply tokenize_from_collapse. discriminate.
Qed.

(** X20. The words of [tokenize_words] are not empty and hold no white
    space. *)
Theorem tokenize_words_tokens (text0 : str) :
  Forall (fun w => w <> [] /\ Forall (fun c => isspace c = false) w) (tokenize_words text0).
Proof. unfold tokenize_words. apply tokenize_from_words. constructor. Qed.

(** X21. [tokenize_words] does not depend on the white space between
    and around the words: collapsing the runs of white space, or
    stripping the text, gives the same words, and a text compared at
    word level with its white space normalized is ['same']. *)
Theorem tokenize_words_ignores_spacing (text0 : str) :
  tokenize_words (Normalizer.collapse_spaces text0) = tokenize_words text0 /\
  tokenize_words (strip text0) = tokenize_words text0 /\
  compare_word_level text0 (strip (Normalizer.collapse_spaces text0)) = same.
Proof.
  assert (H1 : tokenize_words (Normalizer.collapse_spaces text0) = tokenize_words text0).
  { rewrite !tokenize_words_from. unfold Normalizer.collapse_spaces.
    apply tokenize_from_collapse. discriminate. }
  assert (H2 : forall s, tokenize_words (strip s) = tokenize_words s).
  { intros s. rewrite !tokenize_words_from. unfold strip.
    rewrite tokenize_from_rstrip. apply tokenize_from_lstrip. }
  split; [exact H1|]. split; [apply H2|].
  unfold compare_word_level. rewrite H2, H1.
  rewrite bool_decide_eq_true_2 by reflexivity. reflexivity.
Qed.

End TextComparatorLaws.

Module GuiLaws.
Import PyStr TextComparator TextComparatorFacts TextComparatorLaws.

(** ** Moving through the list of differences *)

(** X22. With a list of differences that is not empty,
    [navigate_diff] moves to an index inside the list, whatever the
    index before and the direction, and selects the entry at that
    index. *)
Theorem navigate_diff_selects (diff_indices : list Gui.entry) (current direction : Z) :
  diff_indices <> [] ->
  exists e,
    (Gui.navigate_diff diff_indices current direction).2 = Some e /\
    (0 <= (Gui.navigate_diff diff_indices current direction).1
       < Z.of_nat (length diff_indices))%Z /\
    diff_indices !! Z.to_nat (Gui.navigate_diff diff_indices current direction).1 = Some e.
Proof.
  intros Hne. unfold Gui.navigate_diff.
  destruct diff_indices as [|e0 rest] eqn:E; [congruence|]. rewrite <- E.
  assert (Hlen : (0 < Z.of_nat (length diff_indices))%Z) by (rewrite E; simpl; lia).
  cbn [fst snd].
  pose proof (Z.mod_pos_bound (current + direction) _ Hlen) as Hb.
  set (idx := ((current + direction) mod Z.of_nat (length diff_indices))%Z) in *.
  destruct (lookup_lt_is_Some_2 diff_indices (Z.to_nat idx)) as [e He]; [lia|].
  exists e. split; [|split; [exact Hb|exact He]].
  unfold Gui.index. destruct (Z.ltb_spec idx 0); [lia|exact He].
Qed.

(** An instance: the first step after a comparison, from index -1. *)
Lemma navigate_diff_selects_witness :
  exists e,
    (Gui.navigate_diff [Gui.Modified 0 0; Gui.Deleted 2; Gui.Added 1] (-1) 1).2 = Some e /\
    (0 <= (Gui.navigate_diff [Gui.Modified 0 0; Gui.Deleted 2; Gui.Added 1] (-1) 1).1
       < Z.of_nat (length [Gui.Modified 0 0; Gui.Deleted 2; Gui.Added 1]))%Z /\
    [Gui.Modified 0 0; Gui.Deleted 2; Gui.Added 1]
      !! Z.to_nat (Gui.navigate_diff [Gui.Modified 0 0; Gui.Deleted 2; Gui.Added 1] (-1) 1).1
    = Some e.
Proof.
  apply (navigate_diff_selects [Gui.Modified 0 0; Gui.Deleted 2; Gui.Added 1] (-1) 1).
  discriminate.
Defined.

(** X23. From an index inside the list, a step forward followed by a
    step back returns to the index, and so does a step back followed by
    a step forward: the list is walked as a ring. *)
Theorem navigate_diff_back (diff_indices : list Gui.entry) (current : Z) :
  (0 <= current < Z.of_nat (length diff_indices))%Z ->
  (Gui.navigate_diff diff_indices
     (Gui.navigate_diff diff_indices current 1).1 (-1)).1 = current /\
  (Gui.navigate_diff diff_indices
     (Gui.navigate_diff diff_indices current (-1)).1 1).1 = current.
Proof.
  intros Hc. unfold Gui.navigate_diff.
  destruct diff_indices as [|e0 rest]; [simpl in Hc; lia|].
  cbn [fst]. set (n := Z.of_nat (length (e0 :: rest))) in *.
  assert (Hn : (0 < n)%Z) by lia.
  split.
  - rewrite Zplus_mod_idemp_l. replace (current + 1 + -1)%Z with current by lia.
    apply Z.mod_small. exact Hc.
  - rewrite Zplus_mod_idemp_l. replace (current + -1 + 1)%Z with current by lia.
    apply Z.mod_small. exact Hc.
Qed.

(** An instance: from the last of three entries. *)
Lemma navigate_diff_back_witness :
  (Gui.navigate_diff [Gui.Modified 0 0; Gui.Deleted 2; Gui.Added 1]
     (Gui.navigate_diff [Gui.Modified 0 0; Gui.Deleted 2; Gui.Added 1] 2 1).1 (-1)).1 = 2%Z /\
  (Gui.navigate_diff [Gui.Modified 0 0; Gui.Deleted 2; Gui.Added 1]
     (Gui.navigate_diff [Gui.Modified 0 0; Gui.Deleted 2; Gui.Added 1] 2 (-1)).1 1).1 = 2%Z.
Proof.
  apply (navigate_diff_back [Gui.Modified 0 0; Gui.Deleted 2; Gui.Added 1] 2).
  simpl. lia.
Defined.

(** ** The inverted sync map *)


Lemma inverted_from_lookup (items : list (nat * nat)) (m : gmap nat nat) i j :
  NoDup (items.*2) ->
  fold_left (fun m kv => <[kv.2 := kv.1]> m) items m !! j = Some i <->
  (i, j) ∈ items \/ ((j ∉ items.*2) /\ m !! j = Some i).
Proof.
  revert m. induction items as [|[k v] items IH]; intros m Hnd; cbn [fold_left fmap list_fmap].
  - split; [intros H; right; split; [apply not_elem_of_nil|exact H]|].
    intros [H|[_ H]]; [apply elem_of_nil in H; destruct H|exact H].
  - apply NoDup_cons in Hnd. destruct Hnd as [Hv Hnd]. rewrite (IH _ Hnd). cbn [fst snd].
    rewrite elem_of_cons, not_elem_of_cons. split.
    + intros [Hin|[Hj Hm]]; [left; right; exact Hin|].
      destruct (decide (j = v)) as [->|Hne].
      * rewrite lookup_insert_eq in Hm. injection Hm as <-. left. left. reflexivity.
      * rewrite lookup_insert_ne in Hm by congruence. right. auto.
    + intros [[[= -> ->]|Hin]|[[Hne Hj] Hm]].
      * right. split; [exact Hv|]. apply lookup_insert_eq.
      * left. exact Hin.
      * right. split; [exact Hj|]. rewrite lookup_insert_ne by congruence. exact Hm.
Qed.

Section Results.
Variable ratio : str -> str -> Q.

Local Abbreviation compare_blocks := (compare_blocks ratio).


(** X24. Every entry of the list of differences built from the result
    of [compare_blocks] names a block that exists: the look-up
    [self.blocks_a[index_a]] or [self.blocks_b[index_b]] that
    [navigate_diff] does for it is in range. *)
Theorem diff_indices_targets_exist blocks_a blocks_b :
  Forall (fun e => is_Some (Gui.target_block blocks_a blocks_b e))
         (Gui.diff_indices (compare_blocks blocks_a blocks_b)).
Proof.
  destruct (compare_blocks_report ratio blocks_a blocks_b) as (Ha & Hd & Hmod & Hs).
  unfold Gui.diff_indices. rewrite !Forall_app, !Forall_fmap. repeat split.
  - apply Forall_forall. intros [i j] Hin. cbn. apply Hmod in Hin.
    destruct Hin as [_ (a & _ & Hia & _)]. eauto.
  - apply Forall_forall. intros i Hin. cbn. apply Hd in Hin.
    destruct Hin as (a & Hia & _). eauto.
  - apply Forall_forall. intros j Hin. cbn. apply Ha in Hin.
    destruct Hin as [Hlt _]. apply lookup_lt_is_Some_2. exact Hlt.
Qed.


Lemma match_loop_counts blocks_a blocks_b :
  let acc := fold_left (match_step ratio blocks_b) (enumerate blocks_a) (empty_results, ∅) in
  length (res_modified acc.1) + length (res_deleted acc.1) <= length blocks_a.
Proof.
  cbv zeta.
  apply (fold_enumerate_ind (match_step ratio blocks_b)
           (fun k acc => length (res_modified acc.1) + length (res_deleted acc.1) <= k)).
  - cbn. lia.
  - intros k x [res matched] _ Hle. cbn [fst] in Hle. unfold match_step.
    destruct (find_best_match ratio x blocks_b) as [[j sc]|].
    + destruct (bool_decide (j ∈ matched)); [cbn [fst]; lia|].
      destruct (blocks_b !! j) as [block_b|]; [|cbn [fst]; lia].
      destruct (compare_word_level (text x) (text block_b));
        cbn [fst res_modified res_deleted]; rewrite ?length_app; cbn [length]; lia.
    + cbn [fst res_modified res_deleted]. rewrite length_app. cbn [length]. lia.
Qed.

Lemma added_loop_counts matched blocks_b res :
  res_added res = [] ->
  length (res_added (fold_left (added_step matched) (enumerate blocks_b) res))
  <= length blocks_b.
Proof.
  intros Hnone.
  apply (fold_enumerate_ind (added_step matched) (fun k r => length (res_added r) <= k)).
  - rewrite Hnone. cbn. lia.
  - intros k x r _ Hle. unfold added_step. destruct (bool_decide _); [lia|].
    cbn [res_added]. rewrite length_app. cbn [length]. lia.
Qed.

(** X25. The total of [get_diff_count] is the length of the list of
    differences that the window walks through; the modified and the
    deleted blocks together are at most the blocks of A, and the added
    blocks at most the blocks of B. *)
Theorem diff_count_bounded blocks_a blocks_b :
  Gui.count_total (Gui.get_diff_count (compare_blocks blocks_a blocks_b))
  = length (Gui.diff_indices (compare_blocks blocks_a blocks_b)) /\
  Gui.count_modified (Gui.get_diff_count (compare_blocks blocks_a blocks_b))
  + Gui.count_deleted (Gui.get_diff_count (compare_blocks blocks_a blocks_b))
  <= length blocks_a /\
  Gui.count_added (Gui.get_diff_count (compare_blocks blocks_a blocks_b))
  <= length blocks_b.
Proof.
  split.
  { unfold Gui.get_diff_count, Gui.diff_indices. cbn [Gui.count_total].
    rewrite !length_app, !length_map. lia. }
  unfold Gui.get_diff_count. cbn [Gui.count_modified Gui.count_deleted Gui.count_added].
  unfold TextComparator.compare_blocks.
  pose proof (match_loop_counts blocks_a blocks_b) as Hc. cbv zeta in Hc.
  pose proof (match_loop_report ratio blocks_a blocks_b) as Hr. cbv zeta in Hr.
  destruct (fold_left _ (enumerate blocks_a) _) as [res matched].
  cbn [fst snd] in Hc, Hr. destruct Hr as (_ & Hnone & _).
  rewrite added_loop_modified, added_loop_deleted. split; [exact Hc|].
  apply added_loop_counts. exact Hnone.
Qed.

(** X26. The map that [sync_scroll] builds for scrolling from B to A
    is the inverse of the sync map: it sends [j] to [i] exactly when the
    sync map sends [i] to [j], in whatever order the dict gives its
    items. No pair is lost in the inversion, since no two keys share a
    value. *)
Theorem inverted_sync_map_is_inverse blocks_a blocks_b (items : list (nat * nat)) i j :
  items ≡ₚ map_to_list (sync_map (compare_blocks blocks_a blocks_b)) ->
  Gui.inverted items !! j = Some i <->
  sync_map (compare_blocks blocks_a blocks_b) !! i = Some j.
Proof.
  intros Hperm. unfold Gui.inverted.
  set (m := sync_map (compare_blocks blocks_a blocks_b)) in *.
  assert (Hin : forall kv, kv ∈ items <-> m !! kv.1 = Some kv.2).
  { intros [k v]. rewrite Hperm. apply elem_of_map_to_list. }
  assert (Hnd : NoDup (items.*2)).
  { apply NoDup_fmap_2_strong.
    - intros [k1 v1] [k2 v2] H1 H2 Hv. cbn in Hv. subst v2.
      apply Hin in H1, H2. cbn in H1, H2.
      rewrite (compare_blocks_sync_map_injective ratio blocks_a blocks_b k1 k2 v1 H1 H2).
      reflexivity.
    - rewrite Hperm. apply NoDup_map_to_list. }
  rewrite (inverted_from_lookup items ∅ i j Hnd), (Hin (i, j)). cbn [fst snd]. split.
  - intros [H|[_ H]]; [exact H|]. rewrite lookup_empty in H. discriminate.
  - intros H. left. exact H.
Qed.

End Results.

(** An instance, with the ratio of [Difflib]: two blocks in the other
    order. *)
Lemma inverted_sync_map_is_inverse_witness :
  Gui.inverted [(1, 0); (0, 1)] !! 1 = Some 0 <->
  sync_map (compare_blocks Difflib.ratio [premium_block; amount_block]
                           [amount_block; premium_block]) !! 0 = Some 1.
Proof.
  apply (inverted_sync_map_is_inverse Difflib.ratio [premium_block; amount_block]
           [amount_block; premium_block] [(1, 0); (0, 1)] 0 1).
  vm_compute. reflexivity.
Defined.

End GuiLaws.

Module PDdiffLaws.
Import PyStr PyStrFacts PDdiff.

(** ** [normalize_text] *)




(** ** The block matcher *)

Section Matching.
Variable ratio : str -> str -> Q.

Local Abbreviation find_best_match := (find_best_match ratio).
Local Abbreviation match_step := (match_step ratio).
Local Abbreviation perform_comparison := (perform_comparison ratio).

(** The loop of [find_best_match] at its end: no block has a ratio
    above -1, or the first block of the highest ratio is held. *)
Lemma best_ratio_fold target_block source_blocks :
  let best := fold_left (best_step ratio target_block) source_blocks (-1 # 1, None) in
  (best = (-1 # 1, None) /\
   forall b', b' ∈ source_blocks ->
     (ratio (normalized_text target_block) (normalized_text b') <= -1 # 1)%Q) \/
  (exists b, b ∈ source_blocks /\
     best = (ratio (normalized_text target_block) (normalized_text b), Some b) /\
     forall b', b' ∈ source_blocks ->
       (ratio (normalized_text target_block) (normalized_text b')
        <= ratio (normalized_text target_block) (normalized_text b))%Q).
Proof.
  cbv zeta.
  assert (Hgen : forall done rest best,
    ((best = (-1 # 1, None) /\
      forall b', b' ∈ done ->
        (ratio (normalized_text target_block) (normalized_text b') <= -1 # 1)%Q) \/
     (exists b, b ∈ done /\
        best = (ratio (normalized_text target_block) (normalized_text b), Some b) /\
        forall b', b' ∈ done ->
          (ratio (normalized_text target_block) (normalized_text b')
           <= ratio (normalized_text target_block) (normalized_text b))%Q)) ->
    let best' := fold_left (best_step ratio target_block) rest best in
    (best' = (-1 # 1, None) /\
      forall b', b' ∈ done ++ rest ->
        (ratio (normalized_text target_block) (normalized_text b') <= -1 # 1)%Q) \/
     (exists b, b ∈ done ++ rest /\
        best' = (ratio (normalized_text target_block) (normalized_text b), Some b) /\
        forall b', b' ∈ done ++ rest ->
          (ratio (normalized_text target_block) (normalized_text b')
           <= ratio (normalized_text target_block) (normalized_text b))%Q)).
  { intros done rest. revert done. induction rest as [|x rest IH]; intros done best HP.
    - cbn. rewrite app_nil_r. exact HP.
    - cbn [fold_left]. replace (done ++ x :: rest) with ((done ++ [x]) ++ rest)
        by (rewrite <- app_assoc; reflexivity).
      apply IH. unfold best_step.
      destruct (Qltb best.1 (ratio (normalized_text target_block) (normalized_text x))) eqn:Hlt.
      + apply Qltb_lt in Hlt. right. exists x.
        split; [apply elem_of_app; right; apply list_elem_of_singleton; reflexivity|].
        split; [reflexivity|]. intros b' Hb'. apply elem_of_app in Hb'.
        destruct Hb' as [Hb'|Hb']; [|apply list_elem_of_singleton in Hb'; subst; apply Qle_refl].
        destruct HP as [[-> Hall]|(b & Hb & -> & Hall)]; cbn [fst] in Hlt;
          specialize (Hall b' Hb'); lra.
      + apply Qltb_ge in Hlt.
        destruct HP as [[-> Hall]|(b & Hb & -> & Hall)]; cbn [fst] in Hlt.
        * left. split; [reflexivity|]. intros b' Hb'. apply elem_of_app in Hb'.
          destruct Hb' as [Hb'|Hb']; [apply Hall; exact Hb'|].
          apply list_elem_of_singleton in Hb'. subst. exact Hlt.
        * right. exists b. split; [apply elem_of_app; left; exact Hb|].
          split; [reflexivity|]. intros b' Hb'. apply elem_of_app in Hb'.
          destruct Hb' as [Hb'|Hb']; [apply Hall; exact Hb'|].
          apply list_elem_of_singleton in Hb'. subst. exact Hlt. }
  apply (Hgen [] source_blocks). left. split; [reflexivity|].
  intros b' Hb'. apply elem_of_nil in Hb'. destruct Hb'.
Qed.

(** X28. The block [find_best_match] returns is a block of the list,
    its ratio with the target is at least 0.8, and no block of the list
    has a higher ratio. *)
Theorem best_match_has_top_ratio target_block source_blocks b :
  find_best_match target_block source_blocks = Some b ->
  b ∈ source_blocks /\
  (8 # 10 <= ratio (normalized_text target_block) (normalized_text b))%Q /\
  forall b', b' ∈ source_blocks ->
    (ratio (normalized_text target_block) (normalized_text b')
     <= ratio (normalized_text target_block) (normalized_text b))%Q.
Proof.
  unfold PDdiff.find_best_match.
  pose proof (best_ratio_fold target_block source_blocks) as Hbest. cbv zeta in Hbest.
  destruct (fold_left _ _ _) as [best_score best_match].
  destruct (Qle_bool (8 # 10) best_score) eqn:Hle; [|discriminate].
  intros ->. destruct Hbest as [[[=] _]|(b0 & Hb & [= -> ->] & Hall)].
  split; [exact Hb|]. split; [apply Qle_bool_iff; exact Hle|exact Hall].
Qed.

Lemma added_step_keeps_sync_map s jb : sync_map (added_step s jb) = sync_map s.
Proof. unfold added_step. destruct jb as [j b]. destruct (bool_decide _); reflexivity. Qed.

Lemma added_loop_keeps_sync_map l s : sync_map (fold_left added_step l s) = sync_map s.
Proof.
  revert s. induction l as [|jb l IH]; intros s; simpl; [reflexivity|].
  rewrite IH. apply added_step_keeps_sync_map.
Qed.

Lemma index_of_Some b bs j :
  index_of b bs = Some j <-> bs !! j = Some b /\ forall j', j' < j -> bs !! j' <> Some b.
Proof.
  unfold index_of. split.
  - destruct (list_find (fun x => x = b) bs) as [[j0 x]|] eqn:E; [|discriminate].
    intros [= <-]. apply list_find_Some in E. destruct E as (Hx & -> & Hfirst).
    split; [exact Hx|]. intros j' Hlt Hj'. apply (Hfirst j' b Hj' Hlt). reflexivity.
  - intros [Hj Hfirst].
    assert (E : list_find (fun x => x = b) bs = Some (j, b)).
    { apply list_find_Some. split; [exact Hj|]. split; [reflexivity|].
      intros j' y Hy Hlt ->. apply (Hfirst j' Hlt Hy). }
    rewrite E. reflexivity.
Qed.

(** The sync map after the first loop of [perform_comparison]. *)
Lemma match_loop_sync_map flat_blocks_a flat_blocks_b i j :
  sync_map (fold_left (match_step flat_blocks_b) (enumerate flat_blocks_a) (St ∅ ∅ ∅ ∅)) !! i
  = Some j <->
  exists block_a best_match_b,
    flat_blocks_a !! i = Some block_a /\
    find_best_match block_a flat_blocks_b = Some best_match_b /\
    index_of best_match_b flat_blocks_b = Some j.
Proof.
  set (P := fun (k : nat) (s : st) => forall i j,
    sync_map s !! i = Some j <->
    i < k /\ exists block_a best_match_b,
      flat_blocks_a !! i = Some block_a /\
      find_best_match block_a flat_blocks_b = Some best_match_b /\
      index_of best_match_b flat_blocks_b = Some j).
  assert (HP : P (length flat_blocks_a)
                 (fold_left (match_step flat_blocks_b) (enumerate flat_blocks_a) (St ∅ ∅ ∅ ∅))).
  { apply fold_enumerate_ind.
    - intros i0 j0. cbn [sync_map]. rewrite lookup_empty. split; [discriminate|].
      intros [? _]. lia.
    - intros k x s Hx HP i0 j0. unfold P in HP.
      assert (Hold : sync_map s !! i0 = Some j0 <->
                i0 < S k /\ i0 <> k /\ exists block_a best_match_b,
                  flat_blocks_a !! i0 = Some block_a /\
                  find_best_match block_a flat_blocks_b = Some best_match_b /\
                  index_of best_match_b flat_blocks_b = Some j0).
      { rewrite HP. split.
        - intros [Hlt Hex]. split; [lia|]. split; [lia|exact Hex].
        - intros (Hlt & Hne & Hex). split; [lia|exact Hex]. }
      unfold PDdiff.match_step.
      destruct (find_best_match x flat_blocks_b) as [b|] eqn:Hf.
      + destruct (index_of b flat_blocks_b) as [j1|] eqn:Hidx.
        * assert (Hs : sync_map
                         (match compare_text_blocks x b with
                          | modified =>
                            St (setdefault_append (page x) (bbox x, yellow) (diff_data_a s))
                               (setdefault_append (page b) (bbox b, yellow) (diff_data_b s))
                               (<[k:=j1]> (sync_map s)) ({[j1]} ∪ matched_b_indices s)
                          | _ => St (diff_data_a s) (diff_data_b s) (<[k:=j1]> (sync_map s))
                                    ({[j1]} ∪ matched_b_indices s)
                          end) = <[k:=j1]> (sync_map s)).
          { destruct (compare_text_blocks x b); reflexivity. }
          cbn [sync_map diff_data_a diff_data_b matched_b_indices]. rewrite Hs.
          destruct (decide (i0 = k)) as [->|Hne].
          -- rewrite lookup_insert_eq. split.
             ++ intros [= <-]. split; [lia|]. exists x, b. auto.
             ++ intros [_ (a & b' & Ha & Hf' & Hidx')]. rewrite Hx in Ha.
                injection Ha as <-. congruence.
          -- rewrite lookup_insert_ne by congruence. rewrite Hold. split.
             ++ intros (Hlt & _ & Hex). auto.
             ++ intros [Hlt Hex]. auto.
        * rewrite Hold. split.
          -- intros (Hlt & _ & Hex). auto.
          -- intros [Hlt Hex]. split; [exact Hlt|]. split; [|exact Hex].
             intros ->. destruct Hex as (a & b' & Ha & Hf' & Hidx').
             rewrite Hx in Ha. injection Ha as <-. congruence.
      + cbn [sync_map]. rewrite Hold. split.
        * intros (Hlt & _ & Hex). auto.
        * intros [Hlt Hex]. split; [exact Hlt|]. split; [|exact Hex].
          intros ->. destruct Hex as (a & b' & Ha & Hf' & _).
          rewrite Hx in Ha. injection Ha as <-. congruence. }
  unfold P in HP. rewrite (HP i j). split; [intros [_ H]; exact H|].
  intros (a & b & Ha & Hrest). split; [eapply lookup_lt_Some; exact Ha|eauto].
Qed.

(** X29. A pair [i -> j] of the sync map of [perform_comparison]
    joins block [i] of A with block [j] of B, where [j] is the first
    index of that block in B, the ratio of the two normalized texts is
    at least 0.8, and no block of B has a higher ratio with block
    [i]. *)
Theorem sync_map_pairs_are_best_matches blocks_a blocks_b i j :
  (perform_comparison blocks_a blocks_b).2 !! i = Some j ->
  exists block_a block_b,
    concat blocks_a !! i = Some block_a /\
    concat blocks_b !! j = Some block_b /\
    (forall j', j' < j -> concat blocks_b !! j' <> Some block_b) /\
    (8 # 10 <= ratio (normalized_text block_a) (normalized_text block_b))%Q /\
    forall b', b' ∈ concat blocks_b ->
      (ratio (normalized_text block_a) (normalized_text b')
       <= ratio (normalized_text block_a) (normalized_text block_b))%Q.
Proof.
  unfold PDdiff.perform_comparison. cbn [snd]. rewrite added_loop_keeps_sync_map.
  intros Hij. apply match_loop_sync_map in Hij.
  destruct Hij as (a & b & Ha & Hf & Hidx).
  apply index_of_Some in Hidx. destruct Hidx as [Hb Hfirst].
  destruct (best_match_has_top_ratio _ _ _ Hf) as (_ & Hle & Hall).
  exists a, b. auto.
Qed.

(** X30. A block of A is a key of the sync map exactly when
    [find_best_match] finds a block of B for it: no block of A with a
    match is left out of the map. *)
Theorem every_matched_block_is_mapped blocks_a blocks_b i block_a :
  concat blocks_a !! i = Some block_a ->
  (is_Some ((perform_comparison blocks_a blocks_b).2 !! i) <->
   is_Some (find_best_match block_a (concat blocks_b))).
Proof.
  intros Ha. unfold PDdiff.perform_comparison. cbn [snd]. rewrite added_loop_keeps_sync_map.
  split.
  - intros [j Hj]. apply match_loop_sync_map in Hj.
    destruct Hj as (a & b & Ha' & Hf & _). rewrite Ha in Ha'. injection Ha' as <-. eauto.
  - intros [b Hf]. destruct (best_match_has_top_ratio _ _ _ Hf) as (Hin & _ & _).
    apply list_elem_of_lookup_1 in Hin. destruct Hin as [j0 Hj0].
    destruct (index_of b (concat blocks_b)) as [j|] eqn:Hidx.
    + exists j. apply match_loop_sync_map. eauto.
    + exfalso. unfold index_of in Hidx.
      destruct (list_find (fun x => x = b) (concat blocks_b)) as [[j x]|] eqn:E; [discriminate|].
      apply list_find_None in E. rewrite Forall_forall in E.
      apply (E b); [|reflexivity]. eapply list_elem_of_lookup_2. exact Hj0.
Qed.

End Matching.

(** Instances, with the ratio of [Difflib]. *)
Lemma best_match_has_top_ratio_witness :
  premium_block ∈ [name_block; premium_block] /\
  (8 # 10 <= Difflib.ratio (normalized_text premium_block_again)
                           (normalized_text premium_block))%Q /\
  forall b', b' ∈ [name_block; premium_block] ->
    (Difflib.ratio (normalized_text premium_block_again) (normalized_text b')
     <= Difflib.ratio (normalized_text premium_block_again)
                      (normalized_text premium_block))%Q.
Proof.
  apply (best_match_has_top_ratio Difflib.ratio premium_block_again
           [name_block; premium_block] premium_block).
  vm_compute. reflexivity.
Defined.

Lemma sync_map_pairs_are_best_matches_witness :
  exists block_a block_b,
    concat [[template_block]] !! 0 = Some block_a /\
    concat [[name_block]; [filled_block]] !! 1 = Some block_b /\
    (forall j', j' < 1 -> concat [[name_block]; [filled_block]] !! j' <> Some block_b) /\
    (8 # 10 <= Difflib.ratio (normalized_text block_a) (normalized_text block_b))%Q /\
    forall b', b' ∈ concat [[name_block]; [filled_block]] ->
      (Difflib.ratio (normalized_text block_a) (normalized_text b')
       <= Difflib.ratio (normalized_text block_a) (normalized_text block_b))%Q.
Proof.
  apply (sync_map_pairs_are_best_matches Difflib.ratio [[template_block]]
           [[name_block]; [filled_block]] 0 1).
  vm_compute. reflexivity.
Defined.

Lemma every_matched_block_is_mapped_witness :
  is_Some ((perform_comparison Difflib.ratio [[template_block]]
              [[name_block]; [filled_block]]).2 !! 0) <->
  is_Some (find_best_match Difflib.ratio template_block
             (concat [[name_block]; [filled_block]])).
Proof.
  apply (every_matched_block_is_mapped Difflib.ratio [[template_block]]
           [[name_block]; [filled_block]] 0 template_block).
  reflexivity.
Defined.

End PDdiffLaws.
